(** * web2figma: hybrid image streaming, sender and receiver

    A shallow embedding of the streaming transport of the repository:

    - [ImageAssembler] (plugin, image-assembler.ts): the receiver-side chunk
      reassembly buffer;
    - [ImageProcessor] (scraper, image-processor.ts): the inline-vs-streamed
      decision and the session counters;
    - [StreamController] (scraper, stream-controller.ts): the ordered
      envelope sequence written to the web socket;
    - [Consumer] (plugin, code.ts): the dispatch of stream envelopes, the
      table of deferred image nodes and the finalisation on COMPLETE;
    - [ImageFetch] (scraper, image-processor.ts): the fetch of one image, the
      detection of its format and its conversion, over the network and the
      transcoder as oracles;
    - [EventLoop] (plugin, code.ts): the same handlers as the event loop
      runs them, suspended at their awaits, with the source as it stands.

    JavaScript [Map]s are finite maps ([gmap]); numbers are [Z]; a [Buffer]
    or [Uint8Array] is a list of bytes; [Date.now()] is an explicit clock
    reading handed to the function that reads it. *)

From Stdlib Require Import ZArith Lia.
From Stdlib Require Strings.Byte.
From stdpp Require Import gmap strings list list_numbers fin_maps pretty.

Local Open Scope Z_scope.

(** ** Bytes, typed arrays and number arrays *)

Abbreviation Bytes := (list Byte.byte).

(** [Array.from(buffer)]: every byte becomes a number in 0..255. *)
Definition byte_to_Z (b : Byte.byte) : Z := Z.of_N (Byte.to_N b).

Definition Array_from (buffer : Bytes) : list Z := map byte_to_Z buffer.

(** [new Uint8Array(data)]: every number is reduced modulo 256. *)
Definition Z_to_byte (z : Z) : Byte.byte :=
  match Byte.of_N (Z.to_N (z mod 256)) with
  | Some b => b
  | None => Byte.x00
  end.

Definition Uint8Array_of (data : list Z) : Bytes := map Z_to_byte data.

(** [new Uint8Array(n)]: [n] zero bytes. *)
Definition Uint8Array_new (n : nat) : Bytes := replicate n Byte.x00.

(** [target.set(source, offset)]: copies [source] into [target] at [offset];
    a source that does not fit raises a RangeError ([None]). *)
Definition Uint8Array_set (target source : Bytes) (offset : nat) : option Bytes :=
  if decide (offset + length source ≤ length target)%nat
  then Some (take offset target ++ source ++ drop (offset + length source) target)
  else None.

(** [buffer.slice(start, end)] for [0 <= start], [end <= buffer.length]. *)
Definition Buffer_slice (buffer : Bytes) (start stop : Z) : Bytes :=
  take (Z.to_nat stop - Z.to_nat start) (drop (Z.to_nat start) buffer).

(** What a JavaScript call yields: a value, or a thrown exception. *)
Inductive outcome (A : Type) : Type :=
  | Return (a : A)
  | Throw (err : string).
Arguments Return {A} a.
Arguments Throw {A} err.

(** ** The chunk reassembly buffer (image-assembler.ts) *)

Module ImageAssembler.

Record ChunkBuffer : Type := mkChunkBuffer {
  nodeId : string;
  chunks : gmap Z Bytes;
  totalChunks : Z;
  receivedChunks : Z;
  createdAt : Z
}.

(** The private field [buffers] is the whole state of an assembler. *)
Abbreviation Buffers := (gmap string ChunkBuffer).

Definition TIMEOUT_MS : Z := 30000.

Definition empty : Buffers := ∅.

(** [addChunk]; [now] is the reading of [Date.now()] taken if an entry is
    created. The entry is mutated in place, which on a finite map is the
    insertion of the updated record under the same key. *)
Definition addChunk (now : Z) (id : string) (chunkIndex : Z) (data : list Z)
    (total : Z) (buffers : Buffers) : Buffers :=
  let buffers1 :=
    match buffers !! id with
    | Some _ => buffers
    | None =>
        <[id := {| nodeId := id; chunks := ∅; totalChunks := total;
                   receivedChunks := 0; createdAt := now |}]> buffers
    end in
  match buffers1 !! id with
  | Some buffer =>
      let uint8Array := Uint8Array_of data in
      match chunks buffer !! chunkIndex with
      | Some _ => buffers1
      | None =>
          <[id := {| nodeId := nodeId buffer;
                     chunks := <[chunkIndex := uint8Array]> (chunks buffer);
                     totalChunks := totalChunks buffer;
                     receivedChunks := receivedChunks buffer + 1;
                     createdAt := createdAt buffer |}]> buffers1
      end
  | None => buffers1
  end.

Definition isComplete (id : string) (buffers : Buffers) : bool :=
  match buffers !! id with
  | None => false
  | Some buffer => bool_decide (receivedChunks buffer = totalChunks buffer)
  end.

(** The sum of the lengths of all stored chunks ([reduce] over
    [chunks.values()]). *)
Definition totalSize (cs : gmap Z Bytes) : nat :=
  map_fold (λ _ chunk acc, acc + length chunk)%nat 0%nat cs.

(** The body of the [for] loop of [assemble], over the remaining indices:
    [None] is the early [return null] on a missing chunk. *)
Fixpoint assemble_loop (cs : gmap Z Bytes) (indices : list Z)
    (assembled : Bytes) (offset : nat) : outcome (option Bytes) :=
  match indices with
  | [] => Return (Some assembled)
  | index :: rest =>
      match cs !! index with
      | None => Return None
      | Some chunk =>
          match Uint8Array_set assembled chunk offset with
          | None => Throw "RangeError: offset is out of bounds"
          | Some assembled' =>
              assemble_loop cs rest assembled' (offset + length chunk)
          end
      end
  end.

Definition assemble (id : string) (buffers : Buffers)
    : outcome (option Bytes) * Buffers :=
  match buffers !! id with
  | None => (Return None, buffers)
  | Some buffer =>
      if negb (isComplete id buffers) then (Return None, buffers)
      else
        let assembled := Uint8Array_new (totalSize (chunks buffer)) in
        match assemble_loop (chunks buffer) (seqZ 0 (totalChunks buffer))
                assembled 0 with
        | Return (Some bytes) => (Return (Some bytes), delete id buffers)
        | r => (r, buffers)
        end
  end.

(** [cleanupTimedOut]: one pass over the entries, collecting and deleting
    the ones older than [TIMEOUT_MS]. *)
Definition cleanup_step (now : Z) (acc : list string * Buffers)
    (entry : string * ChunkBuffer) : list string * Buffers :=
  if decide (now - createdAt entry.2 > TIMEOUT_MS)
  then (acc.1 ++ [entry.1], delete entry.1 acc.2)
  else acc.

Definition cleanupTimedOut (now : Z) (buffers : Buffers)
    : list string * Buffers :=
  foldl (cleanup_step now) ([], buffers) (map_to_list buffers).

(** A call of one of the public methods that change the buffer, and runs of
    such calls on one assembler. *)
Inductive Call : Type :=
  | AddChunk (now : Z) (id : string) (chunkIndex : Z) (data : list Z)
      (total : Z)
  | Assemble (id : string)
  | CleanupTimedOut (now : Z).

Definition call (buffers : Buffers) (c : Call) : Buffers :=
  match c with
  | AddChunk now id chunkIndex data total =>
      addChunk now id chunkIndex data total buffers
  | Assemble id => (assemble id buffers).2
  | CleanupTimedOut now => (cleanupTimedOut now buffers).2
  end.

Definition calls (buffers : Buffers) (cs : list Call) : Buffers :=
  foldl call buffers cs.

Definition isAddChunk (c : Call) : Prop :=
  match c with AddChunk _ _ _ _ _ => True | _ => False end.

Definition addsTo (id : string) (c : Call) : Prop :=
  match c with AddChunk _ id' _ _ _ => id' = id | _ => False end.

(** The bytes that the chunks stored under the given indices hold together. *)
Definition chunkSizes (cs : gmap Z Bytes) (indices : list Z) : nat :=
  foldr (λ index acc, (length (default [] (cs !! index)) + acc)%nat)
        0%nat indices.

(** The chunk map of an entry that has received the chunks [f 0], ...,
    [f (k-1)] under the indices 0 to [k-1]. *)
Fixpoint chunksUpTo (f : Z → Bytes) (k : nat) : gmap Z Bytes :=
  match k with
  | O => ∅
  | S k' => <[Z.of_nat k' := f (Z.of_nat k')]> (chunksUpTo f k')
  end.

(** An entry that the sweep run at [now] evicts. *)
Definition timedOut (now : Z) (entry : string * ChunkBuffer) : Prop :=
  now - createdAt entry.2 > TIMEOUT_MS.

#[global] Instance timedOut_dec now entry : Decision (timedOut now entry).
Proof. unfold timedOut. apply _. Defined.

(** The entry of [id] holds a chunk under index [k]. *)
Definition holds (id : string) (k : Z) (b : Buffers) : Prop :=
  ∃ buffer, b !! id = Some buffer ∧ is_Some (chunks buffer !! k).

End ImageAssembler.

(** ** The intermediate representation (ir.ts) *)

Module IR.

(** Opaque JSON values (design tokens, font descriptors, interaction states). *)
Definition Json : Type := string.

Inductive NodeType : Type := TEXT | IMAGE | FRAME | SVG | CANVAS | VIDEO.

#[global] Instance NodeType_eq_dec : EqDecision NodeType.
Proof. solve_decision. Defined.

Record IRImage : Type := mkIRImage {
  url : string;
  data : option string;
  naturalWidth : option Z;
  naturalHeight : option Z;
  needsProxy : bool;
  sourceType : option string;
  format : option string
}.

Record ImageSource : Type := mkImageSource {
  originalUrl : string;
  resolvedUrl : string;
  src_sourceType : string;
  src_naturalWidth : option Z;
  src_naturalHeight : option Z;
  src_format : option string
}.

Record ImageChunkReference : Type := mkImageChunkReference {
  totalSize : Z;
  totalChunks : Z;
  chunkSize : Z;
  isStreamed : bool
}.

Record ImageProcessingMetadata : Type := mkImageProcessingMetadata {
  originalFormat : string;
  convertedFormat : option string;
  wasConverted : bool;
  processingError : option string
}.

(** The fields of [IRNode] that the transport reads or writes. Geometry,
    styles, text and children are carried along untouched by every function
    below and are left out. [_imageBuffer] is the untyped property that the
    controller hangs on a node between processing and chunk streaming. *)
Record IRNode : Type := mkIRNode {
  id : string;
  type : NodeType;
  image : option IRImage;
  imageSource : option ImageSource;
  imageData : option (list Z);
  imageChunkRef : option ImageChunkReference;
  imageProcessing : option ImageProcessingMetadata;
  screenshot : option string;
  states : option Json;
  _imageBuffer : option Bytes
}.

(** The wire messages, a closed union keyed by [type]. *)
Inductive Message : Type :=
  | TOKENS (payload : Json) (sequenceNumber : Z)
  | FONTS (payload : list Json) (sequenceNumber : Z)
  | NODES (nodes : list IRNode) (sequenceNumber : Z)
  | PROGRESS (stage : string) (current total : Z) (sequenceNumber : Z)
  | ERROR (message : string) (sequenceNumber : Z)
  | IMAGE_CHUNK (nodeId : string) (chunkIndex totalChunks : Z)
      (data : list Z) (sequenceNumber timestamp : Z)
  | COMPLETE (totalNodes totalImages inlineImages streamedImages : Z)
      (sequenceNumber : Z).

Definition sequenceNumber (m : Message) : Z :=
  match m with
  | TOKENS _ n | FONTS _ n | NODES _ n | PROGRESS _ _ _ n | ERROR _ n
  | IMAGE_CHUNK _ _ _ _ n _ | COMPLETE _ _ _ _ n => n
  end.

(** The kinds of messages that the statements tell apart. *)
Definition isProcessingProgress (m : Message) : Prop :=
  match m with
  | PROGRESS stage _ _ _ => stage = "processing_images"
  | _ => False
  end.

Definition isStreamingProgress (m : Message) : Prop :=
  match m with
  | PROGRESS stage _ _ _ => stage = "streaming_images"
  | _ => False
  end.

Definition isTokens (m : Message) : Prop :=
  match m with TOKENS _ _ => True | _ => False end.

Definition isFonts (m : Message) : Prop :=
  match m with FONTS _ _ => True | _ => False end.

Definition isNodes (m : Message) : Prop :=
  match m with NODES _ _ => True | _ => False end.

Definition isImageChunk (m : Message) : Prop :=
  match m with IMAGE_CHUNK _ _ _ _ _ _ => True | _ => False end.

Definition isCompleteMessage (m : Message) : Prop :=
  match m with COMPLETE _ _ _ _ _ => True | _ => False end.

(** The nodes that a message carries. *)
Definition nodesOf (m : Message) : list IRNode :=
  match m with NODES nodes _ => nodes | _ => [] end.

(** The item that a chunk message belongs to. *)
Definition chunkNodeId (m : Message) : option string :=
  match m with IMAGE_CHUNK nodeId _ _ _ _ _ => Some nodeId | _ => None end.

(** [node.imageChunkRef?.isStreamed], as a truth value. *)
Definition isStreamedNode (node : IRNode) : bool :=
  match imageChunkRef node with
  | Some ref => isStreamed ref
  | None => false
  end.

(** A string is truthy when it is not empty. *)
Definition truthy (s : string) : bool := negb (bool_decide (s = "")).

End IR.

(** ** Configuration (config.ts) *)

Module Config.

Record CONFIG : Type := mkCONFIG {
  IMAGE_SIZE_THRESHOLD : Z;
  IMAGE_CHUNK_SIZE : Z;
  IMAGE_TIMEOUT_MS : Z;
  IMAGE_ASSEMBLY_TIMEOUT_MS : Z;
  MAX_CONCURRENT_IMAGES : Z
}.

(** The values used when the environment overrides nothing. *)
Definition defaults : CONFIG :=
  {| IMAGE_SIZE_THRESHOLD := 102400;
     IMAGE_CHUNK_SIZE := 65536;
     IMAGE_TIMEOUT_MS := 15000;
     IMAGE_ASSEMBLY_TIMEOUT_MS := 30000;
     MAX_CONCURRENT_IMAGES := 5 |}.

End Config.

(** ** The payload normalizer (image-processor.ts) *)

Module ImageProcessor.
Import IR Config.

Record ProcessingResult : Type := mkProcessingResult {
  success : bool;
  buffer : option Bytes;
  res_originalFormat : option string;
  res_convertedFormat : option string;
  error : option string
}.

Record ProcessingStats : Type := mkProcessingStats {
  totalImages : Z;
  inlineImages : Z;
  streamedImages : Z;
  failedImages : Z;
  totalBytesProcessed : Z
}.

Definition initialStats : ProcessingStats :=
  {| totalImages := 0; inlineImages := 0; streamedImages := 0;
     failedImages := 0; totalBytesProcessed := 0 |}.

(** [x || 'unknown'] on an optional string. *)
Definition orUnknown (x : option string) : string :=
  match x with
  | Some s => if truthy s then s else "unknown"
  | None => "unknown"
  end.

(** [node.imageSource?.resolvedUrl], as a truth value. *)
Definition hasResolvedUrl (node : IRNode) : bool :=
  match imageSource node with
  | Some source => truthy (resolvedUrl source)
  | None => false
  end.

(** The counters account for every counted image exactly once. *)
Definition accounted (stats : ProcessingStats) : Prop :=
  inlineImages stats + streamedImages stats + failedImages stats
  = totalImages stats.

(** What one counted call does to the counters, by the object it returns. *)
Inductive Counted (stats stats' : ProcessingStats)
    : option (Bytes * bool) → Prop :=
  | CountedInline buf :
      totalImages stats' = totalImages stats + 1 →
      inlineImages stats' = inlineImages stats + 1 →
      streamedImages stats' = streamedImages stats →
      failedImages stats' = failedImages stats →
      Counted stats stats' (Some (buf, false))
  | CountedStreamed buf :
      totalImages stats' = totalImages stats + 1 →
      inlineImages stats' = inlineImages stats →
      streamedImages stats' = streamedImages stats + 1 →
      failedImages stats' = failedImages stats →
      Counted stats stats' (Some (buf, true))
  | CountedFailed :
      totalImages stats' = totalImages stats + 1 →
      inlineImages stats' = inlineImages stats →
      streamedImages stats' = streamedImages stats →
      failedImages stats' = failedImages stats + 1 →
      Counted stats stats' None.


Section Processor.

(** The network and the transcoder are outside the program: [World] is their
    state, and [fetchAndConvert] is the private method of that name, which
    catches every failure and reports it in its result. *)
Context {World : Type}.
Context (cfg : CONFIG).
Context (fetchAndConvert : string → World → ProcessingResult * World).

Definition setProcessing (node : IRNode) (meta : ImageProcessingMetadata)
    : IRNode :=
  {| id := id node; type := type node; image := image node;
     imageSource := imageSource node; imageData := imageData node;
     imageChunkRef := imageChunkRef node; imageProcessing := Some meta;
     screenshot := screenshot node; states := states node;
     _imageBuffer := _imageBuffer node |}.

(** [processImageForNode]: the returned pair is the [{buffer, shouldStream}]
    object ([None] for [null]); the node comes back with its
    [imageProcessing] written. *)
Definition processImageForNode (node : IRNode) (stats : ProcessingStats)
    (w : World)
    : option (Bytes * bool) * IRNode * ProcessingStats * World :=
  match imageSource node with
  | None => (None, node, stats, w)
  | Some source =>
      if negb (truthy (resolvedUrl source)) then (None, node, stats, w)
      else
        let stats1 :=
          {| totalImages := totalImages stats + 1;
             inlineImages := inlineImages stats;
             streamedImages := streamedImages stats;
             failedImages := failedImages stats;
             totalBytesProcessed := totalBytesProcessed stats |} in
        let '(result, w1) := fetchAndConvert (resolvedUrl source) w in
        match success result, buffer result with
        | true, Some buf =>
            let original := orUnknown (res_originalFormat result) in
            let node1 :=
              setProcessing node
                {| originalFormat := original;
                   convertedFormat := res_convertedFormat result;
                   wasConverted :=
                     negb (bool_decide
                             (Some original = res_convertedFormat result));
                   processingError := None |} in
            let bytes := totalBytesProcessed stats1 + Z.of_nat (length buf) in
            let shouldStream :=
              bool_decide (IMAGE_SIZE_THRESHOLD cfg ≤ Z.of_nat (length buf)) in
            let stats2 :=
              if shouldStream then
                {| totalImages := totalImages stats1;
                   inlineImages := inlineImages stats1;
                   streamedImages := streamedImages stats1 + 1;
                   failedImages := failedImages stats1;
                   totalBytesProcessed := bytes |}
              else
                {| totalImages := totalImages stats1;
                   inlineImages := inlineImages stats1 + 1;
                   streamedImages := streamedImages stats1;
                   failedImages := failedImages stats1;
                   totalBytesProcessed := bytes |} in
            (Some (buf, shouldStream), node1, stats2, w1)
        | _, _ =>
            let stats2 :=
              {| totalImages := totalImages stats1;
                 inlineImages := inlineImages stats1;
                 streamedImages := streamedImages stats1;
                 failedImages := failedImages stats1 + 1;
                 totalBytesProcessed := totalBytesProcessed stats1 |} in
            let node1 :=
              setProcessing node
                {| originalFormat := orUnknown (res_originalFormat result);
                   convertedFormat := None;
                   wasConverted := false;
                   processingError := error result |} in
            (None, node1, stats2, w1)
        end
  end.

(** A run of calls, one node after the other, on the same processor. *)
Definition processMany (nodes : list IRNode) (stats : ProcessingStats)
    (w : World) : ProcessingStats * World :=
  foldl (λ acc node,
           let '(_, _, stats', w') := processImageForNode node acc.1 acc.2 in
           (stats', w'))
        (stats, w) nodes.

End Processor.

End ImageProcessor.

(** ** The stream controller (stream-controller.ts) *)

Module StreamController.
Import IR Config ImageProcessor.

Record StreamPayload : Type := mkStreamPayload {
  nodes : list IRNode;
  fonts : list Json;
  tokens : option Json
}.

(** The fields of a controller, the messages that reached the socket ([ws],
    oldest first) and the state of the outside world. *)
Record State (World : Type) : Type := mkState {
  sequenceNumber : Z;
  imageProcessor : ProcessingStats;
  totalNodes : Z;
  ws : list Message;
  world : World
}.
Arguments mkState {World}.
Arguments sequenceNumber {World}.
Arguments imageProcessor {World}.
Arguments totalNodes {World}.
Arguments ws {World}.
Arguments world {World}.

Definition BATCH_SIZE : nat := 50.

(** [for (let i = 0; i < n; i += step) body(i)]. With [step >= 1] the loop
    ends within [n] rounds, which is the fuel its callers give it. *)
Fixpoint for_step {S : Type} (fuel : nat) (i n step : nat)
    (body : nat → S → S) (s : S) : S :=
  match fuel with
  | O => s
  | Datatypes.S fuel' =>
      if decide (i < n)%nat
      then for_step fuel' (i + step)%nat n step body (body i s)
      else s
  end.

(** The positions of the elements of an array that pass a [filter]: the
    filtered array holds references to the same objects, so a write through
    it is a write at that position of the original array. *)
Definition positions {A : Type} (keep : A → bool) (l : list A) : list nat :=
  filter (λ p, from_option keep false (l !! p) = true) (seq 0 (length l)).

(** [Math.ceil(a / b)] on integers with [b > 0]. *)
Definition ceil_div (a b : Z) : Z := (a + b - 1) / b.

Section Controller.

Context {World : Type}.
Context (cfg : CONFIG).
Context (fetchAndConvert : string → World → ProcessingResult * World).
(** [wsOpen n]: whether the socket is OPEN when the message numbered [n] is
    handed to [send]. [Date_now n]: the clock when that message is built. *)
Context (wsOpen : Z → bool).
Context (Date_now : Z → Z).

Abbreviation St := (State World).

Definition send (message : Message) (st : St) : St :=
  if wsOpen (IR.sequenceNumber message)
  then mkState (sequenceNumber st) (imageProcessor st) (totalNodes st)
               (ws st ++ [message]) (world st)
  else st.

(** Builds a message with [this.sequenceNumber++] and sends it. *)
Definition sendNumbered (build : Z → Message) (st : St) : St :=
  let n := sequenceNumber st in
  send (build n)
       (mkState (n + 1) (imageProcessor st) (totalNodes st) (ws st) (world st)).

Definition sendProgress (stage : string) (current total : Z) (st : St) : St :=
  sendNumbered (PROGRESS stage current total) st.

Definition sendError (error : string) (st : St) : St :=
  sendNumbered (ERROR error) st.

Definition sendComplete (st : St) : St :=
  let stats := imageProcessor st in
  sendNumbered
    (COMPLETE (totalNodes st) (totalImages stats) (inlineImages stats)
              (streamedImages stats))
    st.

Definition attachImageSource (node : IRNode) : IRNode :=
  if negb (bool_decide (type node = IMAGE)) then node
  else
    match image node with
    | None => node
    | Some img =>
        if negb (truthy (url img)) then node
        else
          {| id := id node; type := type node; image := image node;
             imageSource :=
               Some {| originalUrl := url img;
                       resolvedUrl := url img;
                       src_sourceType :=
                         match sourceType img with
                         | Some s => if truthy s then s else "img"
                         | None => "img"
                         end;
                       src_naturalWidth := naturalWidth img;
                       src_naturalHeight := naturalHeight img;
                       src_format := format img |};
             imageData := imageData node;
             imageChunkRef := imageChunkRef node;
             imageProcessing := imageProcessing node;
             screenshot := screenshot node; states := states node;
             _imageBuffer := _imageBuffer node |}
    end.

Definition attachImageSources (nodes : list IRNode) : list IRNode :=
  map attachImageSource nodes.

(** [delete node.image.data] when [node.image] is there. *)
Definition deleteImageData (img : option IRImage) : option IRImage :=
  match img with
  | Some i =>
      Some {| url := url i; data := None; naturalWidth := naturalWidth i;
              naturalHeight := naturalHeight i; needsProxy := needsProxy i;
              sourceType := sourceType i; format := format i |}
  | None => None
  end.

(** What the callback of [processAllImages] writes on a node once the
    processor has returned [{buffer, shouldStream}]. *)
Definition attachResult (node : IRNode) (buf : Bytes) (shouldStream : bool)
    : IRNode :=
  if shouldStream then
    {| id := id node; type := type node; image := deleteImageData (image node);
       imageSource := imageSource node; imageData := imageData node;
       imageChunkRef :=
         Some {| totalSize := Z.of_nat (length buf);
                 totalChunks :=
                   ceil_div (Z.of_nat (length buf)) (IMAGE_CHUNK_SIZE cfg);
                 chunkSize := IMAGE_CHUNK_SIZE cfg;
                 isStreamed := true |};
       imageProcessing := imageProcessing node;
       screenshot := screenshot node; states := states node;
       _imageBuffer := Some buf |}
  else
    {| id := id node; type := type node; image := deleteImageData (image node);
       imageSource := imageSource node;
       imageData := Some (Array_from buf);
       imageChunkRef := imageChunkRef node;
       imageProcessing := imageProcessing node;
       screenshot := screenshot node; states := states node;
       _imageBuffer := _imageBuffer node |}.

(** One callback of the [batch.map]: the node at position [p] of the array is
    processed and updated in place. *)
Definition processNodeAt (acc : list IRNode * St) (p : nat)
    : list IRNode * St :=
  let '(nodes, st) := acc in
  match nodes !! p with
  | None => acc
  | Some node =>
      let '(result, node1, stats', w') :=
        processImageForNode cfg fetchAndConvert node
          (imageProcessor st) (world st) in
      let st' := mkState (sequenceNumber st) stats' (totalNodes st) (ws st) w' in
      match result with
      | None => (<[p := node1]> nodes, st')
      | Some (buf, shouldStream) =>
          (<[p := attachResult node1 buf shouldStream]> nodes, st')
      end
  end.

Definition isImageWithSource (node : IRNode) : bool :=
  bool_decide (type node = IMAGE) && bool_decide (is_Some (imageSource node)).

(** [processAllImages]. The callbacks of one wave are run one after the other,
    in the order of the wave. *)
Definition processAllImages (nodes : list IRNode) (st : St)
    : list IRNode * St :=
  let imageNodes := positions isImageWithSource nodes in
  if decide (length imageNodes = 0%nat) then (nodes, st)
  else
    let concurrency := Z.to_nat (Z.max 1 (MAX_CONCURRENT_IMAGES cfg)) in
    for_step (length imageNodes) 0 (length imageNodes) concurrency
      (λ i acc,
         let batch := take concurrency (drop i imageNodes) in
         let '(nodes', st') := foldl processNodeAt acc batch in
         let processed := Nat.min (i + concurrency) (length imageNodes) in
         (nodes',
          sendProgress "processing_images" (Z.of_nat processed)
            (Z.of_nat (length imageNodes)) st'))
      (nodes, st).

(** [JSON.parse(JSON.stringify(node))]: every modelled field survives. *)
Definition cloneForTransport (node : IRNode) : IRNode := node.

Definition streamNodes (nodes : list IRNode) (st : St) : St :=
  for_step (length nodes) 0 (length nodes) BATCH_SIZE
    (λ i st,
       let batch := map cloneForTransport (take BATCH_SIZE (drop i nodes)) in
       sendNumbered (NODES batch) st)
    st.

(** The body of the inner loop of [streamImageChunks]. *)
Definition chunkMessage (node : IRNode) (buf : Bytes) (total : Z)
    (chunkIndex : Z) (n : Z) : Message :=
  let start := chunkIndex * IMAGE_CHUNK_SIZE cfg in
  let stop := Z.min (start + IMAGE_CHUNK_SIZE cfg) (Z.of_nat (length buf)) in
  let chunkBuffer := Buffer_slice buf start stop in
  IMAGE_CHUNK (id node) chunkIndex total (Array_from chunkBuffer)
              n (Date_now n).

Definition sendChunk (node : IRNode) (buf : Bytes) (total : Z)
    (st : St) (chunkIndex : Z) : St :=
  sendNumbered (chunkMessage node buf total chunkIndex) st.

Definition deleteImageBuffer (node : IRNode) : IRNode :=
  {| id := id node; type := type node; image := image node;
     imageSource := imageSource node; imageData := imageData node;
     imageChunkRef := imageChunkRef node;
     imageProcessing := imageProcessing node;
     screenshot := screenshot node; states := states node;
     _imageBuffer := None |}.

(** One round of the outer loop of [streamImageChunks], for the [j]-th
    streamed node, which sits at position [p] of the array. *)
Definition streamNodeAt (streamed : nat) (acc : list IRNode * St)
    (jp : nat * nat) : list IRNode * St :=
  let '(nodes, st) := acc in
  let '(j, p) := jp in
  match nodes !! p with
  | None => acc
  | Some node =>
      match _imageBuffer node with
      | None => acc
      | Some buf =>
          let total :=
            match imageChunkRef node with
            | Some ref => totalChunks ref
            | None => 0
            end in
          let st1 := foldl (sendChunk node buf total) st (seqZ 0 total) in
          (<[p := deleteImageBuffer node]> nodes,
           sendProgress "streaming_images" (Z.of_nat j + 1)
             (Z.of_nat streamed) st1)
      end
  end.

Definition streamImageChunks (nodes : list IRNode) (st : St)
    : list IRNode * St :=
  let streamedNodes := positions isStreamedNode nodes in
  if decide (length streamedNodes = 0%nat) then (nodes, st)
  else
    foldl (streamNodeAt (length streamedNodes)) (nodes, st)
          (zip (seq 0 (length streamedNodes)) streamedNodes).

(** [streamExtractedPage]. None of the steps modelled here throws, so the
    [catch] branch, which calls [sendError], is not taken. *)
Definition streamExtractedPage (payload : StreamPayload) (st : St)
    : list IRNode * St :=
  let st0 := mkState (sequenceNumber st) (imageProcessor st)
                     (Z.of_nat (length (nodes payload))) (ws st) (world st) in
  let nodes1 := attachImageSources (nodes payload) in
  let '(nodes2, st1) := processAllImages nodes1 st0 in
  let st2 :=
    match tokens payload with
    | Some t => sendNumbered (TOKENS t) st1
    | None => st1
    end in
  let st3 :=
    if decide (0 < length (fonts payload))%nat
    then sendNumbered (FONTS (fonts payload)) st2
    else st2 in
  let st4 := streamNodes nodes2 st3 in
  let '(nodes3, st5) := streamImageChunks nodes2 st4 in
  (nodes3, sendComplete st5).

(** A fresh controller: [new StreamController(ws)]. *)
Definition init (w : World) : St := mkState 0 initialStats 0 [] w.

(** *** Vocabulary of the statements on the controller *)

(** A node as the extraction hands it over: nothing of the transport is on
    it yet. *)
Definition raw (node : IRNode) : Prop :=
  imageChunkRef node = None ∧ _imageBuffer node = None.

(** A node as [processAllImages] leaves it: raw, or chunked, with its payload
    in [_imageBuffer] and the descriptor of that payload in [imageChunkRef]. *)
Definition wellFormed (node : IRNode) : Prop :=
  match imageChunkRef node, _imageBuffer node with
  | None, None => True
  | Some ref, Some buf =>
      ref = {| totalSize := Z.of_nat (length buf);
               totalChunks :=
                 ceil_div (Z.of_nat (length buf)) (IMAGE_CHUNK_SIZE cfg);
               chunkSize := IMAGE_CHUNK_SIZE cfg;
               isStreamed := true |}
  | _, _ => False
  end.

(** The node that the callback of [processAllImages] leaves behind when it
    runs on [node] with the counters at [stats] and the world at [w]. *)
Definition processedNode (node : IRNode) (stats : ProcessingStats) (w : World)
    : IRNode :=
  let '(result, node1, _, _) :=
    processImageForNode cfg fetchAndConvert node stats w in
  match result with
  | None => node1
  | Some (buf, shouldStream) => attachResult node1 buf shouldStream
  end.



(** Two controller states that differ at most in what was sent. *)
Definition sameCore (st1 st2 : St) : Prop :=
  imageProcessor st1 = imageProcessor st2
  ∧ totalNodes st1 = totalNodes st2
  ∧ world st1 = world st2.

(** The chunk stream in the words of the specification: for every chunked
    item in turn, its payload cut in slices of the chunk size, one IMAGE_CHUNK
    per slice in ascending index order, then one PROGRESS of the stage
    [streaming_images]. [j] counts the items done, [n] is the next sequence
    number. *)
Definition specChunk (node : IRNode) (buf : Bytes) (n : Z) (i : Z) : Message :=
  let size := Z.to_nat (IMAGE_CHUNK_SIZE cfg) in
  IMAGE_CHUNK (id node) i
    (ceil_div (Z.of_nat (length buf)) (IMAGE_CHUNK_SIZE cfg))
    (Array_from (take size (drop (Z.to_nat i * size) buf)))
    (n + i) (Date_now (n + i)).

Fixpoint specChunkStream (items : list IRNode) (j streamed : nat) (n : Z)
    : list Message :=
  match items with
  | [] => []
  | node :: rest =>
      match _imageBuffer node with
      | None => specChunkStream rest (S j) streamed n
      | Some buf =>
          let count :=
            ceil_div (Z.of_nat (length buf)) (IMAGE_CHUNK_SIZE cfg) in
          map (specChunk node buf n) (seqZ 0 count)
          ++ PROGRESS "streaming_images" (Z.of_nat j + 1) (Z.of_nat streamed)
               (n + count)
             :: specChunkStream rest (S j) streamed (n + count + 1)
      end
  end.

End Controller.

End StreamController.

(** ** The stream consumer (plugin code.ts) *)

Module Consumer.
Import IR.

Definition STREAM_ASSEMBLY_TIMEOUT_MS : Z := 10000.

(** How an item delivered in a NODES envelope ended: a node was created for
    it by [createEnhancedNode], a placeholder was created in its place, or
    [createEnhancedNode] caught a failure and returned [null]. *)
Inductive Fate : Type := Materialized | Placeholder | Skipped.

#[global] Instance Fate_eq_dec : EqDecision Fate.
Proof. solve_decision. Defined.

(** Messages posted to the plugin UI with [figma.ui.postMessage]. *)
Inductive UiMessage : Type :=
  | PROGRESS_UPDATE (stage : string) (current total : Z)
  | NODES_PROCESSED (nodesProcessed : Z)
  | IMAGE_ASSEMBLED (nodeId : string) (nodesProcessed : Z).

(** What [handleImageChunk] passes to the assembler for a chunk message that
    is dispatched when the clock reads [now]. *)
Definition addChunkMessage (now : Z)
    (b : gmap string ImageAssembler.ChunkBuffer) (m : Message)
    : gmap string ImageAssembler.ChunkBuffer :=
  match m with
  | IMAGE_CHUNK nodeId chunkIndex totalChunks data _ _ =>
      ImageAssembler.addChunk now nodeId chunkIndex data totalChunks b
  | _ => b
  end.

(** The renderer is outside the program: [Figma] is the state of the
    document, [SceneNode] a handle on an object of it.
    code.ts calls [createPlaceholderForFailedImage] and neither defines nor
    imports it: here it is a function that a build supplies, like the Figma
    API. [EventLoop] below has the source as it stands, where the call
    throws. *)
Class Renderer (SceneNode Figma : Type) : Type := mkRenderer {
  createEnhancedNode :
    IRNode → gmap string string → gmap string Json → gmap string SceneNode →
    Figma → option SceneNode * Figma;
  createPlaceholderForFailedImage : IRNode → Figma → SceneNode * Figma;
  appendChild : SceneNode → Figma → Figma;
  createFigmaVariables : Json → Figma → Figma;
  processFonts : list Json → Figma → Figma
}.

(** What happens while the finalisation sleeps for the [k]-th time and right
    after: the chunks that are dispatched meanwhile, each with the clock at
    its arrival, the clock read by the sweep, and the clock read by the next
    test of the loop condition. *)
Record Tick : Type := mkTick {
  arrivals : list (Z * Message);
  sweepNow : Z;
  checkNow : Z
}.

Section Consumer.

Context {SceneNode Figma : Type} `{!Renderer SceneNode Figma}.

(** The module-level variables of the plugin that the stream handlers use.
    [history] is not in the program: it records, for the proofs, the fate of
    every item at the moment the program settles it. *)
Record State : Type := mkState {
  pendingImageNodes : gmap string IRNode;
  streamScreenshots : gmap string string;
  streamStates : gmap string Json;
  streamCreatedNodes : gmap string SceneNode;
  totalStreamNodesProcessed : Z;
  imageAssembler : gmap string ImageAssembler.ChunkBuffer;
  figma : Figma;
  ui : list UiMessage;
  history : list (string * Fate)
}.

Definition init (f : Figma) : State :=
  mkState ∅ ∅ ∅ ∅ 0 ImageAssembler.empty f [] [].

Definition resetStreamState (st : State) : State :=
  mkState ∅ ∅ ∅ ∅ 0 (imageAssembler st) (figma st) (ui st) [].

Definition postMessage (m : UiMessage) (st : State) : State :=
  mkState (pendingImageNodes st) (streamScreenshots st) (streamStates st)
          (streamCreatedNodes st) (totalStreamNodesProcessed st)
          (imageAssembler st) (figma st) (ui st ++ [m]) (history st).

(** The call of [createEnhancedNode] on the current page and what both
    callers do with its result. *)
Definition materialize (key : string) (node : IRNode) (st : State) : State :=
  let '(figmaNode, f) :=
    createEnhancedNode node (streamScreenshots st) (streamStates st)
      (streamCreatedNodes st) (figma st) in
  match figmaNode with
  | Some fn =>
      mkState (pendingImageNodes st) (streamScreenshots st) (streamStates st)
              (<[id node := fn]> (streamCreatedNodes st))
              (totalStreamNodesProcessed st + 1)
              (imageAssembler st) f (ui st)
              (history st ++ [(key, Materialized)])
  | None =>
      mkState (pendingImageNodes st) (streamScreenshots st) (streamStates st)
              (streamCreatedNodes st) (totalStreamNodesProcessed st)
              (imageAssembler st) f (ui st)
              (history st ++ [(key, Skipped)])
  end.

(** The body of the loop of [handleStreamNodeBatch]. *)
Definition handleNode (st : State) (node : IRNode) : State :=
  let screenshots :=
    match screenshot node with
    | Some s => if truthy s then <[id node := s]> (streamScreenshots st)
                else streamScreenshots st
    | None => streamScreenshots st
    end in
  let states' :=
    match states node with
    | Some s => <[id node := s]> (streamStates st)
    | None => streamStates st
    end in
  let st1 :=
    mkState (pendingImageNodes st) screenshots states'
            (streamCreatedNodes st) (totalStreamNodesProcessed st)
            (imageAssembler st) (figma st) (ui st) (history st) in
  if isStreamedNode node then
    mkState (<[id node := node]> (pendingImageNodes st1))
            (streamScreenshots st1) (streamStates st1)
            (streamCreatedNodes st1) (totalStreamNodesProcessed st1)
            (imageAssembler st1) (figma st1) (ui st1) (history st1)
  else materialize (id node) node st1.

Definition handleStreamNodeBatch (nodes : list IRNode) (st : State) : State :=
  let st1 := foldl handleNode st nodes in
  postMessage (NODES_PROCESSED (totalStreamNodesProcessed st1)) st1.

Definition setAssembler (b : gmap string ImageAssembler.ChunkBuffer)
    (st : State) : State :=
  mkState (pendingImageNodes st) (streamScreenshots st) (streamStates st)
          (streamCreatedNodes st) (totalStreamNodesProcessed st)
          b (figma st) (ui st) (history st).

Definition deletePending (nodeId : string) (st : State) : State :=
  mkState (delete nodeId (pendingImageNodes st)) (streamScreenshots st)
          (streamStates st) (streamCreatedNodes st)
          (totalStreamNodesProcessed st) (imageAssembler st) (figma st)
          (ui st) (history st).

(** [createPendingImageNode]. An exception in [assemble] would reject the
    promise, which nobody awaits: the state stays as it is. *)
Definition createPendingImageNode (nodeId : string) (st : State) : State :=
  match pendingImageNodes st !! nodeId with
  | None => st
  | Some node =>
      match ImageAssembler.assemble nodeId (imageAssembler st) with
      | (Return (Some assembled), b) =>
          let node' :=
            {| id := id node; type := type node; image := image node;
               imageSource := imageSource node;
               imageData := Some (Array_from assembled);
               imageChunkRef := None;
               imageProcessing := imageProcessing node;
               screenshot := screenshot node; states := states node;
               _imageBuffer := _imageBuffer node |} in
          let st1 := materialize nodeId node' (setAssembler b st) in
          let st2 := deletePending nodeId st1 in
          postMessage
            (IMAGE_ASSEMBLED nodeId (totalStreamNodesProcessed st2)) st2
      | (Return None, b) => setAssembler b st
      | (Throw _, _) => st
      end
  end.

(** [handleImageChunk]; [now] is the clock when the chunk is dispatched. *)
Definition handleImageChunk (now : Z) (nodeId : string)
    (chunkIndex totalChunks : Z) (data : list Z) (st : State) : State :=
  let st1 :=
    setAssembler
      (ImageAssembler.addChunk now nodeId chunkIndex data totalChunks
         (imageAssembler st)) st in
  if ImageAssembler.isComplete nodeId (imageAssembler st1)
  then createPendingImageNode nodeId st1
  else st1.

(** The body shared by the two placeholder loops of [handleStreamComplete]. *)
Definition placeholderFor (st : State) (nodeId : string) : State :=
  match pendingImageNodes st !! nodeId with
  | None => st
  | Some node =>
      let '(placeholder, f) :=
        createPlaceholderForFailedImage node (figma st) in
      mkState (delete nodeId (pendingImageNodes st))
              (streamScreenshots st) (streamStates st)
              (<[nodeId := placeholder]> (streamCreatedNodes st))
              (totalStreamNodesProcessed st + 1)
              (imageAssembler st) (appendChild placeholder f) (ui st)
              (history st ++ [(nodeId, Placeholder)])
  end.

(** A chunk dispatched while the finalisation sleeps; other messages are not
    expected there and are left alone. *)
Definition deliver (st : State) (arrival : Z * Message) : State :=
  match arrival.2 with
  | IMAGE_CHUNK nodeId chunkIndex totalChunks data _ _ =>
      handleImageChunk arrival.1 nodeId chunkIndex totalChunks data st
  | _ => st
  end.

(** The [while] loop of [handleStreamComplete], from its [k]-th test of the
    condition on; [None] when the fuel does not reach the end of the loop. *)
Fixpoint poll (tick : nat → Tick) (fuel : nat) (k : nat) (startTime : Z)
    (st : State) : option State :=
  if bool_decide (0 < size (pendingImageNodes st))%nat
     && bool_decide (checkNow (tick k) - startTime < STREAM_ASSEMBLY_TIMEOUT_MS)
  then
    match fuel with
    | O => None
    | S fuel' =>
        let st1 := foldl deliver st (arrivals (tick (S k))) in
        let '(timedOut, b) :=
          ImageAssembler.cleanupTimedOut (sweepNow (tick (S k)))
            (imageAssembler st1) in
        let st2 := foldl placeholderFor (setAssembler b st1) timedOut in
        poll tick fuel' (S k) startTime st2
    end
  else Some st.

(** [handleStreamComplete]; [startTime] is the clock on entry. *)
Definition handleStreamComplete (tick : nat → Tick) (fuel : nat)
    (startTime : Z) (st : State) : option State :=
  match poll tick fuel 0 startTime st with
  | None => None
  | Some st1 =>
      if bool_decide (0 < size (pendingImageNodes st1))%nat then
        let stuck := (map_to_list (pendingImageNodes st1)).*1 in
        Some (foldl placeholderFor st1 stuck)
      else Some st1
  end.

Definition setFigma (f : Figma) (st : State) : State :=
  mkState (pendingImageNodes st) (streamScreenshots st) (streamStates st)
          (streamCreatedNodes st) (totalStreamNodesProcessed st)
          (imageAssembler st) f (ui st) (history st).

(** [figma.ui.onmessage] on the stream messages: IMAGE_CHUNK goes to
    [handleImageChunk], the others through [handleStreamEnvelope]. [now] is
    the clock when the message is dispatched. A handler runs to its end
    before the next message is dispatched: the awaits inside
    [createEnhancedNode] are no points of interleaving here, the sleep of the
    finalisation is the only one; this is one schedule of the event loop,
    and [EventLoop] below has the others. The legacy message types of the
    same handler are left out. *)
Definition onmessage (tick : nat → Tick) (fuel : nat) (now : Z)
    (msg : Message) (st : State) : option State :=
  match msg with
  | IMAGE_CHUNK nodeId chunkIndex totalChunks data _ _ =>
      Some (handleImageChunk now nodeId chunkIndex totalChunks data st)
  | TOKENS payload _ =>
      let st1 := resetStreamState st in
      Some (setFigma (createFigmaVariables payload (figma st1)) st1)
  | FONTS payload _ => Some (setFigma (processFonts payload (figma st)) st)
  | NODES nodes _ => Some (handleStreamNodeBatch nodes st)
  | PROGRESS stage current total _ =>
      Some (postMessage (PROGRESS_UPDATE stage current total) st)
  | ERROR _ _ => Some st
  | COMPLETE _ _ _ _ _ => handleStreamComplete tick fuel now st
  end.

(** The messages of a session, dispatched in their order of arrival. *)
Fixpoint run (tick : nat → Tick) (fuel : nat) (msgs : list (Z * Message))
    (st : State) : option State :=
  match msgs with
  | [] => Some st
  | (now, msg) :: rest =>
      match onmessage tick fuel now msg st with
      | None => None
      | Some st' => run tick fuel rest st'
      end
  end.

(** The ids of the items that a list of messages delivers in NODES. *)
Definition delivered (msgs : list (Z * Message)) : list string :=
  flat_map (λ tm, match tm.2 with
                  | NODES nodes _ => map id nodes
                  | _ => []
                  end) msgs.

(** *** Vocabulary of the statements on the consumer *)

(** From [st] to [st'] some pending items were settled, each one once, and
    nothing else happened to the pending table and to the history. *)
Definition evolves (st st' : State) : Prop :=
  ∃ moved : list (string * Fate),
    history st' = history st ++ moved
    ∧ (∀ i, pendingImageNodes st' !! i
            = if decide (i ∈ moved.*1) then None
              else pendingImageNodes st !! i)
    ∧ NoDup moved.*1
    ∧ (∀ i, i ∈ moved.*1 → is_Some (pendingImageNodes st !! i)).

(** The items [ids] delivered so far are all pending or settled, and when no
    id was delivered twice each of them is pending or settled once. *)
Definition tracks (ids : list string) (st : State) : Prop :=
  (∀ i, i ∈ ids
        ↔ is_Some (pendingImageNodes st !! i) ∨ i ∈ (history st).*1)
  ∧ (NoDup ids →
     NoDup (history st).*1
     ∧ ∀ i, is_Some (pendingImageNodes st !! i) → i ∉ (history st).*1).

(** The messages of a session before COMPLETE. *)
Definition beforeComplete (tm : Z * Message) : Prop :=
  ¬ isTokens tm.2 ∧ ¬ isCompleteMessage tm.2.


End Consumer.

(** The stream messages with the clock at their dispatch. *)
Definition timed (arrival : Z → Z) (msgs : list Message)
    : list (Z * Message) :=
  map (λ m, (arrival (IR.sequenceNumber m), m)) msgs.

End Consumer.

(** ** A small session to run the model on *)

Module Example.
Import IR Config ImageProcessor.

(** A threshold of 4 bytes and chunks of 2 bytes, two fetches at a time. *)
Definition config : CONFIG :=
  {| IMAGE_SIZE_THRESHOLD := 4; IMAGE_CHUNK_SIZE := 2;
     IMAGE_TIMEOUT_MS := 15000; IMAGE_ASSEMBLY_TIMEOUT_MS := 30000;
     MAX_CONCURRENT_IMAGES := 2 |}.

(** A network on which the URL [bad] cannot be fetched and every other URL
    yields as many bytes as it has characters. *)
Definition fetch (u : string) (w : unit) : ProcessingResult * unit :=
  if bool_decide (u = "bad")
  then ({| success := false; buffer := None; res_originalFormat := None;
           res_convertedFormat := None; error := Some "HTTP 404: Not Found" |},
        w)
  else ({| success := true;
           buffer := Some (replicate (String.length u) Byte.x07);
           res_originalFormat := Some "png";
           res_convertedFormat := Some "png"; error := None |}, w).

(** A network that yields [n] zero bytes for every URL. *)
Definition fetchBytes (n : Z) (u : string) (w : unit)
    : ProcessingResult * unit :=
  ({| success := true; buffer := Some (replicate (Z.to_nat n) Byte.x00);
      res_originalFormat := Some "png"; res_convertedFormat := Some "png";
      error := None |}, w).

(** An image node as the extraction makes it. *)
Definition imageNode (i u : string) : IRNode :=
  {| id := i; type := IMAGE;
     image := Some {| url := u; data := None; naturalWidth := None;
                      naturalHeight := None; needsProxy := false;
                      sourceType := None; format := None |};
     imageSource := None; imageData := None; imageChunkRef := None;
     imageProcessing := None; screenshot := None; states := None;
     _imageBuffer := None |}.

(** An image node with its source attached. *)
Definition sourcedNode (i u : string) : IRNode :=
  {| id := i; type := IMAGE; image := None;
     imageSource :=
       Some {| originalUrl := u; resolvedUrl := u; src_sourceType := "img";
               src_naturalWidth := None; src_naturalHeight := None;
               src_format := None |};
     imageData := None; imageChunkRef := None;
     imageProcessing := None; screenshot := None; states := None;
     _imageBuffer := None |}.

(** A node that arrives with the descriptor of a chunked payload. *)
Definition deferredNode (i : string) (count : Z) : IRNode :=
  {| id := i; type := IMAGE; image := None; imageSource := None;
     imageData := None;
     imageChunkRef :=
       Some {| totalSize := 2 * count; totalChunks := count; chunkSize := 2;
               isStreamed := true |};
     imageProcessing := None; screenshot := None; states := None;
     _imageBuffer := None |}.

(** A renderer that always succeeds; the document is the list of the
    placeholders appended to the page. *)
#[global] Instance renderer : Consumer.Renderer string (list string) :=
  {| Consumer.createEnhancedNode node _ _ _ f :=
       (Some (String.append "node:" (id node)), f);
     Consumer.createPlaceholderForFailedImage node f :=
       (String.append "placeholder:" (id node), f);
     Consumer.appendChild s f := f ++ [s];
     Consumer.createFigmaVariables _ f := f;
     Consumer.processFonts _ f := f |}.

(** A clock that advances by 100 ms at every round of the finalisation that
    starts at [startTime]; no chunk arrives meanwhile. *)
Definition tick (startTime : Z) (k : nat) : Consumer.Tick :=
  {| Consumer.arrivals := [];
     Consumer.sweepNow := startTime + 100 * Z.of_nat k;
     Consumer.checkNow := startTime + 100 * Z.of_nat k |}.

(** The session of the controller on a payload, on an open socket, with the
    sequence number for clock. *)
Definition session (payload : StreamController.StreamPayload)
    : list IRNode * StreamController.State unit :=
  StreamController.streamExtractedPage config fetch (λ _, true) (λ n, n)
    payload (StreamController.init tt).

End Example.

(** ** Runs of an assembler through its public methods *)

Module AssemblerRuns.
Import ImageAssembler.

(** A call that, if it adds to the entry of [id], stores the chunk [data k]
    under an index [k] of the range 0 to [total - 1]. *)
Definition chunkOf (id : string) (total : Z) (data : Z → list Z) (c : Call)
    : Prop :=
  match c with
  | AddChunk _ id' k d _ => id' = id → 0 ≤ k < total ∧ d = data k
  | _ => False
  end.

(** Every entry files under its own id, counts the chunks it stores, and
    stores at least one. *)
Definition wellCounted (b : Buffers) : Prop :=
  ∀ id buffer,
    b !! id = Some buffer →
    nodeId buffer = id
    ∧ receivedChunks buffer = Z.of_nat (size (chunks buffer))
    ∧ 1 ≤ receivedChunks buffer.

(** The entry of [id] after a run of [chunkOf] calls: it keeps the total and
    the creation time, and stores only chunks of the range with their data. *)
Definition entryOf (id : string) (total : Z) (data : Z → list Z) (created : Z)
    (b : Buffers) : Prop :=
  ∃ buffer,
    b !! id = Some buffer
    ∧ totalChunks buffer = total
    ∧ createdAt buffer = created
    ∧ receivedChunks buffer = Z.of_nat (size (chunks buffer))
    ∧ ∀ k v, chunks buffer !! k = Some v →
             0 ≤ k < total ∧ v = Uint8Array_of (data k).

End AssemblerRuns.

(** ** Vocabulary of the statements on the wire *)

Module StreamWire.
Import IR Config ImageProcessor StreamController.

(** A socket that stays open during the session. *)
Definition alwaysOpen : Z → bool := λ _, true.

(** A message builder that files the number it is given as the sequence
    number of the message, as every builder of the controller does. *)
Definition numbered (build : Z → Message) : Prop :=
  ∀ n, IR.sequenceNumber (build n) = n.

(** The socket is open when the message is handed to [send]. *)
Definition passes (wsOpen : Z → bool) (m : Message) : Prop :=
  wsOpen (IR.sequenceNumber m) = true.

#[global] Instance passes_dec wsOpen m : Decision (passes wsOpen m).
Proof. unfold passes. apply _. Defined.

(** An image node of the extraction that has a URL to fetch. *)
Definition hasUrl (node : IRNode) : bool :=
  bool_decide (type node = IMAGE)
  && match image node with
     | Some img => truthy (url img)
     | None => false
     end.

(** A list of numbers in which every number is below all later ones. *)
Fixpoint ascending (l : list Z) : Prop :=
  match l with
  | [] => True
  | x :: l' => Forall (λ y, x < y) l' ∧ ascending l'
  end.

(** Two controller states after the same steps, the first on a socket that
    stays open, the second on the socket [wsOpen]: the second has sent what
    the first has sent from [ws0] on, except what [wsOpen] refused. *)
Definition dropsOnly {World : Type} (wsOpen : Z → bool) (ws0 : list Message)
    (s1 s2 : State World) : Prop :=
  sequenceNumber s1 = sequenceNumber s2
  ∧ imageProcessor s1 = imageProcessor s2
  ∧ totalNodes s1 = totalNodes s2
  ∧ world s1 = world s2
  ∧ ∃ sent,
      ws s1 = ws0 ++ sent ∧ ws s2 = ws0 ++ filter (passes wsOpen) sent.

(** What was sent from [ws0] on carries the numbers from [n0] on, one after
    the other. *)
Definition consecutive {World : Type} (ws0 : list Message) (n0 : Z)
    (s : State World) : Prop :=
  ∃ sent,
    ws s = ws0 ++ sent
    ∧ map IR.sequenceNumber sent = seqZ n0 (Z.of_nat (length sent))
    ∧ sequenceNumber s = n0 + Z.of_nat (length sent).

Section Forms.

Context (cfg : CONFIG).

(** A node without payload. *)
Definition bare (node : IRNode) : Prop :=
  imageData node = None ∧ imageChunkRef node = None
  ∧ _imageBuffer node = None.

(** A node with its payload inline: fewer bytes than the threshold, as the
    array of numbers [imageData]. *)
Definition inlineForm (node : IRNode) : Prop :=
  ∃ buf,
    imageData node = Some (Array_from buf)
    ∧ Z.of_nat (length buf) < IMAGE_SIZE_THRESHOLD cfg
    ∧ imageChunkRef node = None
    ∧ _imageBuffer node = None.

(** A node whose payload is streamed: the descriptor of the payload in
    [imageChunkRef], and the payload itself still in [_imageBuffer]. *)
Definition streamedForm (node : IRNode) : Prop :=
  ∃ buf,
    _imageBuffer node = Some buf
    ∧ IMAGE_SIZE_THRESHOLD cfg ≤ Z.of_nat (length buf)
    ∧ imageChunkRef node
      = Some {| totalSize := Z.of_nat (length buf);
                totalChunks :=
                  ceil_div (Z.of_nat (length buf)) (IMAGE_CHUNK_SIZE cfg);
                chunkSize := IMAGE_CHUNK_SIZE cfg;
                isStreamed := true |}
    ∧ imageData node = None.

End Forms.

End StreamWire.

(** ** Vocabulary of the statements on the consumer's counter *)

Module ConsumerCounts.
Import IR Consumer.

(** The number of entries of a history for which a node was created, be it
    the node itself or a placeholder. *)
Definition created (h : list (string * Fate)) : Z :=
  Z.of_nat (length (filter (λ e, e.2 ≠ Skipped) h)).

(** The counter of the plugin agrees with the history. *)
Definition counted {SceneNode Figma : Type}
    (st : @Consumer.State SceneNode Figma) : Prop :=
  totalStreamNodesProcessed st = created (history st).

End ConsumerCounts.

(** ** JavaScript strings *)

(** A JavaScript string whose code units are all below 256 is the Rocq
    string of these code units; URLs, content types and data URL headers
    are such strings. The methods below are the ones that the image
    processor calls. *)
Module JsString.
Import Stdlib.Strings.Ascii.

Definition startsWith (s searchString : string) : bool :=
  String.prefix searchString s.

(** [s.indexOf(searchString)], with [None] for -1. *)
Definition indexOf (s searchString : string) : option nat :=
  String.index 0 searchString s.

Definition includes (s searchString : string) : bool :=
  match indexOf s searchString with
  | Some _ => true
  | None => false
  end.

(** [s.substring(start, stop)] for [start <= stop <= s.length]. *)
Definition substring (s : string) (start stop : nat) : string :=
  String.substring start (stop - start) s.

(** [s.substring(start)] for [start <= s.length]. *)
Definition substringFrom (s : string) (start : nat) : string :=
  String.substring start (String.length s - start) s.

(** [toLowerCase] on one code unit below 256: the letters A to Z, and the
    letters of Latin-1 from U+00C0 to U+00DE but the sign U+00D7. *)
Definition lowerChar (c : ascii) : ascii :=
  let n := N_of_ascii c in
  if ((65 <=? n) && (n <=? 90)
      || (192 <=? n) && (n <=? 222) && negb (n =? 215))%N
  then ascii_of_N (n + 32)
  else c.

Fixpoint toLowerCase (s : string) : string :=
  match s with
  | EmptyString => EmptyString
  | String c s' => String (lowerChar c) (toLowerCase s')
  end.

(** How a regular expression with the flag [i] and without the flag [u]
    compares a character with a letter of its pattern: a code unit from 128
    on is never taken for an ASCII letter. *)
Definition foldCase (c : ascii) : ascii :=
  let n := N_of_ascii c in
  if ((65 <=? n) && (n <=? 90))%N then ascii_of_N (n + 32) else c.

(** The literal [p] matched at the head of [s], letters regardless of case:
    what follows the match. *)
Fixpoint matchLiteral (p s : string) : option string :=
  match p, s with
  | EmptyString, _ => Some s
  | String a p', String b s' =>
      if Ascii.eqb (foldCase a) (foldCase b) then matchLiteral p' s' else None
  | String _ _, EmptyString => None
  end.

Fixpoint takeWhile (keep : ascii → bool) (s : string) : string :=
  match s with
  | EmptyString => EmptyString
  | String c s' => if keep c then String c (takeWhile keep s') else EmptyString
  end.

(** Every character of [s] passes the test. *)
Fixpoint allChars (test : ascii → bool) (s : string) : bool :=
  match s with
  | EmptyString => true
  | String c s' => test c && allChars test s'
  end.

Definition notComma (c : ascii) : bool := negb (Ascii.eqb c ",").

End JsString.

(** ** Fetching and converting one image (image-processor.ts) *)

Module ImageFetch.
Import IR Config ImageProcessor JsString.
Import Stdlib.Strings.Ascii.

Definition MAX_IMAGE_DIMENSION : Z := 4096.

(** [buffer[i]]: a number, or undefined past the end. *)
Definition byteAt (bytes : Bytes) (i : nat) : option Z :=
  byte_to_Z <$> bytes !! i.

(** [buffer[i] === v]. *)
Definition byteIs (bytes : Bytes) (i : nat) (v : Z) : bool :=
  bool_decide (byteAt bytes i = Some v).

Definition detectFormat (bytes : Bytes) (contentType : string) : string :=
  if includes contentType "png" then "png"
  else if includes contentType "jpeg" || includes contentType "jpg"
  then "jpeg"
  else if includes contentType "gif" then "gif"
  else if includes contentType "webp" then "webp"
  else if includes contentType "svg" then "svg"
  else if byteIs bytes 0 0x89 && byteIs bytes 1 0x50 then "png"
  else if byteIs bytes 0 0xff && byteIs bytes 1 0xd8 then "jpeg"
  else if byteIs bytes 0 0x47 && byteIs bytes 1 0x49 then "gif"
  else if byteIs bytes 0 0x52 && byteIs bytes 1 0x49
          && byteIs bytes 2 0x46 && byteIs bytes 3 0x46
  then (if byteIs bytes 8 0x57 && byteIs bytes 9 0x45 then "webp"
        else "unknown")
  else "unknown".

Definition notSeparator (c : ascii) : bool :=
  negb (Ascii.eqb c ";" || Ascii.eqb c ",").

(** [header.match(/data:image\/([^;,]+)/i)]: the first group of the
    leftmost match, which is never empty. *)
Fixpoint matchImageType (s : string) : option string :=
  let here :=
    match matchLiteral "data:image/" s with
    | Some rest =>
        match takeWhile notSeparator rest with
        | EmptyString => None
        | group => Some group
        end
    | None => None
    end in
  match here with
  | Some group => Some group
  | None =>
      match s with
      | EmptyString => None
      | String _ s' => matchImageType s'
      end
  end.

Definition detectFormatFromDataUrl (header : string) : option string :=
  match matchImageType header with
  | Some group =>
      let value := toLowerCase group in
      if bool_decide (value = "jpg") then Some "jpeg" else Some value
  | None => None
  end.

(** What [sharp(buffer).metadata()] is read for. *)
Record Metadata : Type := mkMetadata {
  width : option Z;
  height : option Z
}.

(** [d && d > MAX_IMAGE_DIMENSION], as a truth value. *)
Definition tooLarge (d : option Z) : bool :=
  match d with
  | Some v => negb (bool_decide (v = 0)) && bool_decide (v > MAX_IMAGE_DIMENSION)
  | None => false
  end.

(** The result [{success: false, error}]. *)
Definition failure (message : string) : ProcessingResult :=
  {| success := false; buffer := None; res_originalFormat := None;
     res_convertedFormat := None; error := Some message |}.

Section Fetch.

(** The network, the transcoder and the decoder of [Buffer.from] are outside
    the program. [fetch] is the call of node-fetch with its abort timer,
    [metadata] and [toBuffer] are the two calls into sharp, the latter with
    the flag that tells whether the pipeline resizes before it encodes to
    PNG. What they throw is an [Error], given by its message. *)
Context {World : Type}.

Record Response : Type := mkResponse {
  ok : bool;
  status : Z;
  statusText : string;
  contentType : option string;
  arrayBuffer : World → outcome Bytes * World
}.

Context (fetch : string → World → outcome Response * World).
Context (metadata : Bytes → World → outcome Metadata * World).
Context (toBuffer : Bytes → bool → World → outcome Bytes * World).
Context (Buffer_from : string → bool → outcome Bytes).

(** [convertIfNeeded]: the pair is [{buffer, converted}]. *)
Definition convertIfNeeded (bytes : Bytes) (format : string) (w : World)
    : (Bytes * bool) * World :=
  let needsConversion := bool_decide (format ∈ ["webp"; "avif"; "unknown"]) in
  match metadata bytes w with
  | (Throw _, w1) => ((bytes, false), w1)
  | (Return meta, w1) =>
      let needsResize := tooLarge (width meta) || tooLarge (height meta) in
      if needsConversion || needsResize then
        match toBuffer bytes needsResize w1 with
        | (Throw _, w2) => ((bytes, false), w2)
        | (Return convertedBuffer, w2) => ((convertedBuffer, true), w2)
        end
      else ((bytes, false), w1)
  end.

Definition fromDataUrl (dataUrl : string) (w : World)
    : ProcessingResult * World :=
  match indexOf dataUrl "," with
  | None => (failure "Invalid data URL", w)
  | Some commaIndex =>
      let header := substring dataUrl 0 commaIndex in
      let data := substringFrom dataUrl (commaIndex + 1) in
      let isBase64 := includes header ";base64" in
      match Buffer_from data isBase64 with
      | Throw message => (failure message, w)
      | Return bytes =>
          let format := orUnknown (detectFormatFromDataUrl header) in
          let '((processed, converted), w1) :=
            convertIfNeeded bytes format w in
          ({| success := true; buffer := Some processed;
              res_originalFormat := Some format;
              res_convertedFormat :=
                Some (if converted then "png" else format);
              error := None |}, w1)
      end
  end.

Definition fetchAndConvert (imageUrl : string) (w : World)
    : ProcessingResult * World :=
  if startsWith imageUrl "data:" then fromDataUrl imageUrl w
  else
    match fetch imageUrl w with
    | (Throw message, w1) => (failure message, w1)
    | (Return response, w1) =>
        if negb (ok response) then
          (failure ("HTTP " +:+ pretty (status response) +:+ ": "
                    +:+ statusText response), w1)
        else
          match arrayBuffer response w1 with
          | (Throw message, w2) => (failure message, w2)
          | (Return bytes, w2) =>
              let mime :=
                match contentType response with
                | Some s => s
                | None => ""
                end in
              let detectedFormat := detectFormat bytes mime in
              let '((processed, converted), w3) :=
                convertIfNeeded bytes detectedFormat w2 in
              ({| success := true; buffer := Some processed;
                  res_originalFormat := Some detectedFormat;
                  res_convertedFormat :=
                    Some (if converted then "png" else detectedFormat);
                  error := None |}, w3)
          end
    end.

End Fetch.

End ImageFetch.

(** ** A concrete network and transcoder *)

Module ExampleFetch.
Import IR Config ImageProcessor JsString ImageFetch.

(** The server answers 404 for the URL [missing] and, for every other URL,
    four bytes with the signature of a JPEG under the content type that
    names WebP. *)
Definition fetch (u : string) (w : unit)
    : outcome (Response (World := unit)) * unit :=
  if bool_decide (u = "missing")
  then (Return {| ok := false; status := 404; statusText := "Not Found";
                  contentType := None;
                  arrayBuffer := λ w, (Return [], w) |}, w)
  else (Return {| ok := true; status := 200; statusText := "OK";
                  contentType := Some "image/webp";
                  arrayBuffer :=
                    λ w, (Return [Byte.xff; Byte.xd8; Byte.xff; Byte.xe0], w)
               |}, w).

(** Every image measures 10 by 10. *)
Definition metadata (bytes : Bytes) (w : unit) : outcome Metadata * unit :=
  (Return {| width := Some 10; height := Some 10 |}, w).

(** The transcoder answers with the signature of a PNG before the bytes it
    was given. *)
Definition toBuffer (bytes : Bytes) (resize : bool) (w : unit)
    : outcome Bytes * unit :=
  (Return (Byte.x89 :: Byte.x50 :: bytes), w).

(** A decoder that yields one byte for every character of the data. *)
Definition Buffer_from (data : string) (isBase64 : bool) : outcome Bytes :=
  Return (replicate (String.length data)
            (if isBase64 then Byte.x01 else Byte.x02)).

Definition fetchAndConvert : string → unit → ProcessingResult * unit :=
  ImageFetch.fetchAndConvert fetch metadata toBuffer Buffer_from.

End ExampleFetch.

(** ** The plugin on the event loop (code.ts as it stands) *)

(** [figma.ui.onmessage] is an async function that nobody awaits: a message
    starts a handler, which runs until it ends or reaches an [await] on
    something outside, and is resumed in a later turn of the event loop;
    other messages are dispatched meanwhile. The module [Consumer] above is
    the schedule in which every handler has ended when the next message
    comes. Here the schedule is explicit. *)
Module EventLoop.
Import IR Consumer.

(** What [figma.notify] shows: the notice of [handleStreamComplete] with the
    number of nodes created, the notice of the [catch] of
    [figma.ui.onmessage], and the notice of an ERROR message. *)
Inductive Notice : Type :=
  | ImportComplete (nodesCreated : Z)
  | ErrorProcessingData
  | StreamError (message : string).

(** An async function suspended at an [await]:
    [handleStreamNodeBatch] at [await createEnhancedNode(node, ...)], with
    the nodes of the batch still to come;
    [createPendingImageNode] at its [await createEnhancedNode(node, ...)];
    [handleStreamComplete] at [await new Promise(... setTimeout(resolve, 100))]. *)
Inductive Task : Type :=
  | InBatch (node : IRNode) (rest : list IRNode)
  | InPendingImage (nodeId : string) (node : IRNode)
  | InComplete (startTime : Z).

(** How a run of synchronous code ends. *)
Inductive Completion : Type :=
  | Done
  | Threw (err : string).

(** A turn of the event loop: the UI posts a message, or what the [k]-th
    suspended function awaits settles. [now] is what [Date.now()] reads
    during the turn. *)
Inductive Event : Type :=
  | Post (now : Z) (msg : Message)
  | Settle (k : nat) (now : Z).

Section EventLoop.

Context {SceneNode Figma : Type} `{!Renderer SceneNode Figma}.

(** What the identifier [createPlaceholderForFailedImage] is bound to where
    [handleStreamComplete] calls it. code.ts neither defines nor imports it:
    in the source as it stands the binding is [None] and the call throws a
    ReferenceError. [Some f] is a build that supplies the function. *)
Context (createPlaceholderForFailedImage :
           option (IRNode → Figma → SceneNode * Figma)).

Abbreviation CState := (@Consumer.State SceneNode Figma).

Record Loop : Type := mkLoop {
  plugin : CState;
  tasks : list Task;
  notices : list Notice
}.

Definition init (f : Figma) : Loop := mkLoop (Consumer.init f) [] [].

Definition setPending (p : gmap string IRNode) (st : CState) : CState :=
  Consumer.mkState p (streamScreenshots st) (streamStates st)
    (streamCreatedNodes st) (totalStreamNodesProcessed st)
    (imageAssembler st) (figma st) (ui st) (history st).

(** The head of the loop body of [handleStreamNodeBatch]: the screenshot and
    the states of the node are filed under its id. *)
Definition noteNode (node : IRNode) (st : CState) : CState :=
  let screenshots :=
    match screenshot node with
    | Some s => if truthy s then <[id node := s]> (streamScreenshots st)
                else streamScreenshots st
    | None => streamScreenshots st
    end in
  let states' :=
    match states node with
    | Some s => <[id node := s]> (streamStates st)
    | None => streamStates st
    end in
  Consumer.mkState (pendingImageNodes st) screenshots states'
    (streamCreatedNodes st) (totalStreamNodesProcessed st)
    (imageAssembler st) (figma st) (ui st) (history st).

(** The loop of [handleStreamNodeBatch] from the nodes [nodes] on, up to the
    first [await] or to the end, where the progress is posted. A streamed
    node is deferred without an [await]. *)
Fixpoint batchFrom (nodes : list IRNode) (st : CState)
    : CState * option Task :=
  match nodes with
  | [] =>
      (postMessage (NODES_PROCESSED (totalStreamNodesProcessed st)) st, None)
  | node :: rest =>
      let st1 := noteNode node st in
      if isStreamedNode node
      then batchFrom rest
             (setPending (<[id node := node]> (pendingImageNodes st1)) st1)
      else (st1, Some (InBatch node rest))
  end.

(** [createPendingImageNode] up to its [await]. The node is changed in
    place, so the pending table sees the payload on it. *)
Definition startPendingImageNode (nodeId : string) (st : CState)
    : CState * option Task :=
  match pendingImageNodes st !! nodeId with
  | None => (st, None)
  | Some node =>
      match ImageAssembler.assemble nodeId (imageAssembler st) with
      | (Return (Some assembled), b) =>
          let node' :=
            {| id := id node; type := type node; image := image node;
               imageSource := imageSource node;
               imageData := Some (Array_from assembled);
               imageChunkRef := None;
               imageProcessing := imageProcessing node;
               screenshot := screenshot node; states := states node;
               _imageBuffer := _imageBuffer node |} in
          (setPending (<[nodeId := node']> (pendingImageNodes st))
             (setAssembler b st),
           Some (InPendingImage nodeId node'))
      | (Return None, b) => (setAssembler b st, None)
      | (Throw _, _) => (st, None)
      end
  end.

(** [handleImageChunk]. *)
Definition startImageChunk (now : Z) (nodeId : string)
    (chunkIndex totalChunks : Z) (data : list Z) (st : CState)
    : CState * option Task :=
  let st1 :=
    setAssembler
      (ImageAssembler.addChunk now nodeId chunkIndex data totalChunks
         (imageAssembler st)) st in
  if ImageAssembler.isComplete nodeId (imageAssembler st1)
  then startPendingImageNode nodeId st1
  else (st1, None).

(** The two placeholder loops of [handleStreamComplete] have this body; the
    loop ends at the first call that throws. *)
Fixpoint placeholders (ids : list string) (st : CState)
    : Completion * CState :=
  match ids with
  | [] => (Done, st)
  | nodeId :: rest =>
      match pendingImageNodes st !! nodeId with
      | None => placeholders rest st
      | Some node =>
          match createPlaceholderForFailedImage with
          | None =>
              (Threw "createPlaceholderForFailedImage is not defined", st)
          | Some create =>
              let '(placeholder, f) := create node (figma st) in
              placeholders rest
                (Consumer.mkState (delete nodeId (pendingImageNodes st))
                   (streamScreenshots st) (streamStates st)
                   (<[nodeId := placeholder]> (streamCreatedNodes st))
                   (totalStreamNodesProcessed st + 1)
                   (imageAssembler st) (appendChild placeholder f) (ui st)
                   (history st ++ [(nodeId, Placeholder)]))
          end
      end
  end.

(** [handleStreamComplete] from a test of the loop condition on: it
    suspends at the timer, or leaves the loop, makes the placeholders for
    what is still pending and notifies. *)
Definition completeFrom (now startTime : Z) (st : CState)
    : Completion * CState * option Task * list Notice :=
  if bool_decide (0 < size (pendingImageNodes st))%nat
     && bool_decide (now - startTime < STREAM_ASSEMBLY_TIMEOUT_MS)
  then (Done, st, Some (InComplete startTime), [])
  else
    let stuck := (map_to_list (pendingImageNodes st)).*1 in
    match
      (if bool_decide (0 < size (pendingImageNodes st))%nat
       then placeholders stuck st else (Done, st))
    with
    | (Done, st1) =>
        (Done, st1, None, [ImportComplete (totalStreamNodesProcessed st1)])
    | (Threw err, st1) => (Threw err, st1, None, [])
    end.

(** [handleStreamComplete] when its timer has fired: the sweep, the
    placeholders for what the sweep evicted, and the loop condition again. *)
Definition afterTimer (now startTime : Z) (st : CState)
    : Completion * CState * option Task * list Notice :=
  let '(timedOut, b) :=
    ImageAssembler.cleanupTimedOut now (imageAssembler st) in
  match placeholders timedOut (setAssembler b st) with
  | (Done, st1) => completeFrom now startTime st1
  | (Threw err, st1) => (Threw err, st1, None, [])
  end.

(** The [try] and [catch] of [figma.ui.onmessage] around a handler: what it
    throws is logged and notified. *)
Definition caught (r : Completion * CState * option Task * list Notice)
    (l : Loop) : Loop :=
  let '(completion, st, task, shown) := r in
  mkLoop st (tasks l ++ option_list task)
    (notices l ++ shown
     ++ match completion with
        | Done => []
        | Threw _ => [ErrorProcessingData]
        end).

Definition resumed (r : CState * option Task) (l : Loop) : Loop :=
  mkLoop r.1 (tasks l ++ option_list r.2) (notices l).

(** [figma.ui.onmessage] on a stream message, up to the first [await] of
    the handler. [createFigmaVariables] and [processFonts] are awaited last
    in their handlers and touch nothing but the document. *)
Definition onmessage (now : Z) (msg : Message) (l : Loop) : Loop :=
  let st := plugin l in
  match msg with
  | IMAGE_CHUNK nodeId chunkIndex totalChunks data _ _ =>
      resumed (startImageChunk now nodeId chunkIndex totalChunks data st) l
  | TOKENS payload _ =>
      let st1 := resetStreamState st in
      resumed (setFigma (createFigmaVariables payload (figma st1)) st1, None) l
  | FONTS payload _ =>
      resumed (setFigma (processFonts payload (figma st)) st, None) l
  | NODES nodes _ => resumed (batchFrom nodes st) l
  | PROGRESS stage current total _ =>
      resumed (postMessage (PROGRESS_UPDATE stage current total) st, None) l
  | ERROR message _ =>
      mkLoop st (tasks l)
        (notices l
         ++ [StreamError (if truthy message then message
                          else "Unknown error")])
  | COMPLETE _ _ _ _ _ => caught (completeFrom now now st) l
  end.

(** A suspended function goes on, up to its next [await] or to its end. The
    renderer's [createEnhancedNode] stands for the whole of the awaited
    call. *)
Definition resume (now : Z) (task : Task) (l : Loop) : Loop :=
  let st := plugin l in
  match task with
  | InBatch node rest =>
      resumed (batchFrom rest (materialize (id node) node st)) l
  | InPendingImage nodeId node =>
      let st1 := materialize nodeId node st in
      let st2 := deletePending nodeId st1 in
      resumed
        (postMessage
           (IMAGE_ASSEMBLED nodeId (totalStreamNodesProcessed st2)) st2,
         None) l
  | InComplete startTime => caught (afterTimer now startTime st) l
  end.

(** One turn of the event loop; [None] when the schedule settles a function
    that is not suspended. *)
Definition step (l : Loop) (e : Event) : option Loop :=
  match e with
  | Post now msg => Some (onmessage now msg l)
  | Settle k now =>
      match tasks l !! k with
      | None => None
      | Some task =>
          Some (resume now task
                  (mkLoop (plugin l) (delete k (tasks l)) (notices l)))
      end
  end.

Fixpoint turns (schedule : list Event) (l : Loop) : option Loop :=
  match schedule with
  | [] => Some l
  | e :: rest =>
      match step l e with
      | None => None
      | Some l' => turns rest l'
      end
  end.

End EventLoop.

(** The finalisation sleeps [n] times in a row: its timer fires every 100
    ms from [startTime] on and nothing else happens meanwhile. *)
Definition sleeps (k : nat) (startTime : Z) (n : nat) : list Event :=
  map (λ j : nat, Settle k (startTime + 100 * (Z.of_nat j + 1))) (seq 0 n).

End EventLoop.

(** ** Two sessions on the event loop *)

Module ExampleSchedules.
Import IR Consumer EventLoop Example.

(** A text node as the extraction makes it. *)
Definition textNode (i : string) : IRNode :=
  {| id := i; type := TEXT; image := None; imageSource := None;
     imageData := None; imageChunkRef := None; imageProcessing := None;
     screenshot := None; states := None; _imageBuffer := None |}.

(** The second of the two chunks of a streamed image never arrives; COMPLETE
    arrives, and the finalisation sleeps a hundred times. *)
Definition lostChunk : list Event :=
  [Post 0 (NODES [deferredNode "late" 2] 0);
   Post 1 (IMAGE_CHUNK "late" 0 2 [1; 2] 1 1);
   Post 5 (COMPLETE 1 1 0 1 2)]
  ++ sleeps 0 5 100.

(** What the controller sends for a text node and an image of seven bytes,
    on an open socket. *)
Definition wire : list Message :=
  StreamController.ws
    (session (StreamController.mkStreamPayload
                [textNode "slow"; imageNode "large" "abcdefg"] [] None)).2.

(** The messages of [wire] are posted in their order, the [n]-th at the time
    [n], while the batch of NODES is still at [await createEnhancedNode] for
    its first node; the batch goes on after COMPLETE was handled. *)
Definition overtaken : list Event :=
  map (λ m, Post (IR.sequenceNumber m) m) wire ++ [Settle 0 100].

End ExampleSchedules.

(** * Facts *)

(** ** Facts on the reassembly buffer *)

Module ImageAssemblerFacts.
Import ImageAssembler.

Lemma byte_round_trip b : Z_to_byte (byte_to_Z b) = b.
Proof.
  unfold Z_to_byte, byte_to_Z.
  pose proof (Byte.to_N_bounded b) as Hb.
  rewrite Z.mod_small by lia.
  rewrite N2Z.id, Byte.of_to_N. reflexivity.
Qed.

Lemma Uint8Array_of_Array_from buf : Uint8Array_of (Array_from buf) = buf.
Proof.
  unfold Uint8Array_of, Array_from. induction buf as [|b buf IH]; simpl; [done|].
  by rewrite byte_round_trip, IH.
Qed.

Lemma totalSize_delete cs index chunk :
  cs !! index = Some chunk →
  totalSize cs = (length chunk + totalSize (delete index cs))%nat.
Proof.
  intros H. unfold totalSize.
  rewrite (map_fold_delete_L _ _ index chunk cs); [lia| |done].
  intros; lia.
Qed.

Lemma chunkSizes_delete cs index indices :
  index ∉ indices → chunkSizes (delete index cs) indices = chunkSizes cs indices.
Proof.
  induction indices as [|i l IH]; simpl; [done|].
  intros Hni. apply not_elem_of_cons in Hni as [Hne Hni].
  rewrite lookup_delete_ne by done. by rewrite IH.
Qed.

Lemma chunkSizes_le_totalSize indices : ∀ cs,
  NoDup indices → (chunkSizes cs indices ≤ totalSize cs)%nat.
Proof.
  induction indices as [|i l IH]; intros cs Hnd; simpl; [lia|].
  apply NoDup_cons in Hnd as [Hni Hnd].
  destruct (cs !! i) as [chunk|] eqn:Hi; simpl.
  - rewrite (totalSize_delete _ _ _ Hi).
    rewrite <- (chunkSizes_delete cs i l Hni).
    specialize (IH (delete i cs) Hnd). lia.
  - by apply IH.
Qed.

Lemma Uint8Array_set_length target source offset r :
  Uint8Array_set target source offset = Some r → length r = length target.
Proof.
  unfold Uint8Array_set. case_decide; [|done]. intros [= <-].
  rewrite !length_app, length_take, length_drop. lia.
Qed.

Lemma assemble_loop_no_throw cs indices : ∀ assembled offset,
  (offset + chunkSizes cs indices ≤ length assembled)%nat →
  ∃ r, assemble_loop cs indices assembled offset = Return r.
Proof.
  induction indices as [|i l IH]; intros assembled offset Hfit; simpl in *.
  - eauto.
  - destruct (cs !! i) as [chunk|] eqn:Hi; simpl in *; [|eauto].
    unfold Uint8Array_set. case_decide; [|lia].
    apply IH. rewrite !length_app, length_take, length_drop. lia.
Qed.

Lemma assemble_loop_missing cs indices : ∀ assembled offset index,
  index ∈ indices → cs !! index = None →
  (offset + chunkSizes cs indices ≤ length assembled)%nat →
  assemble_loop cs indices assembled offset = Return None.
Proof.
  induction indices as [|i l IH]; intros assembled offset index Hin Hnone Hfit.
  - by apply elem_of_nil in Hin.
  - simpl in *. destruct (cs !! i) as [chunk|] eqn:Hi; simpl in *; [|done].
    apply elem_of_cons in Hin as [->|Hin]; [congruence|].
    unfold Uint8Array_set. case_decide; [|lia].
    eapply IH; [done..|]. rewrite !length_app, length_take, length_drop. lia.
Qed.

(** When every index is there, the loop writes the chunks one after the
    other, in the order of the indices. *)
Lemma assemble_loop_all cs indices : ∀ written k,
  Forall (λ index, is_Some (cs !! index)) indices →
  (chunkSizes cs indices ≤ k)%nat →
  assemble_loop cs indices (written ++ replicate k Byte.x00) (length written)
  = Return (Some (written
                  ++ concat (map (λ index, default [] (cs !! index)) indices)
                  ++ replicate (k - chunkSizes cs indices) Byte.x00)).
Proof.
  induction indices as [|i l IH]; intros written k Hall Hk; simpl in *.
  - by rewrite Nat.sub_0_r.
  - apply Forall_cons in Hall as [[chunk Hi] Hall]. rewrite Hi in *. simpl in *.
    unfold Uint8Array_set. rewrite length_app, length_replicate.
    case_decide; [|lia].
    rewrite take_app_length. rewrite drop_app_ge by lia.
    rewrite drop_replicate.
    replace (length written + length chunk - length written)%nat
      with (length chunk) by lia.
    replace (length written + length chunk)%nat
      with (length (written ++ chunk)) by (by rewrite length_app).
    rewrite (app_assoc written chunk).
    rewrite IH by (done || lia).
    rewrite <- !app_assoc.
    by replace (k - length chunk - chunkSizes cs l)%nat
      with (k - (length chunk + chunkSizes cs l))%nat by lia.
Qed.


Lemma assemble_returns id b : ∃ r, (assemble id b).1 = Return r.
Proof.
  unfold assemble. destruct (b !! id) as [buffer|] eqn:Hb; [|by eauto].
  destruct (negb (isComplete id b)); [by eauto|].
  destruct (assemble_loop_no_throw (chunks buffer) (seqZ 0 (totalChunks buffer))
              (Uint8Array_new (totalSize (chunks buffer))) 0) as [r Hr].
  { unfold Uint8Array_new. rewrite length_replicate. simpl.
    apply chunkSizes_le_totalSize, NoDup_seqZ. }
  rewrite Hr. destruct r; simpl; eauto.
Qed.

Lemma assemble_absent id (b : Buffers) :
  b !! id = None → assemble id b = (Return None, b).
Proof. intros H. unfold assemble. by rewrite H. Qed.

Lemma assemble_success id (b b' : Buffers) bytes :
  assemble id b = (Return (Some bytes), b') → b' = delete id b.
Proof.
  unfold assemble. destruct (b !! id) as [buffer|]; [|congruence].
  destruct (negb (isComplete id b)); [congruence|].
  destruct (assemble_loop _ _ _ _) as [[r|]|]; congruence.
Qed.

Lemma assemble_other id id' (b : Buffers) :
  id ≠ id' → (assemble id' b).2 !! id = b !! id.
Proof.
  intros Hne. unfold assemble. destruct (b !! id') as [buffer|]; [|done].
  destruct (negb (isComplete id' b)); [done|].
  destruct (assemble_loop _ _ _ _) as [[r|]|]; simpl; [|done..].
  by rewrite lookup_delete_ne.
Qed.

Lemma assemble_keeps_absent id id' (b : Buffers) :
  b !! id = None → (assemble id' b).2 !! id = None.
Proof.
  intros H. destruct (decide (id = id')) as [<-|Hne].
  - by rewrite assemble_absent.
  - by rewrite assemble_other.
Qed.

(** *** The sweep *)

Lemma cleanup_fold now (l : list (string * ChunkBuffer)) : ∀ acc,
  foldl (cleanup_step now) acc l
  = (acc.1 ++ (filter (timedOut now) l).*1,
     foldl (λ m k, delete k m) acc.2 (filter (timedOut now) l).*1).
Proof.
  induction l as [|e l IH]; intros [ids b]; simpl.
  - by rewrite app_nil_r.
  - rewrite IH. rewrite filter_cons. unfold cleanup_step at 1 2.
    destruct (decide (timedOut now e)) as [H1|H1];
      destruct (decide (now - createdAt e.2 > TIMEOUT_MS)) as [H2|H2];
      simpl; try (unfold timedOut in H1; done).
    by rewrite <- app_assoc.
Qed.

Lemma lookup_delete_all (ks : list string) : ∀ (m : Buffers) i,
  foldl (λ m k, delete k m) m ks !! i = if decide (i ∈ ks) then None else m !! i.
Proof.
  induction ks as [|k ks IH]; intros m i.
  - case_decide as Hin; [by apply elem_of_nil in Hin|done].
  - cbn [foldl]. rewrite IH.
    destruct (decide (i ∈ ks)) as [Hin|Hin].
    + rewrite decide_True; [done|]. rewrite elem_of_cons. tauto.
    + destruct (decide (i = k)) as [->|Hne].
      * rewrite lookup_delete_eq. rewrite decide_True; [done|]. rewrite elem_of_cons. tauto.
      * rewrite lookup_delete_ne by done.
        rewrite decide_False; [done|]. rewrite elem_of_cons. tauto.
Qed.

Lemma cleanupTimedOut_ids now (b : Buffers) id :
  id ∈ (cleanupTimedOut now b).1
  ↔ ∃ buffer, b !! id = Some buffer ∧ now - createdAt buffer > TIMEOUT_MS.
Proof.
  unfold cleanupTimedOut. rewrite cleanup_fold. simpl.
  rewrite list_elem_of_fmap. split.
  - intros [[k buffer] [-> [Hold Hin]%list_elem_of_filter]].
    apply elem_of_map_to_list in Hin. eauto.
  - intros (buffer & Hb & Hold). exists (id, buffer). split; [done|].
    apply list_elem_of_filter. split; [done|]. by apply elem_of_map_to_list.
Qed.

Lemma cleanupTimedOut_lookup now (b : Buffers) id :
  (cleanupTimedOut now b).2 !! id
  = if decide (id ∈ (cleanupTimedOut now b).1) then None else b !! id.
Proof.
  unfold cleanupTimedOut. rewrite cleanup_fold. simpl. apply lookup_delete_all.
Qed.

Lemma cleanupTimedOut_NoDup now (b : Buffers) :
  NoDup (cleanupTimedOut now b).1.
Proof.
  unfold cleanupTimedOut. rewrite cleanup_fold. simpl.
  eapply (sublist_NoDup _ (map_to_list b).*1); [apply NoDup_fst_map_to_list|].
  apply fmap_sublist, sublist_filter.
Qed.

Lemma cleanupTimedOut_keeps_absent now id (b : Buffers) :
  b !! id = None → (cleanupTimedOut now b).2 !! id = None.
Proof. intros H. rewrite cleanupTimedOut_lookup. by case_decide. Qed.

(** *** [addChunk] *)

Lemma addChunk_other now id id' k data total (b : Buffers) :
  id ≠ id' → addChunk now id' k data total b !! id = b !! id.
Proof.
  intros Hne. unfold addChunk.
  destruct (b !! id') as [buffer|] eqn:Hb.
  - rewrite Hb. destruct (chunks buffer !! k); [done|].
    by rewrite lookup_insert_ne.
  - rewrite lookup_insert_eq. simpl. rewrite lookup_empty.
    by rewrite !lookup_insert_ne.
Qed.

Lemma addChunk_present now id k data total (b : Buffers) buffer :
  b !! id = Some buffer →
  addChunk now id k data total b
  = match chunks buffer !! k with
    | Some _ => b
    | None =>
        <[id := {| nodeId := nodeId buffer;
                   chunks := <[k := Uint8Array_of data]> (chunks buffer);
                   totalChunks := totalChunks buffer;
                   receivedChunks := receivedChunks buffer + 1;
                   createdAt := createdAt buffer |}]> b
    end.
Proof. intros Hb. unfold addChunk. by rewrite Hb, Hb. Qed.

Lemma addChunk_absent now id k data total (b : Buffers) :
  b !! id = None →
  addChunk now id k data total b
  = <[id := {| nodeId := id; chunks := {[k := Uint8Array_of data]};
               totalChunks := total; receivedChunks := 1;
               createdAt := now |}]> b.
Proof.
  intros Hb. unfold addChunk. rewrite Hb, lookup_insert_eq. simpl.
  rewrite lookup_empty, insert_insert_eq. done.
Qed.

Lemma addChunk_holds now id k data total b :
  holds id k (addChunk now id k data total b).
Proof.
  destruct (b !! id) as [buffer|] eqn:Hb.
  - rewrite (addChunk_present _ _ _ _ _ _ _ Hb).
    destruct (chunks buffer !! k) eqn:Hk.
    + exists buffer. by rewrite Hk.
    + eexists. rewrite lookup_insert_eq. split; [done|]. simpl.
      by rewrite lookup_insert_eq.
  - rewrite addChunk_absent by done. eexists. rewrite lookup_insert_eq.
    split; [done|]. simpl. by rewrite lookup_singleton_eq.
Qed.

Lemma addChunk_keeps_holds now id id' k k' data total b :
  holds id k b → holds id k (addChunk now id' k' data total b).
Proof.
  intros (buffer & Hb & Hk). destruct (decide (id = id')) as [<-|Hne].
  - rewrite (addChunk_present _ _ _ _ _ _ _ Hb).
    destruct (chunks buffer !! k') eqn:Hk'; [by exists buffer|].
    eexists. rewrite lookup_insert_eq. split; [done|]. simpl.
    destruct (decide (k = k')) as [->|Hkk].
    + by rewrite lookup_insert_eq.
    + by rewrite lookup_insert_ne.
  - exists buffer. by rewrite addChunk_other.
Qed.

Lemma addChunk_repeated now id k data total b :
  holds id k b → addChunk now id k data total b = b.
Proof.
  intros (buffer & Hb & [chunk Hk]).
  by rewrite (addChunk_present _ _ _ _ _ _ _ Hb), Hk.
Qed.

Lemma calls_keep_holds id k (cs : list Call) : ∀ b,
  Forall isAddChunk cs → holds id k b → holds id k (calls b cs).
Proof.
  induction cs as [|c cs IH]; intros b Hall Hh; simpl; [done|].
  apply Forall_cons in Hall as [Hc Hall]. apply IH; [done|].
  destruct c; simpl in *; try done. by apply addChunk_keeps_holds.
Qed.

Lemma calls_keep_absent id (cs : list Call) : ∀ b,
  Forall (λ c, ¬ addsTo id c) cs → b !! id = None → calls b cs !! id = None.
Proof.
  induction cs as [|c cs IH]; intros b Hall Hb; simpl; [done|].
  apply Forall_cons in Hall as [Hc Hall]. apply IH; [done|].
  destruct c as [now id' k data total|id'|now]; simpl in *.
  - rewrite addChunk_other; [done|]. congruence.
  - by apply assemble_keeps_absent.
  - by apply cleanupTimedOut_keeps_absent.
Qed.


(** *** Claims on the reassembly buffer *)

(** C7. [assemble] succeeds once per item: a call that returns bytes removes
    the entry, and after it every further [assemble] of the same id returns
    nothing and changes nothing, whatever calls come in between, as long as
    no new chunk is added for that id. And when a chunk index below
    [totalChunks] is absent from the entry, [assemble] returns nothing and
    leaves the buffer as it was. *)
Theorem assemble_exactly_once (id : string) (b : Buffers) :
  (∀ bytes b' later,
     assemble id b = (Return (Some bytes), b') →
     Forall (λ c, ¬ addsTo id c) later →
     b' = delete id b ∧ b' !! id = None
     ∧ assemble id (calls b' later) = (Return None, calls b' later))
  ∧ (∀ buffer index,
       b !! id = Some buffer →
       0 ≤ index < totalChunks buffer →
       chunks buffer !! index = None →
       assemble id b = (Return None, b)).
Proof.
  split.
  - intros bytes b' later Hok Hlater.
    apply assemble_success in Hok as ->.
    assert (delete id b !! id = None) as Hgone by apply lookup_delete_eq.
    repeat split; [done|].
    apply assemble_absent. by apply calls_keep_absent.
  - intros buffer index Hb Hrange Hmissing.
    unfold assemble. rewrite Hb.
    destruct (negb (isComplete id b)); [done|].
    rewrite (assemble_loop_missing _ _ _ _ index); [done| |done|].
    + apply elem_of_seqZ. lia.
    + unfold Uint8Array_new. rewrite length_replicate. simpl.
      apply chunkSizes_le_totalSize, NoDup_seqZ.
Qed.

(** C8. A chunk index delivered a second time, while the entry is still
    accumulating, is ignored: the buffer is the one that the single delivery
    gives, so the received count is the same and every later assembly
    returns the same bytes. *)
Theorem addChunk_duplicate_ignored (b : Buffers) (now1 now2 : Z) (id : string)
    (k : Z) (data1 data2 : list Z) (total1 total2 : Z) (between : list Call) :
  Forall isAddChunk between →
  let once := calls (addChunk now1 id k data1 total1 b) between in
  let twice := addChunk now2 id k data2 total2 once in
  twice = once
  ∧ receivedChunks <$> twice !! id = receivedChunks <$> once !! id
  ∧ ∀ later, assemble id (calls twice later) = assemble id (calls once later).
Proof.
  intros Hadds once twice.
  assert (twice = once) as ->; [|done].
  apply addChunk_repeated, calls_keep_holds; [done|]. apply addChunk_holds.
Qed.

(** C9. The sweep returns exactly the ids of the entries created more than
    30000 ms before it, however many chunks they hold, and removes these
    entries; the other entries stay as they are. In particular an entry that
    holds 1 of 3 chunks is gone after a sweep that runs past its timeout. *)
Theorem cleanupTimedOut_evicts (now : Z) (b : Buffers) :
  (∀ id, id ∈ (cleanupTimedOut now b).1
         ↔ ∃ buffer, b !! id = Some buffer ∧ now - createdAt buffer > 30000)
  ∧ NoDup (cleanupTimedOut now b).1
  ∧ (∀ id buffer, b !! id = Some buffer → now - createdAt buffer > 30000 →
       (cleanupTimedOut now b).2 !! id = None)
  ∧ (∀ id buffer, b !! id = Some buffer → now - createdAt buffer ≤ 30000 →
       (cleanupTimedOut now b).2 !! id = Some buffer)
  ∧ (∀ id, b !! id = None → (cleanupTimedOut now b).2 !! id = None)
  ∧ (∀ id created k data,
       b !! id = None → now - created > 30000 →
       let b1 := addChunk created id k data 3 b in
       receivedChunks <$> b1 !! id = Some 1
       ∧ totalChunks <$> b1 !! id = Some 3
       ∧ id ∈ (cleanupTimedOut now b1).1
       ∧ (cleanupTimedOut now b1).2 !! id = None).
Proof.
  assert (∀ b0 id buffer, b0 !! id = Some buffer →
            now - createdAt buffer > 30000 →
            (cleanupTimedOut now b0).2 !! id = None) as Hgone.
  { intros b0 id buffer Hb Hold. rewrite cleanupTimedOut_lookup.
    rewrite decide_True; [done|]. apply cleanupTimedOut_ids. eauto. }
  split; [apply cleanupTimedOut_ids|].
  split; [apply cleanupTimedOut_NoDup|].
  split; [apply Hgone|].
  split; [|split; [intros; by apply cleanupTimedOut_keeps_absent|]].
  - intros id buffer Hb Hyoung. rewrite cleanupTimedOut_lookup.
    rewrite decide_False; [done|]. rewrite cleanupTimedOut_ids.
    intros (buffer' & Hb' & Hold). unfold TIMEOUT_MS in Hold.
    rewrite Hb in Hb'. injection Hb' as <-. lia.
  - intros id created k data Hb Hold b1. subst b1.
    rewrite addChunk_absent by done. rewrite lookup_insert_eq. simpl.
    repeat split.
    + apply cleanupTimedOut_ids. eexists. rewrite lookup_insert_eq.
      split; [done|]. simpl. by unfold TIMEOUT_MS.
    + eapply Hgone; [apply lookup_insert_eq|]. simpl. done.
Qed.


Lemma assemble_exactly_once_witness :
  let b := calls ∅ [AddChunk 5 "img" 0 [1; 2] 2; AddChunk 6 "img" 1 [3] 2] in
  let later := [CleanupTimedOut 9; Assemble "img"; AddChunk 7 "other" 0 [4] 1] in
  let partial := calls ∅ [AddChunk 5 "img" 1 [3] 2; AddChunk 6 "img" 7 [] 2] in
  assemble "img" b = (Return (Some [Byte.x01; Byte.x02; Byte.x03]), ∅)
  ∧ assemble "img" (calls ∅ later) = (Return None, calls ∅ later)
  ∧ isComplete "img" partial = true
  ∧ assemble "img" partial = (Return None, partial).
Proof.
  intros b later partial.
  assert (assemble "img" b = (Return (Some [Byte.x01; Byte.x02; Byte.x03]), ∅))
    as Hok by (vm_compute; reflexivity).
  split; [exact Hok|]. split; [|split; [vm_compute; reflexivity|]].
  - refine (proj2 (proj2 (proj1 (assemble_exactly_once "img" b) _ ∅ later Hok _))).
    repeat constructor; simpl; try tauto. discriminate.
  - refine (proj2 (assemble_exactly_once "img" partial)
              {| nodeId := "img";
                 chunks := <[7 := []]> {[1 := [Byte.x03]]};
                 totalChunks := 2; receivedChunks := 2; createdAt := 5 |}
              0 _ _ _).
    + vm_compute; reflexivity.
    + simpl; lia.
    + vm_compute; reflexivity.
Defined.

Lemma addChunk_duplicate_ignored_witness :
  let once :=
    calls ∅ [AddChunk 5 "img" 0 [1; 2] 2; AddChunk 6 "img" 1 [3] 2] in
  let twice := addChunk 7 "img" 0 [9; 9; 9] 2 once in
  twice = once
  ∧ receivedChunks <$> twice !! "img" = Some 2
  ∧ assemble "img" twice
    = (Return (Some [Byte.x01; Byte.x02; Byte.x03]), ∅).
Proof.
  intros once twice.
  destruct (addChunk_duplicate_ignored ∅ 5 7 "img" 0 [1; 2] [9; 9; 9] 2 2
              [AddChunk 6 "img" 1 [3] 2]) as (Heq & Hcount & Hassemble).
  { repeat constructor. }
  split; [exact Heq|]. split.
  - etransitivity; [exact Hcount|]. vm_compute; reflexivity.
  - etransitivity; [exact (Hassemble [])|]. vm_compute; reflexivity.
Defined.

Lemma cleanupTimedOut_evicts_witness :
  let b1 := addChunk 1000 "img" 0 [1; 2] 3 ∅ in
  receivedChunks <$> b1 !! "img" = Some 1
  ∧ totalChunks <$> b1 !! "img" = Some 3
  ∧ "img" ∈ (cleanupTimedOut 31001 b1).1
  ∧ (cleanupTimedOut 31001 b1).2 !! "img" = None
  ∧ (cleanupTimedOut 31000 b1).2 !! "img" = b1 !! "img".
Proof.
  intros b1.
  destruct (cleanupTimedOut_evicts 31001 ∅) as (_ & _ & _ & _ & _ & Hpartial).
  destruct (Hpartial "img" 1000 0 [1; 2]) as (H1 & H2 & H3 & H4);
    [reflexivity|lia|].
  destruct (cleanupTimedOut_evicts 31000 b1) as (_ & _ & _ & Hkeep & _).
  split; [exact H1|]. split; [exact H2|]. split; [exact H3|].
  split; [exact H4|].
  etransitivity; [eapply Hkeep; [vm_compute; reflexivity|simpl; lia]|].
  vm_compute; reflexivity.
Defined.

End ImageAssemblerFacts.

(** ** Facts on the payload normalizer *)

Module ImageProcessorFacts.
Import IR Config ImageProcessor.

Section Processor.

Context {World : Type}.
Context (cfg : CONFIG).
Context (fetchAndConvert : string → World → ProcessingResult * World).

Abbreviation process := (processImageForNode cfg fetchAndConvert).

Lemma process_no_source node stats w :
  hasResolvedUrl node = false → process node stats w = (None, node, stats, w).
Proof.
  unfold hasResolvedUrl, processImageForNode.
  destruct (imageSource node) as [source|]; [|done].
  by intros ->.
Qed.

Lemma process_counted node stats w :
  hasResolvedUrl node = true →
  Counted stats (process node stats w).1.2 (process node stats w).1.1.1.
Proof.
  unfold hasResolvedUrl, processImageForNode.
  destruct (imageSource node) as [source|]; [|done].
  intros ->. simpl.
  destruct (fetchAndConvert (resolvedUrl source) w) as [result w1].
  destruct (success result), (buffer result) as [buf|]; simpl;
    try (by constructor).
  destruct (bool_decide _); simpl; by constructor.
Qed.

Lemma process_accounted node stats w :
  accounted stats → accounted (process node stats w).1.2.
Proof.
  intros Hacc. destruct (hasResolvedUrl node) eqn:Hsrc.
  - pose proof (process_counted node stats w Hsrc) as Hc.
    unfold accounted in *. inversion Hc; lia.
  - by rewrite process_no_source.
Qed.

Lemma processMany_accounted nodes : ∀ stats w,
  accounted stats → accounted (processMany cfg fetchAndConvert nodes stats w).1.
Proof.
  unfold processMany.
  induction nodes as [|node nodes IH]; intros stats w Hacc; simpl; [done|].
  pose proof (process_accounted node stats w Hacc) as Hacc'.
  destruct (process node stats w) as [[[r node'] stats'] w']. simpl in *.
  by apply IH.
Qed.

(** C4. A payload that was fetched and converted is streamed in chunks
    exactly when its byte length is at least the configured threshold; with a
    threshold of 100000 bytes, 99999 bytes go inline and 100000 bytes are
    chunked. *)
Theorem chunked_iff_at_least_threshold (node : IRNode) (stats : ProcessingStats)
    (w w1 : World) (source : ImageSource) (result : ProcessingResult)
    (buf : Bytes) :
  imageSource node = Some source →
  truthy (resolvedUrl source) = true →
  fetchAndConvert (resolvedUrl source) w = (result, w1) →
  success result = true →
  buffer result = Some buf →
  ∃ shouldStream node' stats',
    process node stats w = (Some (buf, shouldStream), node', stats', w1)
    ∧ (shouldStream = true ↔ IMAGE_SIZE_THRESHOLD cfg ≤ Z.of_nat (length buf))
    ∧ (IMAGE_SIZE_THRESHOLD cfg = 100000 →
       (Z.of_nat (length buf) = 99999 → shouldStream = false)
       ∧ (Z.of_nat (length buf) = 100000 → shouldStream = true)).
Proof.
  intros Hsource Hurl Hfetch Hsuccess Hbuf.
  exists (bool_decide (IMAGE_SIZE_THRESHOLD cfg ≤ Z.of_nat (length buf))).
  unfold processImageForNode. rewrite Hsource, Hurl. simpl.
  rewrite Hfetch, Hsuccess, Hbuf.
  do 2 eexists. split; [reflexivity|]. split.
  - apply bool_decide_eq_true.
  - intros ->. split; intros ->.
    + apply bool_decide_eq_false. lia.
    + apply bool_decide_eq_true. lia.
Qed.

(** C10. A call for a node without an image source changes no counter; every
    other call adds one to [totalImages] and to exactly one of
    [inlineImages], [streamedImages] and [failedImages]. Hence after any run
    of calls on a fresh processor the three add up to [totalImages], and
    these are the counters that [sendComplete] copies into COMPLETE. *)
Theorem counters_account_for_every_image :
  (∀ node stats w,
     (hasResolvedUrl node = false → process node stats w = (None, node, stats, w))
     ∧ (hasResolvedUrl node = true →
        Counted stats (process node stats w).1.2 (process node stats w).1.1.1))
  ∧ accounted initialStats
  ∧ (∀ nodes stats w,
       accounted stats →
       accounted (processMany cfg fetchAndConvert nodes stats w).1)
  ∧ (∀ nodes w,
       accounted (processMany cfg fetchAndConvert nodes initialStats w).1)
  ∧ (∀ (wsOpen : Z → bool) (st : StreamController.State World),
       wsOpen (StreamController.sequenceNumber st) = true →
       StreamController.ws (StreamController.sendComplete wsOpen st)
       = StreamController.ws st
         ++ [COMPLETE (StreamController.totalNodes st)
               (totalImages (StreamController.imageProcessor st))
               (inlineImages (StreamController.imageProcessor st))
               (streamedImages (StreamController.imageProcessor st))
               (StreamController.sequenceNumber st)]).
Proof.
  split; [|split; [done|split; [|split]]].
  - intros node stats w. split.
    + apply process_no_source.
    + apply process_counted.
  - intros nodes stats w. apply processMany_accounted.
  - intros nodes w. by apply processMany_accounted.
  - intros wsOpen st Hopen.
    unfold StreamController.sendComplete, StreamController.sendNumbered,
      StreamController.send. simpl. by rewrite Hopen.
Qed.

End Processor.

Lemma chunked_iff_at_least_threshold_witness :
  let cfg := mkCONFIG 100000 65536 15000 30000 5 in
  let node := Example.sourcedNode "n1" "https://example.org/a.png" in
  (∃ node' stats',
     processImageForNode cfg (Example.fetchBytes 99999) node initialStats tt
     = (Some (replicate (Z.to_nat 99999) Byte.x00, false), node', stats', tt))
  ∧ (∃ node' stats',
       processImageForNode cfg (Example.fetchBytes 100000) node initialStats tt
       = (Some (replicate (Z.to_nat 100000) Byte.x00, true), node', stats', tt)).
Proof.
  intros cfg node. split.
  - destruct (chunked_iff_at_least_threshold cfg (Example.fetchBytes 99999) node
                initialStats tt tt
                (mkImageSource "https://example.org/a.png"
                   "https://example.org/a.png" "img" None None None)
                (mkProcessingResult true
                   (Some (replicate (Z.to_nat 99999) Byte.x00))
                   (Some "png") (Some "png") None)
                (replicate (Z.to_nat 99999) Byte.x00))
      as (shouldStream & node' & stats' & Hrun & _ & Hboundary);
      [reflexivity..|].
    destruct (Hboundary eq_refl) as [Hinline _].
    rewrite Hinline in Hrun; [eauto|].
    rewrite length_replicate. vm_compute; reflexivity.
  - destruct (chunked_iff_at_least_threshold cfg (Example.fetchBytes 100000) node
                initialStats tt tt
                (mkImageSource "https://example.org/a.png"
                   "https://example.org/a.png" "img" None None None)
                (mkProcessingResult true
                   (Some (replicate (Z.to_nat 100000) Byte.x00))
                   (Some "png") (Some "png") None)
                (replicate (Z.to_nat 100000) Byte.x00))
      as (shouldStream & node' & stats' & Hrun & _ & Hboundary);
      [reflexivity..|].
    destruct (Hboundary eq_refl) as [_ Hchunked].
    rewrite Hchunked in Hrun; [eauto|].
    rewrite length_replicate. vm_compute; reflexivity.
Defined.

End ImageProcessorFacts.

(** ** Facts on chunking and reassembly together *)

Module RoundTripFacts.
Import IR Config ImageAssembler ImageAssemblerFacts.

Lemma seqZ_to_nat m n : seqZ m n = seqZ m (Z.of_nat (Z.to_nat n)).
Proof. unfold seqZ. by rewrite Nat2Z.id. Qed.

Lemma chunksUpTo_lookup f k i :
  chunksUpTo f k !! i
  = if decide (0 ≤ i < Z.of_nat k) then Some (f i) else None.
Proof.
  induction k as [|k IH]; simpl.
  - rewrite lookup_empty. case_decide; [lia|done].
  - destruct (decide (i = Z.of_nat k)) as [->|Hne].
    + rewrite lookup_insert_eq. rewrite decide_True; [done|lia].
    + rewrite lookup_insert_ne by done. rewrite IH.
      repeat case_decide; (done || lia).
Qed.

Lemma chunkSizes_concat cs indices :
  chunkSizes cs indices
  = length (concat (map (λ i, default [] (cs !! i)) indices)).
Proof.
  induction indices as [|i l IH]; simpl; [done|].
  by rewrite length_app, IH.
Qed.

Lemma chunksUpTo_found f k :
  map (λ i, default [] (chunksUpTo f k !! i)) (seqZ 0 (Z.of_nat k))
  = map f (seqZ 0 (Z.of_nat k)).
Proof.
  apply map_ext_in. intros i Hin%list_elem_of_In%elem_of_seqZ.
  rewrite chunksUpTo_lookup, decide_True; [done|lia].
Qed.

Lemma totalSize_chunksUpTo f k :
  totalSize (chunksUpTo f k)
  = length (concat (map f (seqZ 0 (Z.of_nat k)))).
Proof.
  induction k as [|k IH]; [done|].
  rewrite seqZ_S, Z.add_0_l, map_app, concat_app, length_app. simpl.
  rewrite app_nil_r, <- IH. unfold totalSize.
  rewrite map_fold_insert_L; [lia| |].
  - intros; lia.
  - rewrite chunksUpTo_lookup, decide_False; [done|lia].
Qed.

(** The slices of a buffer, put one after the other, are a prefix of it. *)
Lemma concat_slices (buf : Bytes) (c k : nat) :
  concat (map (λ i, take c (drop (Z.to_nat i * c) buf)) (seqZ 0 (Z.of_nat k)))
  = take (k * c) buf.
Proof.
  induction k as [|k IH]; [done|].
  rewrite seqZ_S, Z.add_0_l, map_app, concat_app, IH. simpl.
  rewrite app_nil_r, Nat2Z.id, take_take_drop. f_equal. lia.
Qed.

Lemma ceil_div_covers a b : 0 < b → 0 ≤ a → a ≤ StreamController.ceil_div a b * b.
Proof.
  intros Hb Ha. unfold StreamController.ceil_div.
  pose proof (Z.div_mod (a + b - 1) b ltac:(lia)) as Hdm.
  pose proof (Z.mod_pos_bound (a + b - 1) b Hb). nia.
Qed.

Lemma ceil_div_pos a b : 0 < b → 0 < a → 0 < StreamController.ceil_div a b.
Proof.
  intros Hb Ha. unfold StreamController.ceil_div. apply Z.div_str_pos. lia.
Qed.

Lemma ceil_div_nonneg a b : 0 < b → 0 ≤ a → 0 ≤ StreamController.ceil_div a b.
Proof. intros Hb Ha. unfold StreamController.ceil_div. apply Z.div_pos; lia. Qed.

Lemma Buffer_slice_chunk (buf : Bytes) (size i : Z) :
  0 < size → 0 ≤ i →
  Buffer_slice buf (i * size)
    (Z.min (i * size + size) (Z.of_nat (length buf)))
  = take (Z.to_nat size) (drop (Z.to_nat i * Z.to_nat size) buf).
Proof.
  intros Hsize Hi. unfold Buffer_slice.
  rewrite Z2Nat.inj_mul by lia.
  set (start := (Z.to_nat i * Z.to_nat size)%nat).
  assert (Z.of_nat start = i * size) as Hstart by (subst start; lia).
  destruct (decide (length buf ≤ start)%nat) as [Hout|Hin].
  - by rewrite drop_ge, !take_nil by done.
  - destruct (decide (i * size + size ≤ Z.of_nat (length buf))) as [Hfull|Hlast].
    + rewrite Z.min_l by done. f_equal. lia.
    + rewrite Z.min_r by lia. rewrite Nat2Z.id.
      rewrite !take_ge; [done| |]; rewrite length_drop; lia.
Qed.

Section RoundTrip.

Import StreamController.

Context {World : Type}.
Context (cfg : CONFIG).
Context (wsOpen : Z → bool) (Date_now : Z → Z).
(** The transport is reliable: the socket stays open during the session. *)
Context (Hopen : ∀ n, wsOpen n = true).

Lemma sendNumbered_open build (st : State World) :
  sendNumbered wsOpen build st
  = StreamController.mkState (sequenceNumber st + 1) (imageProcessor st)
      (totalNodes st) (ws st ++ [build (sequenceNumber st)]) (world st).
Proof. unfold sendNumbered, send. simpl. by rewrite Hopen. Qed.

Lemma sendChunks_open node buf total (st : State World) :
  foldl (sendChunk cfg wsOpen Date_now node buf total) st (seqZ 0 total)
  = StreamController.mkState
      (sequenceNumber st + Z.of_nat (Z.to_nat total))
      (imageProcessor st) (totalNodes st)
      (ws st ++ map (λ i, chunkMessage cfg Date_now node buf total i
                            (sequenceNumber st + i)) (seqZ 0 total))
      (world st).
Proof.
  rewrite (seqZ_to_nat 0 total). generalize (Z.to_nat total) as k.
  induction k as [|k IH].
  - simpl. destruct st; simpl. by rewrite Z.add_0_r, app_nil_r.
  - rewrite seqZ_S, Z.add_0_l, foldl_app, IH, map_app. simpl.
    unfold sendChunk at 1. rewrite sendNumbered_open. simpl.
    rewrite <- app_assoc. f_equal. lia.
Qed.

Lemma chunkMessage_spec node buf i n :
  0 < IMAGE_CHUNK_SIZE cfg → 0 ≤ i →
  chunkMessage cfg Date_now node buf
    (ceil_div (Z.of_nat (length buf)) (IMAGE_CHUNK_SIZE cfg)) i (n + i)
  = specChunk cfg Date_now node buf n i.
Proof.
  intros Hsize Hi. unfold chunkMessage, specChunk.
  by rewrite Buffer_slice_chunk.
Qed.

Lemma chunkMessages_spec node buf n :
  0 < IMAGE_CHUNK_SIZE cfg →
  let count := ceil_div (Z.of_nat (length buf)) (IMAGE_CHUNK_SIZE cfg) in
  map (λ i, chunkMessage cfg Date_now node buf count i (n + i)) (seqZ 0 count)
  = map (specChunk cfg Date_now node buf n) (seqZ 0 count).
Proof.
  intros Hsize count. apply map_ext_in.
  intros i Hin%list_elem_of_In%elem_of_seqZ. apply chunkMessage_spec; lia.
Qed.

(** The buffer after the first [k] chunks of an item have been dispatched. *)
Lemma deliver_chunks (arrival : Z → Z) node buf n (b : Buffers) (k : nat) :
  b !! id node = None → (1 ≤ k)%nat →
  foldl (λ b m, Consumer.addChunkMessage (arrival (IR.sequenceNumber m)) b m) b
        (map (specChunk cfg Date_now node buf n) (seqZ 0 (Z.of_nat k)))
  = <[id node :=
        {| nodeId := id node;
           chunks :=
             chunksUpTo
               (λ i, take (Z.to_nat (IMAGE_CHUNK_SIZE cfg))
                       (drop (Z.to_nat i * Z.to_nat (IMAGE_CHUNK_SIZE cfg)) buf))
               k;
           ImageAssembler.totalChunks :=
             ceil_div (Z.of_nat (length buf)) (IMAGE_CHUNK_SIZE cfg);
           receivedChunks := Z.of_nat k;
           createdAt := arrival n |}]> b.
Proof.
  intros Hb Hk. induction k as [|k IH]; [lia|].
  rewrite seqZ_S, Z.add_0_l, map_app, foldl_app.
  destruct (decide (k = 0)%nat) as [->|Hk'].
  - simpl. rewrite addChunk_absent by done.
    rewrite Uint8Array_of_Array_from, Z.add_0_r. done.
  - rewrite IH by lia. simpl.
    erewrite addChunk_present by apply lookup_insert_eq. simpl.
    rewrite chunksUpTo_lookup, decide_False by lia.
    rewrite insert_insert_eq, Uint8Array_of_Array_from.
    do 2 f_equal. lia.
Qed.

(** C2. The chunks that the controller sends for a buffer of at least one
    byte, dispatched to [addChunk] in the order they were sent, complete the
    entry, and [assemble] then returns the bytes of the buffer. *)
Theorem chunks_reassemble_to_source (node : IRNode) (buf : Bytes)
    (st : State World) (b : Buffers) (arrival : Z → Z) :
  0 < IMAGE_CHUNK_SIZE cfg →
  (1 ≤ length buf)%nat →
  b !! id node = None →
  let count := ceil_div (Z.of_nat (length buf)) (IMAGE_CHUNK_SIZE cfg) in
  let st' :=
    foldl (sendChunk cfg wsOpen Date_now node buf count) st (seqZ 0 count) in
  let sent := drop (length (ws st)) (ws st') in
  let b' :=
    foldl (λ b m, Consumer.addChunkMessage (arrival (IR.sequenceNumber m)) b m)
          b sent in
  1 ≤ count
  ∧ length sent = Z.to_nat count
  ∧ isComplete (id node) b' = true
  ∧ assemble (id node) b' = (Return (Some buf), b).
Proof.
  intros Hsize Hlen Hb count st' sent b'.
  assert (1 ≤ count) as Hcount.
  { pose proof (ceil_div_pos (Z.of_nat (length buf)) (IMAGE_CHUNK_SIZE cfg)).
    subst count. lia. }
  assert (sent = map (specChunk cfg Date_now node buf (sequenceNumber st))
                     (seqZ 0 count)) as Hsent.
  { subst sent st'. rewrite sendChunks_open. simpl.
    rewrite drop_app_length. by apply chunkMessages_spec. }
  assert (count = Z.of_nat (Z.to_nat count)) as Hnat by lia.
  split; [done|]. split.
  { rewrite Hsent, length_map, length_seqZ. done. }
  subst b'. rewrite Hsent, (seqZ_to_nat 0 count).
  rewrite deliver_chunks by (done || lia).
  set (f := λ i : Z, take (Z.to_nat (IMAGE_CHUNK_SIZE cfg))
                       (drop (Z.to_nat i * Z.to_nat (IMAGE_CHUNK_SIZE cfg)) buf)).
  assert (concat (map f (seqZ 0 (Z.of_nat (Z.to_nat count)))) = buf) as Hcat.
  { subst f. rewrite concat_slices. apply take_ge.
    pose proof (ceil_div_covers (Z.of_nat (length buf)) (IMAGE_CHUNK_SIZE cfg)).
    subst count. nia. }
  match goal with |- isComplete _ ?B = _ ∧ _ => set (full := B) end.
  assert (isComplete (id node) full = true) as Hfull.
  { unfold isComplete, full. rewrite lookup_insert_eq. simpl.
    apply bool_decide_eq_true_2. lia. }
  split; [done|]. unfold assemble. rewrite Hfull. unfold full.
  rewrite lookup_insert_eq. simpl.
  fold count. rewrite (seqZ_to_nat 0 count).
  rewrite (assemble_loop_all _ _ [] (totalSize (chunksUpTo f (Z.to_nat count)))).
  - rewrite chunkSizes_concat, chunksUpTo_found, totalSize_chunksUpTo.
    rewrite Nat.sub_diag, Hcat. simpl. rewrite app_nil_r.
    by rewrite delete_insert_id.
  - apply Forall_forall. intros i Hin%elem_of_seqZ.
    rewrite chunksUpTo_lookup, decide_True by lia. eauto.
  - rewrite chunkSizes_concat, chunksUpTo_found, totalSize_chunksUpTo. done.
Qed.

End RoundTrip.

End RoundTripFacts.

(** ** Facts on the stream controller *)

Module StreamControllerFacts.
Import IR Config ImageProcessor StreamController.
Import ImageProcessorFacts RoundTripFacts.

(** *** Loops and filtered arrays *)

Lemma for_step_inv {S : Type} (Inv : nat → S → Prop) (n step : nat)
    (body : nat → S → S) :
  (1 ≤ step)%nat →
  (∀ i s, (i < n)%nat → Inv i s → Inv (i + step)%nat (body i s)) →
  ∀ fuel i s, (n ≤ i + fuel)%nat → Inv i s →
  ∃ j, (n ≤ j)%nat ∧ Inv j (for_step fuel i n step body s).
Proof.
  intros Hstep Hbody. induction fuel as [|fuel IH]; intros i s Hfuel Hinv; simpl.
  - exists i. split; [lia|done].
  - case_decide as Hi.
    + apply IH; [lia|]. by apply Hbody.
    + exists i. split; [lia|done].
Qed.

Lemma filter_agree {A} (P1 P2 : A → Prop)
    `{!∀ x, Decision (P1 x), !∀ x, Decision (P2 x)} (l : list A) :
  Forall (λ x, P1 x ↔ P2 x) l → filter P1 l = filter P2 l.
Proof.
  induction 1 as [|x l Hx _ IH]; [done|].
  rewrite !filter_cons, IH. by repeat case_decide; try tauto.
Qed.

Lemma elem_of_positions {A} (keep : A → bool) (l : list A) p :
  p ∈ positions keep l ↔ ∃ x, l !! p = Some x ∧ keep x = true.
Proof.
  unfold positions. rewrite list_elem_of_filter, elem_of_seq. split.
  - intros [Hkeep _]. destruct (l !! p) as [x|]; [eauto|done].
  - intros (x & Hx & Hkeep). rewrite Hx. split; [done|].
    apply lookup_lt_Some in Hx. lia.
Qed.

Lemma NoDup_positions {A} (keep : A → bool) (l : list A) :
  NoDup (positions keep l).
Proof. apply NoDup_filter, NoDup_seq. Qed.

Lemma positions_snoc {A} (keep : A → bool) (l : list A) x :
  positions keep (l ++ [x])
  = positions keep l ++ (if keep x then [length l] else []).
Proof.
  unfold positions. rewrite length_app. simpl.
  rewrite Nat.add_1_r, seq_S, filter_app. simpl. f_equal.
  - apply filter_agree. apply Forall_forall. intros p Hp%elem_of_seq.
    by rewrite lookup_app_l by lia.
  - rewrite filter_cons, filter_nil.
    rewrite lookup_app_r, Nat.sub_diag by lia. simpl.
    destruct (keep x); by case_decide.
Qed.

(** The nodes at the positions that pass a filter are the filtered nodes. *)
Lemma positions_filter {A} (keep : A → bool) (l : list A) :
  Forall2 (λ p x, l !! p = Some x) (positions keep l)
          (filter (λ x, keep x = true) l).
Proof.
  induction l as [|x l IH] using rev_ind; [constructor|].
  rewrite positions_snoc, filter_app. apply Forall2_app.
  - eapply Forall2_impl; [exact IH|]. intros p y Hp. simpl in *.
    by apply lookup_app_l_Some.
  - rewrite filter_cons, filter_nil. destruct (keep x) eqn:Hx.
    + rewrite decide_True by done. repeat constructor.
      by rewrite lookup_app_r, Nat.sub_diag by lia.
    + rewrite decide_False by congruence. constructor.
Qed.

(** *** The steps of a session *)

Section Controller.

Context {World : Type}.
Context (cfg : CONFIG).
Context (fetchAndConvert : string → World → ProcessingResult * World).
Context (wsOpen : Z → bool) (Date_now : Z → Z).
(** The transport is reliable: the socket stays open during the session. *)
Context (Hopen : ∀ n, wsOpen n = true).

Abbreviation St := (State World).
Abbreviation process := (processImageForNode cfg fetchAndConvert).
Abbreviation processed := (processedNode cfg fetchAndConvert).
Abbreviation processAt := (processNodeAt cfg fetchAndConvert).

Lemma processAt_missing (nodes : list IRNode) (st : St) p :
  nodes !! p = None → processAt (nodes, st) p = (nodes, st).
Proof. intros H. unfold processNodeAt. by rewrite H. Qed.

Lemma processAt_found (nodes : list IRNode) (st : St) p node :
  nodes !! p = Some node →
  processAt (nodes, st) p
  = (<[p := processed node (imageProcessor st) (world st)]> nodes,
     StreamController.mkState (sequenceNumber st)
       (process node (imageProcessor st) (world st)).1.2
       (totalNodes st) (ws st)
       (process node (imageProcessor st) (world st)).2).
Proof.
  intros H. unfold processNodeAt, processedNode. rewrite H.
  destruct (process node (imageProcessor st) (world st))
    as [[[result node1] stats'] w'].
  by destruct result as [[buf shouldStream]|].
Qed.

Lemma processAt_sent (acc : list IRNode * St) p :
  ws (processAt acc p).2 = ws acc.2
  ∧ sequenceNumber (processAt acc p).2 = sequenceNumber acc.2
  ∧ totalNodes (processAt acc p).2 = totalNodes acc.2.
Proof.
  destruct acc as [nodes st]. destruct (nodes !! p) as [node|] eqn:Hp.
  - by rewrite (processAt_found _ _ _ _ Hp).
  - by rewrite processAt_missing.
Qed.

Lemma processAt_sameCore (nodes : list IRNode) (st1 st2 : St) p :
  sameCore st1 st2 →
  (processAt (nodes, st1) p).1 = (processAt (nodes, st2) p).1
  ∧ sameCore (processAt (nodes, st1) p).2 (processAt (nodes, st2) p).2.
Proof.
  intros (Hstats & Htotal & Hworld).
  destruct (nodes !! p) as [node|] eqn:Hp.
  - rewrite !(processAt_found _ _ _ _ Hp). simpl.
    rewrite Hstats, Hworld. by repeat split.
  - rewrite !processAt_missing by done. by repeat split.
Qed.

Lemma foldl_processAt_sameCore ps : ∀ (nodes : list IRNode) (st1 st2 : St),
  sameCore st1 st2 →
  (foldl processAt (nodes, st1) ps).1 = (foldl processAt (nodes, st2) ps).1
  ∧ sameCore (foldl processAt (nodes, st1) ps).2
             (foldl processAt (nodes, st2) ps).2.
Proof.
  induction ps as [|p ps IH]; intros nodes st1 st2 Hcore; cbn [foldl]; [done|].
  destruct (processAt_sameCore nodes st1 st2 p Hcore) as [Hnodes Hcore'].
  destruct (processAt (nodes, st1) p) as [nodes1 st1'].
  destruct (processAt (nodes, st2) p) as [nodes2 st2']. cbn [fst snd] in *.
  subst nodes2. by apply IH.
Qed.

Lemma foldl_processAt_sent ps : ∀ (acc : list IRNode * St),
  ws (foldl processAt acc ps).2 = ws acc.2
  ∧ sequenceNumber (foldl processAt acc ps).2 = sequenceNumber acc.2
  ∧ totalNodes (foldl processAt acc ps).2 = totalNodes acc.2.
Proof.
  induction ps as [|p ps IH]; intros acc; cbn [foldl]; [done|].
  destruct (IH (processAt acc p)) as (-> & -> & ->). apply processAt_sent.
Qed.

(** [processAllImages] runs the callback on the image nodes in their order;
    on the socket it only adds PROGRESS messages of its own stage. *)
Lemma processAllImages_spec (nodes : list IRNode) (st : St) :
  let imageNodes := positions isImageWithSource nodes in
  let r := processAllImages cfg fetchAndConvert wsOpen nodes st in
  let r0 := foldl processAt (nodes, st) imageNodes in
  r.1 = r0.1
  ∧ sameCore r.2 r0.2
  ∧ ∃ progress,
      ws r.2 = ws st ++ progress
      ∧ Forall isProcessingProgress progress
      ∧ sequenceNumber r.2 = sequenceNumber st + Z.of_nat (length progress)
      ∧ (imageNodes = [] ↔ progress = []).
Proof.
  intros imageNodes r r0. subst r. unfold processAllImages. fold imageNodes.
  case_decide as Hnone.
  { subst r0. apply nil_length_inv in Hnone. rewrite Hnone. simpl.
    repeat split. exists []. rewrite app_nil_r. simpl.
    split; [done|]. split; [constructor|]. split; [lia|done]. }
  assert (imageNodes ≠ []) as Hsome.
  { intros Hnil. by rewrite Hnil in Hnone. }
  set (concurrency := Z.to_nat (Z.max 1 (MAX_CONCURRENT_IMAGES cfg))).
  match goal with |- context [for_step _ _ _ _ ?f _] => set (body := f) end.
  destruct (for_step_inv
    (λ i (acc : list IRNode * St),
       acc.1 = (foldl processAt (nodes, st) (take i imageNodes)).1
       ∧ sameCore acc.2 (foldl processAt (nodes, st) (take i imageNodes)).2
       ∧ ∃ progress,
           ws acc.2 = ws st ++ progress
           ∧ Forall isProcessingProgress progress
           ∧ sequenceNumber acc.2
             = sequenceNumber st + Z.of_nat (length progress)
           ∧ (i = 0%nat ∨ progress ≠ []))
    (length imageNodes) concurrency body) with
    (fuel := length imageNodes) (i := 0%nat) (s := (nodes, st))
    as (j & Hj & Hnodes & Hcore & progress & Hws & Hprog & Hseq & Hwaves).
  - subst concurrency. lia.
  - intros i [nodes1 st1] Hi (Hn1 & Hc1 & progress & Hws & Hprog & Hseq & _).
    simpl in *. subst body. simpl.
    rewrite <- take_take_drop, foldl_app.
    destruct (foldl processAt (nodes, st) (take i imageNodes))
      as [nodes0 st0] eqn:Hfold. simpl in *. subst nodes1.
    pose proof (foldl_processAt_sameCore (take concurrency (drop i imageNodes))
                  nodes0 st1 st0 Hc1) as [Hn2 Hc2].
    pose proof (foldl_processAt_sent (take concurrency (drop i imageNodes))
                  (nodes0, st1)) as (Hws2 & Hseq2 & Htot2).
    destruct (foldl processAt (nodes0, st1) _) as [nodes2 st2]. simpl in *.
    split; [done|]. unfold sendProgress. rewrite sendNumbered_open by done.
    simpl. split; [exact Hc2|].
    eexists (progress ++ [_]). rewrite Hws2, Hws, <- app_assoc.
    split; [done|]. split.
    + apply Forall_app. split; [done|]. by repeat constructor.
    + split; [rewrite length_app; simpl; lia|].
      right. by intros [_ ?]%app_eq_nil.
  - lia.
  - simpl. repeat split. exists []. rewrite app_nil_r. simpl.
    split; [done|]. split; [constructor|]. split; [lia|by left].
  - rewrite take_ge in Hnodes, Hcore by done.
    split; [done|]. split; [done|]. exists progress.
    do 3 (split; [done|]). split; [done|].
    intros ->. destruct Hwaves as [->|?]; [|done].
    destruct imageNodes; [done|simpl in Hj; lia].
Qed.

(** *** What the callback does to a node and to the counters *)

Lemma processed_no_source node stats w :
  hasResolvedUrl node = false → processed node stats w = node.
Proof.
  intros H. unfold processedNode. by rewrite process_no_source.
Qed.

Lemma processed_cases node stats w :
  processed node stats w = node
  ∨ (∃ meta, processed node stats w = setProcessing node meta)
  ∨ (∃ meta buf shouldStream,
       processed node stats w
       = attachResult cfg (setProcessing node meta) buf shouldStream).
Proof.
  unfold processedNode, processImageForNode.
  destruct (imageSource node) as [source|]; [|by left].
  destruct (negb (truthy (resolvedUrl source))); [by left|].
  destruct (fetchAndConvert (resolvedUrl source) w) as [result w1].
  destruct (success result), (buffer result) as [buf|]; eauto 10.
Qed.

Lemma processed_id node stats w : id (processed node stats w) = id node.
Proof.
  destruct (processed_cases node stats w)
    as [->|[[meta ->]|(meta & buf & shouldStream & ->)]]; try done.
  unfold attachResult. by destruct shouldStream.
Qed.

Lemma processed_wellFormed node stats w :
  wellFormed cfg node → wellFormed cfg (processed node stats w).
Proof.
  intros Hwf.
  destruct (processed_cases node stats w)
    as [->|[[meta ->]|(meta & buf & shouldStream & ->)]]; try done.
  unfold attachResult. by destruct shouldStream.
Qed.







(** A property of the nodes that the callback keeps holds afterwards. *)
Lemma foldl_processAt_Forall (P : IRNode → Prop) ps :
  (∀ node stats w, P node → P (processed node stats w)) →
  ∀ (nodes : list IRNode) (st : St),
    Forall P nodes → Forall P (foldl processAt (nodes, st) ps).1.
Proof.
  intros Hkeep. induction ps as [|p ps IH]; intros nodes st HP; cbn [foldl];
    [done|].
  destruct (nodes !! p) as [node|] eqn:Hp.
  - rewrite (processAt_found _ _ _ _ Hp). apply IH.
    apply Forall_insert; [done|]. apply Hkeep.
    by eapply Forall_lookup_1.
  - rewrite processAt_missing by done. by apply IH.
Qed.

Lemma foldl_processAt_length ps : ∀ (nodes : list IRNode) (st : St),
  length (foldl processAt (nodes, st) ps).1 = length nodes.
Proof.
  induction ps as [|p ps IH]; intros nodes st; cbn [foldl]; [done|].
  destruct (nodes !! p) as [node|] eqn:Hp.
  - rewrite (processAt_found _ _ _ _ Hp), IH. apply length_insert.
  - by rewrite processAt_missing.
Qed.



(** *** The node batches *)

Lemma cloneForTransport_all (l : list IRNode) : map cloneForTransport l = l.
Proof. induction l as [|x l IH]; simpl; [done|]. by rewrite IH. Qed.

Lemma streamNodes_spec (nodes : list IRNode) (st : St) :
  let st' := streamNodes wsOpen nodes st in
  sameCore st' st
  ∧ ∃ batches,
      ws st' = ws st ++ batches
      ∧ Forall isNodes batches
      ∧ concat (map nodesOf batches) = nodes
      ∧ sequenceNumber st' = sequenceNumber st + Z.of_nat (length batches).
Proof.
  intros st'. subst st'. unfold streamNodes.
  match goal with |- context [for_step _ _ _ _ ?f _] => set (body := f) end.
  destruct (for_step_inv
    (λ i (st1 : St),
       sameCore st1 st
       ∧ ∃ batches,
           ws st1 = ws st ++ batches
           ∧ Forall isNodes batches
           ∧ concat (map nodesOf batches) = take i nodes
           ∧ sequenceNumber st1
             = sequenceNumber st + Z.of_nat (length batches))
    (length nodes) BATCH_SIZE body) with
    (fuel := length nodes) (i := 0%nat) (s := st)
    as (j & Hj & Hcore & batches & Hws & Hkind & Hcat & Hseq).
  - unfold BATCH_SIZE. lia.
  - intros i st1 Hi (Hcore & batches & Hws & Hkind & Hcat & Hseq).
    subst body. simpl. rewrite sendNumbered_open by done. simpl.
    split; [exact Hcore|].
    eexists (batches ++ [_]). rewrite Hws, <- app_assoc.
    split; [done|]. split; [|split].
    + apply Forall_app. split; [done|]. by repeat constructor.
    + rewrite map_app, concat_app, Hcat. simpl.
      by rewrite cloneForTransport_all, app_nil_r, take_take_drop.
    + rewrite length_app. simpl. lia.
  - lia.
  - split; [done|]. exists []. rewrite app_nil_r. simpl.
    repeat split; (done || lia).
  - split; [done|]. exists batches. rewrite take_ge in Hcat by done. done.
Qed.

(** *** The chunk stream *)

Lemma sendChunks_sameCore node buf total (st : St) :
  sameCore (foldl (sendChunk cfg wsOpen Date_now node buf total) st
              (seqZ 0 total)) st.
Proof using Hopen. by rewrite sendChunks_open. Qed.

Lemma lookups_insert_other {A} (l : list A) p v ps items :
  p ∉ ps →
  Forall2 (λ q y, l !! q = Some y) ps items →
  Forall2 (λ q y, <[p := v]> l !! q = Some y) ps items.
Proof.
  intros Hnotin Hat. induction Hat as [|q y ps items Hq Hat IH]; [constructor|].
  apply not_elem_of_cons in Hnotin as [Hne Hnotin]. constructor; [|by apply IH].
  by rewrite list_lookup_insert_ne.
Qed.

(** The outer loop of [streamImageChunks] from the [j]-th streamed node on,
    when the nodes at the remaining positions are [items]. *)
Lemma foldl_streamNodeAt streamed ps : ∀ items j (nodes : list IRNode) (st : St),
  0 < IMAGE_CHUNK_SIZE cfg →
  Forall2 (λ p x, nodes !! p = Some x) ps items →
  NoDup ps →
  Forall (wellFormed cfg) items →
  Forall (λ x, isStreamedNode x = true) items →
  let r :=
    foldl (streamNodeAt cfg wsOpen Date_now streamed) (nodes, st)
          (zip (seq j (length ps)) ps) in
  sameCore r.2 st
  ∧ ws r.2
    = ws st ++ specChunkStream cfg Date_now items j streamed (sequenceNumber st)
  ∧ sequenceNumber r.2
    = sequenceNumber st
      + Z.of_nat (length (specChunkStream cfg Date_now items j streamed
                            (sequenceNumber st))).
Proof using Hopen.
  induction ps as [|p ps IH]; intros items j nodes st Hsize Hat Hnd Hwf Hstr.
  - apply Forall2_nil_inv_l in Hat as ->. simpl.
    rewrite app_nil_r. repeat split. lia.
  - apply Forall2_cons_inv_l in Hat as (x & items' & Hp & Hat & ->).
    apply NoDup_cons in Hnd as [Hnotin Hnd].
    apply Forall_cons in Hwf as [Hwfx Hwf].
    apply Forall_cons in Hstr as [Hstrx Hstr].
    unfold wellFormed in Hwfx. unfold isStreamedNode in Hstrx.
    destruct (imageChunkRef x) as [ref|] eqn:Href; [|done].
    destruct (_imageBuffer x) as [buf|] eqn:Hbuf; [|done].
    subst ref.
    set (count := ceil_div (Z.of_nat (length buf)) (IMAGE_CHUNK_SIZE cfg)).
    assert (0 ≤ count) as Hcount.
    { apply ceil_div_nonneg; lia. }
    assert (streamNodeAt cfg wsOpen Date_now streamed (nodes, st) (j, p)
            = (<[p := deleteImageBuffer x]> nodes,
               StreamController.mkState (sequenceNumber st + count + 1)
                 (imageProcessor st) (totalNodes st)
                 (ws st
                  ++ map (specChunk cfg Date_now x buf (sequenceNumber st))
                         (seqZ 0 count)
                  ++ [PROGRESS "streaming_images" (Z.of_nat j + 1)
                        (Z.of_nat streamed) (sequenceNumber st + count)])
                 (world st))) as Hstep.
    { unfold streamNodeAt. rewrite Hp, Hbuf, Href. cbn [totalChunks].
      fold count. rewrite sendChunks_open by done. unfold sendProgress.
      rewrite sendNumbered_open by done.
      cbn [sequenceNumber imageProcessor totalNodes ws world].
      rewrite (chunkMessages_spec cfg Date_now) by done. fold count.
      rewrite Z2Nat.id by done. by rewrite <- app_assoc. }
    cbn zeta. cbn [length seq zip zip_with foldl]. rewrite Hstep.
    match goal with |- context [foldl _ (?n, ?s) _] =>
      specialize (IH items' (S j) n s Hsize) end.
    destruct IH as (Hcore & Hws & Hseq); [|done..|].
    { by apply lookups_insert_other. }
    cbn [sequenceNumber imageProcessor totalNodes ws world] in *.
    split; [exact Hcore|]. cbn [specChunkStream]. rewrite Hbuf. fold count.
    rewrite Hws, Hseq. rewrite <- !app_assoc. cbn [app]. split; [done|].
    rewrite !length_app, length_map, length_seqZ. cbn [length]. lia.
Qed.

Lemma streamImageChunks_spec (nodes : list IRNode) (st : St) :
  0 < IMAGE_CHUNK_SIZE cfg →
  Forall (wellFormed cfg) nodes →
  let items := filter (λ x, isStreamedNode x = true) nodes in
  let r := streamImageChunks cfg wsOpen Date_now nodes st in
  sameCore r.2 st
  ∧ ws r.2
    = ws st
      ++ specChunkStream cfg Date_now items 0 (length items) (sequenceNumber st)
  ∧ sequenceNumber r.2
    = sequenceNumber st
      + Z.of_nat (length (specChunkStream cfg Date_now items 0 (length items)
                            (sequenceNumber st))).
Proof using Hopen.
  intros Hsize Hwf items r. subst r. unfold streamImageChunks.
  pose proof (positions_filter isStreamedNode nodes) as Hat. fold items in Hat.
  pose proof (Forall2_length _ _ _ Hat) as Hlen.
  case_decide as Hnone.
  - rewrite Hnone in Hlen. symmetry in Hlen.
    apply nil_length_inv in Hlen. rewrite Hlen. simpl.
    rewrite app_nil_r. repeat split. lia.
  - rewrite <- Hlen.
    apply foldl_streamNodeAt; [done|done|apply NoDup_positions| |].
    + subst items. apply Forall_forall. intros x [_ Hx]%list_elem_of_filter.
      by eapply Forall_forall in Hwf.
    + subst items. apply Forall_forall. by intros x [Hx _]%list_elem_of_filter.
Qed.

(** Without any assumption on the nodes: only chunks and PROGRESS messages
    of the streaming stage are sent. *)
Lemma foldl_streamNodeAt_kinds streamed l : ∀ (acc : list IRNode * St),
  let r := foldl (streamNodeAt cfg wsOpen Date_now streamed) acc l in
  sameCore r.2 acc.2
  ∧ ∃ sent,
      ws r.2 = ws acc.2 ++ sent
      ∧ Forall (λ m, isImageChunk m ∨ isStreamingProgress m) sent
      ∧ sequenceNumber r.2 = sequenceNumber acc.2 + Z.of_nat (length sent).
Proof using Hopen.
  induction l as [|[j p] l IH]; intros [nodes st]; cbn zeta; cbn [foldl].
  - split; [done|]. exists []. rewrite app_nil_r. simpl.
    repeat split; (done || lia).
  - assert (sameCore (streamNodeAt cfg wsOpen Date_now streamed (nodes, st) (j, p)).2 st
            ∧ ∃ sent,
                ws (streamNodeAt cfg wsOpen Date_now streamed (nodes, st) (j, p)).2
                = ws st ++ sent
                ∧ Forall (λ m, isImageChunk m ∨ isStreamingProgress m) sent
                ∧ sequenceNumber
                    (streamNodeAt cfg wsOpen Date_now streamed (nodes, st) (j, p)).2
                  = sequenceNumber st + Z.of_nat (length sent)) as Hstep.
    { unfold streamNodeAt.
      assert (sameCore st st ∧ ∃ sent, ws st = ws st ++ sent
                ∧ Forall (λ m, isImageChunk m ∨ isStreamingProgress m) sent
                ∧ sequenceNumber st = sequenceNumber st + Z.of_nat (length sent))
        as Hskip.
      { split; [done|]. exists []. rewrite app_nil_r. simpl.
        repeat split; (done || lia). }
      destruct (nodes !! p) as [x|]; [|exact Hskip].
      destruct (_imageBuffer x) as [buf|]; [|exact Hskip]. cbn [snd].
      rewrite sendChunks_open by done. unfold sendProgress.
      rewrite sendNumbered_open by done.
      cbn [sequenceNumber imageProcessor totalNodes ws world].
      split; [done|]. eexists (_ ++ [_]). rewrite <- app_assoc.
      split; [done|]. split.
      - apply Forall_app. split; [|by repeat constructor; right].
        apply Forall_forall. intros m (i & -> & _)%list_elem_of_fmap. by left.
      - rewrite length_app. cbn [length]. rewrite length_map, length_seqZ. lia. }
    destruct (streamNodeAt cfg wsOpen Date_now streamed (nodes, st) (j, p))
      as [nodes1 st1]. cbn [fst snd] in *.
    destruct Hstep as (Hcore1 & sent1 & Hws1 & Hk1 & Hseq1).
    destruct (IH (nodes1, st1)) as (Hcore2 & sent2 & Hws2 & Hk2 & Hseq2).
    cbn [fst snd] in *. split.
    + unfold sameCore in *. intuition congruence.
    + exists (sent1 ++ sent2). rewrite Hws2, Hws1, <- app_assoc.
      split; [done|]. split; [by apply Forall_app|].
      rewrite length_app. lia.
Qed.

Lemma streamImageChunks_kinds (nodes : list IRNode) (st : St) :
  let r := streamImageChunks cfg wsOpen Date_now nodes st in
  sameCore r.2 st
  ∧ ∃ sent,
      ws r.2 = ws st ++ sent
      ∧ Forall (λ m, isImageChunk m ∨ isStreamingProgress m) sent
      ∧ sequenceNumber r.2 = sequenceNumber st + Z.of_nat (length sent).
Proof using Hopen.
  cbn zeta. unfold streamImageChunks. case_decide.
  - split; [done|]. exists []. rewrite app_nil_r. simpl.
    repeat split; (done || lia).
  - apply (foldl_streamNodeAt_kinds _ _ (nodes, st)).
Qed.

(** *** The whole session *)

(** The socket after [streamExtractedPage]: the PROGRESS messages of the
    processing stage, TOKENS and FONTS when there are any, the node batches,
    the chunk stream, COMPLETE. *)
Lemma session_shape (payload : StreamPayload) (st : St) :
  let nodes1 := attachImageSources (nodes payload) in
  let st0 :=
    StreamController.mkState (sequenceNumber st) (imageProcessor st)
      (Z.of_nat (length (nodes payload))) (ws st) (world st) in
  let r0 := foldl processAt (nodes1, st0) (positions isImageWithSource nodes1) in
  let stats := imageProcessor r0.2 in
  let r :=
    streamExtractedPage cfg fetchAndConvert wsOpen Date_now payload st in
  ∃ progress tokensPart fontsPart batches chunks,
    ws r.2
    = ws st ++ progress ++ tokensPart ++ fontsPart ++ batches ++ chunks
      ++ [COMPLETE (Z.of_nat (length (nodes payload))) (totalImages stats)
            (inlineImages stats) (streamedImages stats)
            (sequenceNumber st
             + Z.of_nat (length (progress ++ tokensPart ++ fontsPart
                                   ++ batches ++ chunks)))]
    ∧ imageProcessor r.2 = stats
    ∧ sequenceNumber r.2
      = sequenceNumber st
        + Z.of_nat (length (progress ++ tokensPart ++ fontsPart
                              ++ batches ++ chunks)) + 1
    ∧ Forall isProcessingProgress progress
    ∧ (positions isImageWithSource nodes1 = [] ↔ progress = [])
    ∧ tokensPart
      = match tokens payload with
        | Some t => [TOKENS t (sequenceNumber st + Z.of_nat (length progress))]
        | None => []
        end
    ∧ Forall isFonts fontsPart
    ∧ Forall isNodes batches
    ∧ concat (map nodesOf batches) = r0.1
    ∧ Forall (λ m, isImageChunk m ∨ isStreamingProgress m) chunks
    ∧ (0 < IMAGE_CHUNK_SIZE cfg → Forall (wellFormed cfg) r0.1 →
       let items := filter (λ x, isStreamedNode x = true) r0.1 in
       chunks
       = specChunkStream cfg Date_now items 0 (length items)
           (sequenceNumber st
            + Z.of_nat (length (progress ++ tokensPart ++ fontsPart
                                  ++ batches)))).
Proof using Hopen.
  intros nodes1 st0 r0 stats r. subst r. unfold streamExtractedPage.
  fold nodes1. fold st0.
  pose proof (processAllImages_spec nodes1 st0) as Hproc. cbn zeta in Hproc.
  fold r0 in Hproc.
  destruct (processAllImages cfg fetchAndConvert wsOpen nodes1 st0)
    as [nodes2 st1]. cbn [fst snd] in Hproc.
  destruct Hproc as (-> & (Hstats1 & Htotal1 & Hworld1)
                        & progress & Hws1 & Hprogress & Hseq1 & Hquiet).
  set (tokensPart :=
         match tokens payload with
         | Some t => [TOKENS t (sequenceNumber st + Z.of_nat (length progress))]
         | None => []
         end).
  set (st2 := match tokens payload with
              | Some t => sendNumbered wsOpen (TOKENS t) st1
              | None => st1
              end).
  assert (sameCore st2 st1 ∧ ws st2 = ws st1 ++ tokensPart
          ∧ sequenceNumber st2
            = sequenceNumber st1 + Z.of_nat (length tokensPart))
    as (Hcore2 & Hws2 & Hseq2).
  { subst st2 tokensPart. destruct (tokens payload) as [t|].
    - rewrite sendNumbered_open by done. simpl. rewrite Hseq1.
      repeat split; try done; lia.
    - rewrite app_nil_r. simpl. repeat split; try done; lia. }
  set (st3 := if decide (0 < length (fonts payload))%nat
              then sendNumbered wsOpen (FONTS (fonts payload)) st2 else st2).
  assert (∃ fontsPart, sameCore st3 st2 ∧ ws st3 = ws st2 ++ fontsPart
          ∧ Forall isFonts fontsPart
          ∧ sequenceNumber st3
            = sequenceNumber st2 + Z.of_nat (length fontsPart))
    as (fontsPart & Hcore3 & Hws3 & Hfonts & Hseq3).
  { subst st3. case_decide.
    - rewrite sendNumbered_open by done. simpl. eexists [_].
      split; [done|]. split; [done|]. split; [by repeat constructor|].
      simpl; lia.
    - exists []. rewrite app_nil_r. simpl.
      split; [done|]. split; [done|]. split; [constructor|lia]. }
  pose proof (streamNodes_spec r0.1 st3) as Hnodes. cbn zeta in Hnodes.
  set (st4 := streamNodes wsOpen r0.1 st3) in *.
  destruct Hnodes as (Hcore4 & batches & Hws4 & Hbatches & Hcat & Hseq4).
  pose proof (streamImageChunks_kinds r0.1 st4) as Hkinds.
  pose proof (streamImageChunks_spec r0.1 st4) as Hexact.
  cbn zeta in Hkinds, Hexact.
  destruct (streamImageChunks cfg wsOpen Date_now r0.1 st4) as [nodes3 st5].
  cbn [fst snd] in *.
  destruct Hkinds as (Hcore5 & chunks & Hws5 & Hchunks & Hseq5).
  exists progress, tokensPart, fontsPart, batches, chunks.
  unfold sendComplete. rewrite sendNumbered_open by done.
  cbn [sequenceNumber imageProcessor totalNodes ws world].
  assert (imageProcessor st5 = stats) as Hstats5.
  { subst stats. unfold sameCore in *. intuition congruence. }
  assert (totalNodes st5 = Z.of_nat (length (nodes payload))) as Htotal5.
  { pose proof (foldl_processAt_sent (positions isImageWithSource nodes1)
                  (nodes1, st0)) as (_ & _ & Ht). fold r0 in Ht.
    unfold sameCore in *. simpl in Ht. intuition congruence. }
  rewrite Hstats5, Htotal5.
  split.
  { rewrite Hws5, Hws4, Hws3, Hws2, Hws1. subst st0. simpl.
    rewrite <- !app_assoc. do 6 f_equal.
    rewrite Hseq5, Hseq4, Hseq3, Hseq2, Hseq1. simpl.
    rewrite !length_app. do 2 f_equal. lia. }
  split; [done|]. split.
  { rewrite Hseq5, Hseq4, Hseq3, Hseq2, Hseq1. simpl.
    rewrite !length_app. lia. }
  do 7 (split; [done|]).
  intros Hsize Hwf. destruct (Hexact Hsize Hwf) as (_ & Hws5' & _).
  rewrite Hws5 in Hws5'. apply app_inv_head in Hws5'. rewrite Hws5'.
  f_equal.
  rewrite Hseq4, Hseq3, Hseq2, Hseq1. subst st0. simpl.
  rewrite !length_app. lia.
Qed.

Lemma attachImageSource_keeps node :
  imageChunkRef (attachImageSource node) = imageChunkRef node
  ∧ _imageBuffer (attachImageSource node) = _imageBuffer node
  ∧ id (attachImageSource node) = id node
  ∧ imageData (attachImageSource node) = imageData node.
Proof.
  unfold attachImageSource. destruct (negb _); [done|].
  destruct (image node) as [img|]; [|done]. by destruct (negb _).
Qed.

Lemma raw_wellFormed node : raw node → wellFormed cfg node.
Proof. intros [Href Hbuf]. unfold wellFormed. by rewrite Href, Hbuf. Qed.

Lemma attachImageSources_wellFormed nodes :
  Forall raw nodes → Forall (wellFormed cfg) (attachImageSources nodes).
Proof.
  intros Hraw. unfold attachImageSources. apply Forall_fmap.
  eapply Forall_impl; [exact Hraw|]. intros node [Href Hbuf]. simpl.
  destruct (attachImageSource_keeps node) as (Href' & Hbuf' & _).
  unfold wellFormed. by rewrite Href', Hbuf', Href, Hbuf.
Qed.

Lemma processAllImages_wellFormed (nodes : list IRNode) (st : St) :
  Forall (wellFormed cfg) nodes →
  Forall (wellFormed cfg)
    (processAllImages cfg fetchAndConvert wsOpen nodes st).1.
Proof using Hopen.
  intros Hwf. destruct (processAllImages_spec nodes st) as [-> _].
  apply foldl_processAt_Forall; [|done]. apply processed_wellFormed.
Qed.

(** *** A node whose fetch fails *)

Lemma foldl_processAt_ids ps : ∀ (nodes : list IRNode) (st : St),
  map id (foldl processAt (nodes, st) ps).1 = map id nodes.
Proof.
  induction ps as [|p ps IH]; intros nodes st; cbn [foldl]; [done|].
  destruct (nodes !! p) as [node|] eqn:Hp.
  - rewrite (processAt_found _ _ _ _ Hp), IH.
    change (map id) with (fmap (M := list) id).
    rewrite list_fmap_insert, processed_id. apply list_insert_id.
    by rewrite list_lookup_fmap, Hp.
  - by rewrite processAt_missing.
Qed.

Lemma attachImageSources_ids nodes :
  map id (attachImageSources nodes) = map id nodes.
Proof.
  unfold attachImageSources. rewrite map_map. apply map_ext.
  intros node. by destruct (attachImageSource_keeps node) as (_ & _ & -> & _).
Qed.





(** C3, as the code has it. In a session whose payload has tokens, TOKENS is
    sent after the PROGRESS messages of the stage [processing_images], one
    per wave of image nodes, and before everything else: FONTS, the NODES
    batches, the chunks, the PROGRESS messages of the stage
    [streaming_images] and COMPLETE. It is the first message of the session
    exactly when the payload has no image node to process. *)
Theorem tokens_follow_processing_progress (payload : StreamPayload) (st : St)
    (t : Json) :
  tokens payload = Some t →
  let r :=
    streamExtractedPage cfg fetchAndConvert wsOpen Date_now payload st in
  ∃ before after,
    ws r.2
    = ws st ++ before
      ++ TOKENS t (sequenceNumber st + Z.of_nat (length before)) :: after
    ∧ Forall isProcessingProgress before
    ∧ (positions isImageWithSource (attachImageSources (nodes payload)) = []
       ↔ before = [])
    ∧ Forall (λ m, isFonts m ∨ isNodes m ∨ isImageChunk m
                   ∨ isStreamingProgress m ∨ isCompleteMessage m) after.
Proof using Hopen.
  intros Htokens r.
  destruct (session_shape payload st)
    as (progress & tokensPart & fontsPart & batches & chunks
        & Hws & _ & _ & Hprogress & Hwaves & Htok & Hfonts & Hbatches & _
        & Hchunks & _).
  rewrite Htokens in Htok. subst tokensPart.
  exists progress. eexists (fontsPart ++ batches ++ chunks ++ [_]).
  split; [exact Hws|]. split; [done|]. split; [done|].
  repeat (apply Forall_app; split).
  - eapply Forall_impl; [exact Hfonts|]. tauto.
  - eapply Forall_impl; [exact Hbatches|]. tauto.
  - eapply Forall_impl; [exact Hchunks|]. tauto.
  - constructor; [simpl; tauto|constructor].
Qed.

(** C6. For nodes as [processAllImages] leaves them and a positive chunk
    size, the chunk stream is the one of the specification: for every chunked
    item in turn, ceil(totalSize / chunkSize) IMAGE_CHUNK messages with the
    indices 0, 1, ... in this order, then one PROGRESS of the stage
    [streaming_images]. A payload of 300 KB cut in chunks of 64 KB gives 5
    chunks. *)
Theorem chunk_stream_per_item (nodes : list IRNode) (st : St) :
  0 < IMAGE_CHUNK_SIZE cfg →
  Forall (wellFormed cfg) nodes →
  let items := filter (λ x, isStreamedNode x = true) nodes in
  ws (streamImageChunks cfg wsOpen Date_now nodes st).2
  = ws st
    ++ specChunkStream cfg Date_now items 0 (length items) (sequenceNumber st)
  ∧ Forall (λ x, ∃ buf,
              _imageBuffer x = Some buf
              ∧ (totalSize <$> imageChunkRef x) = Some (Z.of_nat (length buf))
              ∧ (totalChunks <$> imageChunkRef x)
                = Some (ceil_div (Z.of_nat (length buf))
                          (IMAGE_CHUNK_SIZE cfg))) items
  ∧ (∀ (node : IRNode) (buf : Bytes) n,
       let count := ceil_div (Z.of_nat (length buf)) (IMAGE_CHUNK_SIZE cfg) in
       length (map (specChunk cfg Date_now node buf n) (seqZ 0 count))
       = Z.to_nat count
       ∧ omap chunkNodeId (map (specChunk cfg Date_now node buf n) (seqZ 0 count))
         = replicate (Z.to_nat count) (id node)
       ∧ (IMAGE_CHUNK_SIZE cfg = 64 * 1024 →
          Z.of_nat (length buf) = 300 * 1024 → count = 5)).
Proof using Hopen.
  intros Hsize Hwf items. split; [|split].
  - by destruct (streamImageChunks_spec nodes st Hsize Hwf) as (_ & Hws & _).
  - subst items. apply Forall_forall. intros x [Hx Hin]%list_elem_of_filter.
    eapply Forall_forall in Hwf; [|exact Hin].
    unfold wellFormed in Hwf. unfold isStreamedNode in Hx.
    destruct (imageChunkRef x) as [ref|]; [|done].
    destruct (_imageBuffer x) as [buf|]; [|done].
    exists buf. by subst ref.
  - intros node buf n count. split; [|split].
    + by rewrite length_map, length_seqZ.
    + rewrite (seqZ_to_nat 0 count). generalize (Z.to_nat count) as k.
      induction k as [|k IH]; [done|].
      by rewrite replicate_S_end, seqZ_S, map_app, omap_app, IH.
    + intros Hc Hl. subst count. rewrite Hc, Hl. reflexivity.
Qed.

End Controller.

End StreamControllerFacts.

(** ** Facts on the stream consumer *)

Module ConsumerFacts.
Import IR Consumer.

Section Consumer.

Context {SceneNode Figma : Type} `{!Renderer SceneNode Figma}.

Abbreviation CState := (@Consumer.State SceneNode Figma).

Lemma evolves_same (st st' : CState) :
  pendingImageNodes st' = pendingImageNodes st →
  history st' = history st →
  evolves st st'.
Proof.
  intros Hp Hh. exists []. rewrite app_nil_r, Hp. split; [done|]. split.
  - intros i. case_decide as Hin; [|done]. by apply elem_of_nil in Hin.
  - split; [constructor|]. by intros i ?%elem_of_nil.
Qed.

Lemma evolves_refl (st : CState) : evolves st st.
Proof. by apply evolves_same. Qed.

Lemma evolves_trans (st1 st2 st3 : CState) :
  evolves st1 st2 → evolves st2 st3 → evolves st1 st3.
Proof.
  intros (m1 & Hh1 & Hp1 & Hnd1 & Hin1) (m2 & Hh2 & Hp2 & Hnd2 & Hin2).
  exists (m1 ++ m2). rewrite Hh2, Hh1, app_assoc. split; [done|].
  rewrite fmap_app. split; [|split].
  - intros i. rewrite Hp2, Hp1.
    destruct (decide (i ∈ m2.*1)) as [H2|H2].
    + rewrite decide_True; [done|]. apply elem_of_app. by right.
    + destruct (decide (i ∈ m1.*1)) as [H1|H1].
      * rewrite decide_True; [done|]. apply elem_of_app. by left.
      * rewrite decide_False; [done|]. rewrite elem_of_app. tauto.
  - apply NoDup_app. split; [done|]. split; [|done].
    intros i H1 H2. apply Hin2 in H2 as [x Hx].
    rewrite Hp1, decide_True in Hx by done. done.
  - intros i [H1|H2]%elem_of_app; [by apply Hin1|].
    apply Hin2 in H2 as [x Hx]. rewrite Hp1 in Hx.
    destruct (decide (i ∈ m1.*1)); [done|]. by exists x.
Qed.

(** One pending item leaves the table and gets its fate. *)
Lemma evolves_settle (st st' : CState) nodeId fate :
  is_Some (pendingImageNodes st !! nodeId) →
  pendingImageNodes st' = delete nodeId (pendingImageNodes st) →
  history st' = history st ++ [(nodeId, fate)] →
  evolves st st'.
Proof.
  intros Hpending Hp Hh. exists [(nodeId, fate)]. split; [done|]. simpl.
  split; [|split].
  - intros i. rewrite Hp. destruct (decide (i = nodeId)) as [->|Hne].
    + rewrite lookup_delete_eq, decide_True; [done|]. apply list_elem_of_singleton. done.
    + rewrite lookup_delete_ne by done. rewrite decide_False; [done|].
      by intros ?%list_elem_of_singleton.
  - apply NoDup_singleton.
  - by intros i ->%list_elem_of_singleton.
Qed.

Lemma materialize_effect key node (st : CState) :
  pendingImageNodes (materialize key node st) = pendingImageNodes st
  ∧ imageAssembler (materialize key node st) = imageAssembler st
  ∧ ∃ fate, fate ≠ Placeholder
            ∧ history (materialize key node st) = history st ++ [(key, fate)].
Proof.
  unfold materialize.
  destruct (createEnhancedNode _ _ _ _ _) as [[fn|] f]; simpl;
    (split; [done|]; split; [done|]).
  - by exists Materialized.
  - by exists Skipped.
Qed.

Lemma createPendingImageNode_evolves nodeId (st : CState) :
  evolves st (createPendingImageNode nodeId st).
Proof.
  unfold createPendingImageNode.
  destruct (pendingImageNodes st !! nodeId) as [node|] eqn:Hp;
    [|apply evolves_refl].
  destruct (ImageAssembler.assemble nodeId (imageAssembler st))
    as [[[assembled|]|err] b]; [|by apply evolves_same..].
  match goal with |- context [materialize nodeId ?n ?s] =>
    destruct (materialize_effect nodeId n s) as (Hp' & _ & fate & _ & Hh')
  end.
  eapply evolves_settle with (nodeId := nodeId) (fate := fate); [by eauto| |].
  - simpl. by rewrite Hp'.
  - simpl. by rewrite Hh'.
Qed.

Lemma handleImageChunk_evolves now nodeId chunkIndex total data (st : CState) :
  evolves st (handleImageChunk now nodeId chunkIndex total data st).
Proof.
  unfold handleImageChunk. destruct (ImageAssembler.isComplete _ _).
  - eapply evolves_trans; [|apply createPendingImageNode_evolves].
    by apply evolves_same.
  - by apply evolves_same.
Qed.








(** *** Finalisation *)








(** *** Every delivered item is pending or settled *)

Lemma tracks_evolves ids (st st' : CState) :
  evolves st st' → tracks ids st → tracks ids st'.
Proof.
  intros (moved & Hh & Hp & Hnd & Hin) [Hcover Honce].
  assert (∀ i, is_Some (pendingImageNodes st' !! i)
               ↔ is_Some (pendingImageNodes st !! i) ∧ i ∉ moved.*1) as Hp'.
  { intros i. rewrite Hp. case_decide; split.
    - by intros [? ?].
    - tauto.
    - tauto.
    - tauto. }
  split.
  - intros i. rewrite Hcover, Hp', Hh, fmap_app, elem_of_app.
    specialize (Hin i). destruct (decide (i ∈ moved.*1)); tauto.
  - intros Hids. destruct (Honce Hids) as [Hndh Hdisj].
    rewrite Hh, fmap_app. split.
    + apply NoDup_app. split; [done|]. split; [|done].
      intros i Hi Hm. by apply (Hdisj i); [apply Hin|].
    + intros i [Hi Hm]%Hp' [Hh'|Hm']%elem_of_app; [|done].
      by apply (Hdisj i).
Qed.

Lemma handleNode_effect (st : CState) node :
  (isStreamedNode node = true
   ∧ pendingImageNodes (handleNode st node)
     = <[id node := node]> (pendingImageNodes st)
   ∧ history (handleNode st node) = history st)
  ∨ (isStreamedNode node = false
     ∧ pendingImageNodes (handleNode st node) = pendingImageNodes st
     ∧ ∃ fate, fate ≠ Placeholder
               ∧ history (handleNode st node) = history st ++ [(id node, fate)]).
Proof.
  unfold handleNode. destruct (isStreamedNode node); [by left|right].
  split; [done|].
  match goal with |- context [materialize (id node) node ?s] =>
    destruct (materialize_effect (id node) node s) as (Hp & _ & fate & ? & Hh)
  end.
  rewrite Hp, Hh. eauto.
Qed.

Lemma tracks_handleNode ids (st : CState) node :
  tracks ids st → tracks (ids ++ [id node]) (handleNode st node).
Proof.
  intros [Hcover Honce].
  destruct (handleNode_effect st node)
    as [(_ & Hp & Hh)|(_ & Hp & fate & _ & Hh)]; unfold tracks; rewrite Hp, Hh.
  - split.
    + intros i. rewrite elem_of_app, list_elem_of_singleton, Hcover.
      destruct (decide (i = id node)) as [->|Hne].
      * rewrite lookup_insert_eq. split; [|tauto]. intros _. left. eauto.
      * rewrite lookup_insert_ne by done. tauto.
    + intros [Hids [Hnew _]]%NoDup_app. destruct (Honce Hids) as [Hndh Hdisj].
      split; [done|]. intros i Hi Hh'.
      destruct (decide (i = id node)) as [->|Hne].
      * apply (Hnew (id node)); [|by apply list_elem_of_singleton].
        apply Hcover. by right.
      * rewrite lookup_insert_ne in Hi by done. by apply (Hdisj i).
  - rewrite fmap_app. simpl. split.
    + intros i. rewrite !elem_of_app, list_elem_of_singleton, Hcover. tauto.
    + intros [Hids [Hnew _]]%NoDup_app. destruct (Honce Hids) as [Hndh Hdisj].
      assert (id node ∉ ids) as Hfresh.
      { intros Hin. apply (Hnew (id node)); [done|].
        by apply list_elem_of_singleton. }
      split.
      * apply NoDup_app. split; [done|]. split; [|apply NoDup_singleton].
        intros i Hi Heq%list_elem_of_singleton. subst i.
        apply Hfresh, Hcover. by right.
      * intros i Hi [Hh'|Heq%list_elem_of_singleton]%elem_of_app.
        -- by apply (Hdisj i).
        -- subst i. apply Hfresh, Hcover. by left.
Qed.

Lemma tracks_postMessage ids m (st : CState) :
  tracks ids st → tracks ids (postMessage m st).
Proof. done. Qed.

Lemma tracks_batch nodes : ∀ ids (st : CState),
  tracks ids st → tracks (ids ++ map id nodes) (handleStreamNodeBatch nodes st).
Proof.
  unfold handleStreamNodeBatch. intros ids st Htracks.
  apply tracks_postMessage. revert ids st Htracks.
  induction nodes as [|node nodes IH]; intros ids st Htracks; simpl.
  - by rewrite app_nil_r.
  - rewrite (cons_middle (id node)), app_assoc. apply IH.
    by apply tracks_handleNode.
Qed.

Lemma run_beforeComplete tick fuel msgs : ∀ ids (st : CState),
  Forall beforeComplete msgs →
  ∃ st', run tick fuel msgs st = Some st'
         ∧ (tracks ids st → tracks (ids ++ delivered msgs) st').
Proof.
  induction msgs as [|[now m] msgs IH]; intros ids st Hall.
  - exists st. split; [done|]. unfold delivered. simpl. by rewrite app_nil_r.
  - apply Forall_cons in Hall as [[Htok Hcomp] Hall]. simpl in Htok, Hcomp.
    assert (∃ st1, onmessage tick fuel now m st = Some st1
                   ∧ (tracks ids st
                      → tracks (ids ++ delivered [(now, m)]) st1))
      as (st1 & Hst1 & Htracks1).
    { unfold delivered. destruct m; simpl in *; try done;
        eexists; (split; [done|]); rewrite ?app_nil_r; try done.
      - by apply tracks_batch.
      - apply tracks_evolves, handleImageChunk_evolves. }
    destruct (IH (ids ++ delivered [(now, m)]) st1 Hall) as (st' & Hrun & Htr).
    exists st'. simpl. rewrite Hst1. split; [done|].
    intros Htracks. specialize (Htr (Htracks1 Htracks)).
    unfold delivered in *. simpl in *. by rewrite app_nil_r, <- app_assoc in Htr.
Qed.

Lemma run_app tick fuel msgs1 : ∀ msgs2 (st : CState),
  run tick fuel (msgs1 ++ msgs2) st
  = match run tick fuel msgs1 st with
    | Some st1 => run tick fuel msgs2 st1
    | None => None
    end.
Proof.
  induction msgs1 as [|[now m] msgs1 IH]; intros msgs2 st; simpl; [done|].
  destruct (onmessage tick fuel now m st); [apply IH|done].
Qed.

End Consumer.

End ConsumerFacts.

(** ** Facts on a session from end to end *)

Module SessionFacts.
Import IR Config ImageProcessor Consumer.
Import StreamControllerFacts ConsumerFacts.

Section Session.

Context {World SceneNode Figma : Type} `{!Renderer SceneNode Figma}.
Context (cfg : CONFIG).
Context (fetchAndConvert : string → World → ProcessingResult * World).
Context (wsOpen : Z → bool) (Date_now : Z → Z).
Context (Hopen : ∀ n, wsOpen n = true).

Abbreviation CState := (@Consumer.State SceneNode Figma).












Lemma timed_app arrival l1 l2 :
  timed arrival (l1 ++ l2) = timed arrival l1 ++ timed arrival l2.
Proof. unfold timed. apply map_app. Qed.

Lemma timed_Forall (P : Message → Prop) arrival l :
  Forall P l → Forall (λ tm, P tm.2) (timed arrival l).
Proof.
  intros Hl. unfold timed. apply Forall_fmap.
  eapply Forall_impl; [exact Hl|]. done.
Qed.

Lemma timed_nodes arrival l :
  map (λ tm : Z * Message, nodesOf tm.2) (timed arrival l) = map nodesOf l.
Proof. unfold timed. rewrite map_map. done. Qed.


End Session.

End SessionFacts.

(** ** The statements on a concrete session *)

Module ExampleFacts.
Import IR Config ImageProcessor Consumer Example.
Import RoundTripFacts StreamControllerFacts ConsumerFacts SessionFacts.

Lemma chunks_reassemble_to_source_witness :
  let node := imageNode "large" "abcdefg" in
  let buf := replicate 7 Byte.x07 in
  let st' :=
    foldl (StreamController.sendChunk config (λ _, true) (λ n, n) node buf 4)
          (StreamController.init tt) (seqZ 0 4) in
  let b' :=
    foldl (λ b m, addChunkMessage (IR.sequenceNumber m + 1000) b m) ∅
          (StreamController.ws st') in
  length (StreamController.ws st') = 4%nat
  ∧ ImageAssembler.isComplete "large" b' = true
  ∧ ImageAssembler.assemble "large" b' = (Return (Some buf), ∅).
Proof.
  intros node buf st' b'.
  destruct (chunks_reassemble_to_source config (λ _, true) (λ n, n)
              (λ _, eq_refl) node buf (StreamController.init tt) ∅
              (λ n, n + 1000))
    as (_ & Hlen & Hcomplete & Hassemble);
    [reflexivity|simpl; lia|reflexivity|].
  split; [exact Hlen|]. split; [exact Hcomplete|exact Hassemble].
Defined.

(** C3, the claim as it is written fails: with one image to process and
    tokens in the payload, the first message on the socket is a PROGRESS of
    the stage [processing_images] and TOKENS comes second. *)
Lemma tokens_first_counterexample :
  let payload :=
    StreamController.mkStreamPayload [imageNode "small" "abc"] [] (Some "{}") in
  let wire := StreamController.ws (session payload).2 in
  wire !! 0%nat = Some (PROGRESS "processing_images" 1 1 0)
  ∧ wire !! 1%nat = Some (TOKENS "{}" 1).
Proof. vm_compute. done. Qed.

Lemma tokens_follow_processing_progress_witness :
  let payload :=
    StreamController.mkStreamPayload [imageNode "small" "abc"] [] (Some "{}") in
  ∃ before after,
    StreamController.ws (session payload).2
    = [] ++ before ++ TOKENS "{}" (0 + Z.of_nat (length before)) :: after
    ∧ Forall isProcessingProgress before
    ∧ (StreamController.positions StreamController.isImageWithSource
         (StreamController.attachImageSources
            (StreamController.nodes payload)) = []
       ↔ before = [])
    ∧ Forall (λ m, isFonts m ∨ isNodes m ∨ isImageChunk m
                   ∨ isStreamingProgress m ∨ isCompleteMessage m) after.
Proof.
  intros payload.
  exact (tokens_follow_processing_progress config fetch (λ _, true) (λ n, n)
           (λ _, eq_refl) payload (StreamController.init tt) "{}" eq_refl).
Defined.

Lemma chunk_stream_per_item_witness :
  let nodes :=
    (StreamController.processAllImages config fetch (λ _, true)
       (StreamController.attachImageSources
          [imageNode "small" "abc"; imageNode "large" "abcdefg"])
       (StreamController.init tt)).1 in
  StreamController.ws
    (StreamController.streamImageChunks config (λ _, true) (λ n, n) nodes
       (StreamController.init tt)).2
  = [IMAGE_CHUNK "large" 0 4 [7; 7] 0 0; IMAGE_CHUNK "large" 1 4 [7; 7] 1 1;
     IMAGE_CHUNK "large" 2 4 [7; 7] 2 2; IMAGE_CHUNK "large" 3 4 [7] 3 3;
     PROGRESS "streaming_images" 1 1 4]
  ∧ StreamController.ceil_div
      (Z.of_nat (length (replicate (Z.to_nat 307200) Byte.x00)))
      (IMAGE_CHUNK_SIZE Config.defaults) = 5.
Proof.
  intros nodes.
  assert (Forall (StreamController.wellFormed config) nodes) as Hwf.
  { apply processAllImages_wellFormed; [done|].
    apply attachImageSources_wellFormed. repeat constructor. }
  split.
  - destruct (chunk_stream_per_item config (λ _, true) (λ n, n) (λ _, eq_refl)
                nodes (StreamController.init tt)) as (Hws & _);
      [reflexivity|exact Hwf|].
    etransitivity; [exact Hws|]. vm_compute. reflexivity.
  - destruct (chunk_stream_per_item Config.defaults (λ _, true) (λ n, n)
                (λ _, eq_refl) [] (StreamController.init tt))
      as (_ & _ & Hcount); [reflexivity|constructor|].
    destruct (Hcount (imageNode "large" "u")
                (replicate (Z.to_nat 307200) Byte.x00) 0) as (_ & _ & Hfive).
    apply Hfive; [reflexivity|].
    rewrite length_replicate. vm_compute. reflexivity.
Defined.



End ExampleFacts.

(** ** More on the reassembly buffer *)

Module ImageAssemblerRunFacts.
Import ImageAssembler AssemblerRuns ImageAssemblerFacts RoundTripFacts.

Lemma filter_none {A} (P : A → Prop) `{!∀ x, Decision (P x)} (l : list A) :
  Forall (λ x, ¬ P x) l → filter P l = [].
Proof. induction 1; [done|]. by rewrite filter_cons_False. Qed.

Lemma size_chunksUpTo f k : size (chunksUpTo f k) = k.
Proof.
  induction k as [|k IH]; simpl; [apply map_size_empty|].
  rewrite map_size_insert_None, IH; [done|].
  rewrite chunksUpTo_lookup, decide_False; [done|lia].
Qed.

Lemma entryOf_call id total data created b c :
  chunkOf id total data c → entryOf id total data created b →
  entryOf id total data created (call b c).
Proof.
  intros Hc (buffer & Hb & Ht & Hcr & Hn & Hks).
  destruct c as [now id' k d total'| |]; simpl in *; try done.
  destruct (decide (id' = id)) as [->|Hne].
  - destruct (Hc eq_refl) as [Hk ->].
    rewrite (addChunk_present _ _ _ _ _ _ _ Hb).
    destruct (chunks buffer !! k) eqn:Hlk.
    + exists buffer. done.
    + eexists. rewrite lookup_insert_eq. split; [done|]. simpl.
      split; [done|]. split; [done|]. split.
      * rewrite map_size_insert_None by done. lia.
      * intros k' v. destruct (decide (k' = k)) as [->|Hkk].
        -- rewrite lookup_insert_eq. by intros [= <-].
        -- rewrite lookup_insert_ne by done. apply Hks.
  - exists buffer. rewrite addChunk_other by done. done.
Qed.

Lemma entryOf_calls id total data created cs : ∀ b,
  Forall (chunkOf id total data) cs → entryOf id total data created b →
  entryOf id total data created (calls b cs).
Proof.
  induction cs as [|c cs IH]; intros b Hall He; simpl; [done|].
  apply Forall_cons in Hall as [Hc Hall].
  apply IH; [done|]. by apply entryOf_call.
Qed.

Lemma chunkOf_isAddChunk id total data cs :
  Forall (chunkOf id total data) cs → Forall isAddChunk cs.
Proof. intros H. eapply Forall_impl; [exact H|]. by intros []. Qed.

Lemma calls_app b cs1 cs2 : calls b (cs1 ++ cs2) = calls (calls b cs1) cs2.
Proof. apply foldl_app. Qed.

(** An entry that holds exactly the chunks of the range assembles to their
    concatenation. *)
Lemma assemble_full id (b : Buffers) buffer (f : Z → Bytes) :
  b !! id = Some buffer →
  0 ≤ totalChunks buffer →
  receivedChunks buffer = totalChunks buffer →
  chunks buffer = chunksUpTo f (Z.to_nat (totalChunks buffer)) →
  assemble id b
  = (Return (Some (concat (map f (seqZ 0 (totalChunks buffer))))),
     delete id b).
Proof.
  intros Hb Hnn Hrecv Hchunks. unfold assemble, isComplete. rewrite Hb.
  rewrite bool_decide_eq_true_2 by done. simpl.
  rewrite Hchunks, (seqZ_to_nat 0 (totalChunks buffer)).
  set (n := Z.to_nat (totalChunks buffer)).
  rewrite (assemble_loop_all _ _ [] (totalSize (chunksUpTo f n))).
  - rewrite chunkSizes_concat, chunksUpTo_found, totalSize_chunksUpTo.
    rewrite Nat.sub_diag. simpl. by rewrite app_nil_r.
  - apply Forall_forall. intros i Hin%elem_of_seqZ.
    rewrite chunksUpTo_lookup, decide_True by lia. eauto.
  - rewrite chunkSizes_concat, chunksUpTo_found, totalSize_chunksUpTo. done.
Qed.

(** X1. [assemble] always returns: the copy into the target array never goes
    out of bounds. When it returns bytes, they are as many as the stored
    chunks hold together, the counter had reached the total, and the entry
    is gone; when it returns null, the buffers are as they were. *)
Theorem assemble_never_throws (id : string) (b : Buffers) :
  (∃ r, (assemble id b).1 = Return r)
  ∧ (∀ bytes,
       (assemble id b).1 = Return (Some bytes) →
       (assemble id b).2 = delete id b
       ∧ ∃ buffer,
           b !! id = Some buffer
           ∧ receivedChunks buffer = totalChunks buffer
           ∧ length bytes = totalSize (chunks buffer))
  ∧ ((assemble id b).1 = Return None → (assemble id b).2 = b).
Proof.
  split; [apply assemble_returns|].
  unfold assemble, isComplete.
  destruct (b !! id) as [buffer|] eqn:Hb; [|by split].
  case_bool_decide as Hfull; simpl; [|by split].
  pose proof (chunkSizes_le_totalSize (seqZ 0 (totalChunks buffer))
                (chunks buffer) (NoDup_seqZ _ _)) as Hle.
  assert (∀ indices assembled offset r,
            assemble_loop (chunks buffer) indices assembled offset
            = Return (Some r) → length r = length assembled) as Hlen.
  { induction indices as [|i l IH]; intros assembled offset r; simpl.
    - by intros [= <-].
    - destruct (chunks buffer !! i); [|done].
      destruct (Uint8Array_set assembled l0 offset) as [a'|] eqn:Hset; [|done].
      intros Hr%IH. rewrite Hr. by eapply Uint8Array_set_length. }
  destruct (assemble_loop _ _ _ _) as [[bytes|]|err] eqn:Hloop; simpl.
  - split; [|done]. intros bytes' [= <-]. split; [done|].
    exists buffer. split; [done|]. split; [done|].
    apply Hlen in Hloop. rewrite Hloop. unfold Uint8Array_new.
    by rewrite length_replicate.
  - by split.
  - by split.
Qed.

Lemma entryOf_first now0 id k0 total data (b : Buffers) :
  b !! id = None → 0 ≤ k0 < total →
  entryOf id total data now0 (addChunk now0 id k0 (data k0) total b).
Proof.
  intros Hb Hk. rewrite addChunk_absent by done.
  eexists. rewrite lookup_insert_eq. split; [done|]. simpl.
  split; [done|]. split; [done|]. split.
  - by rewrite map_size_singleton.
  - intros k v. destruct (decide (k = k0)) as [->|Hne].
    + rewrite lookup_singleton_eq. by intros [= <-].
    + by rewrite lookup_singleton_ne.
Qed.

Lemma calls_holds_added id k now d total' (cs : list Call) b :
  Forall isAddChunk cs →
  AddChunk now id k d total' ∈ cs →
  holds id k (calls b cs).
Proof.
  intros Hall (l1 & l2 & ->)%list_elem_of_split.
  apply Forall_app in Hall as [_ Hall].
  apply Forall_cons in Hall as [_ Hall].
  rewrite calls_app. simpl. apply calls_keep_holds; [done|].
  apply addChunk_holds.
Qed.

(** X2. The chunks of an item may arrive in any order and more than once: as
    soon as every index of the range 0 to [total - 1] has been delivered at
    least once, the entry is complete and [assemble] returns the chunks
    concatenated in index order. Calls for other items may come in between. *)
Theorem chunks_reassemble_in_any_order (b : Buffers) (id : string)
    (total : Z) (data : Z → list Z) (now0 k0 : Z) (later : list Call) :
  b !! id = None →
  0 ≤ k0 < total →
  Forall (chunkOf id total data) later →
  (∀ k, 0 ≤ k < total →
        k = k0 ∨ ∃ now d total', AddChunk now id k d total' ∈ later) →
  let b' := calls b (AddChunk now0 id k0 (data k0) total :: later) in
  isComplete id b' = true
  ∧ assemble id b'
    = (Return (Some (concat (map (λ k, Uint8Array_of (data k))
                               (seqZ 0 total)))),
       delete id b').
Proof.
  intros Hb Hk0 Hall Hcover b'. subst b'. simpl.
  set (b1 := addChunk now0 id k0 (data k0) total b).
  pose proof (chunkOf_isAddChunk _ _ _ _ Hall) as Hadds.
  destruct (entryOf_calls id total data now0 later b1 Hall
              (entryOf_first _ _ _ _ _ _ Hb Hk0))
    as (buffer & Hlk & Htotal & _ & Hcount & Hchunks).
  assert (chunks buffer
          = chunksUpTo (λ k, Uint8Array_of (data k)) (Z.to_nat total))
    as Hfull.
  { apply map_eq. intros i. rewrite chunksUpTo_lookup.
    case_decide as Hi.
    - assert (holds id i (calls b1 later)) as (buffer' & Hlk' & [v Hv]).
      { destruct (Hcover i) as [->|(now & d & total' & Hin)]; [lia| |].
        - apply calls_keep_holds; [done|]. apply addChunk_holds.
        - by eapply calls_holds_added. }
      rewrite Hlk in Hlk'. injection Hlk' as <-.
      rewrite Hv. f_equal. by apply Hchunks in Hv as [_ ->].
    - destruct (chunks buffer !! i) as [v|] eqn:Hv; [|done].
      apply Hchunks in Hv as [Hr _]. lia. }
  assert (receivedChunks buffer = totalChunks buffer) as Hrecv.
  { rewrite Hcount, Hfull, size_chunksUpTo. lia. }
  split.
  - unfold isComplete. rewrite Hlk. by apply bool_decide_eq_true_2.
  - rewrite <- Htotal.
    apply (assemble_full id _ buffer (λ k, Uint8Array_of (data k)));
      [done|lia|done|by rewrite Htotal].
Qed.

Lemma chunks_reassemble_in_any_order_witness :
  let data := λ k : Z, [k; k + 10] in
  let later :=
    [AddChunk 2 "img" 0 (data 0) 7; AddChunk 3 "other" 5 [9] 1;
     AddChunk 4 "img" 2 (data 2) 3; AddChunk 5 "img" 1 (data 1) 3] in
  let b' := calls ∅ (AddChunk 1 "img" 2 (data 2) 3 :: later) in
  isComplete "img" b' = true
  ∧ assemble "img" b'
    = (Return (Some [Byte.x00; Byte.x0a; Byte.x01; Byte.x0b;
                     Byte.x02; Byte.x0c]),
       delete "img" b').
Proof.
  apply (chunks_reassemble_in_any_order ∅ "img" 3 (λ k, [k; k + 10]) 1 2).
  - done.
  - lia.
  - repeat constructor; simpl; intros; try (split; [lia|done]); done.
  - intros k Hk.
    destruct (decide (k = 0)) as [->|].
    { right. exists 2, [0; 0 + 10], 7. rewrite !elem_of_cons. auto. }
    destruct (decide (k = 1)) as [->|].
    { right. exists 5, [1; 1 + 10], 3. rewrite !elem_of_cons. auto 10. }
    left. lia.
Defined.

Lemma calls_keep_entry id (cs : list Call) : ∀ (b : Buffers) buffer,
  b !! id = Some buffer →
  Forall isAddChunk cs →
  ∃ buffer',
    calls b cs !! id = Some buffer'
    ∧ nodeId buffer' = nodeId buffer
    ∧ createdAt buffer' = createdAt buffer
    ∧ totalChunks buffer' = totalChunks buffer
    ∧ chunks buffer ⊆ chunks buffer'.
Proof.
  induction cs as [|c cs IH]; intros b buffer Hb Hall; simpl.
  { exists buffer. done. }
  apply Forall_cons in Hall as [Hc Hall].
  destruct c as [now id' k d total'| |]; simpl in *; try done.
  destruct (decide (id' = id)) as [->|Hne].
  - rewrite (addChunk_present _ _ _ _ _ _ _ Hb).
    destruct (chunks buffer !! k) eqn:Hlk; [by apply IH|].
    edestruct IH as (buffer' & Hlk' & Hn & Hc' & Ht & Hsub);
      [apply lookup_insert_eq|done|].
    exists buffer'. simpl in *. repeat (split; [done|]).
    etrans; [|exact Hsub]. by apply insert_subseteq.
  - apply IH; [|done]. by rewrite addChunk_other.
Qed.

(** X3. The first chunk of an item fixes the creation time and the expected
    total of its entry: later chunks neither refresh the one nor change the
    other, and never overwrite a stored chunk. So a sweep evicts the entry
    once 30 s have passed since the first chunk, however recently the last
    one came in. *)
Theorem first_chunk_fixes_entry (b : Buffers) (id : string)
    (buffer : ChunkBuffer) (later : list Call) :
  b !! id = Some buffer →
  Forall isAddChunk later →
  ∃ buffer',
    calls b later !! id = Some buffer'
    ∧ createdAt buffer' = createdAt buffer
    ∧ totalChunks buffer' = totalChunks buffer
    ∧ chunks buffer ⊆ chunks buffer'
    ∧ ∀ now, now - createdAt buffer > 30000 →
             id ∈ (cleanupTimedOut now (calls b later)).1
             ∧ (cleanupTimedOut now (calls b later)).2 !! id = None.
Proof.
  intros Hb Hall.
  destruct (calls_keep_entry id later b buffer Hb Hall)
    as (buffer' & Hlk & _ & Hcr & Ht & Hsub).
  exists buffer'. repeat (split; [done|]). intros now Hold.
  assert (id ∈ (cleanupTimedOut now (calls b later)).1) as Hin.
  { apply cleanupTimedOut_ids. exists buffer'. split; [done|].
    rewrite Hcr. unfold TIMEOUT_MS. lia. }
  split; [done|]. rewrite cleanupTimedOut_lookup. by rewrite decide_True.
Qed.

Lemma first_chunk_fixes_entry_witness :
  let b := addChunk 1000 "img" 0 [1] 3 ∅ in
  let later := [AddChunk 30900 "img" 1 [2] 99; AddChunk 30950 "img" 0 [7] 3] in
  ∃ buffer',
    calls b later !! "img" = Some buffer'
    ∧ createdAt buffer' = 1000
    ∧ totalChunks buffer' = 3
    ∧ chunks buffer' !! 0 = Some [Byte.x01]
    ∧ "img" ∈ (cleanupTimedOut 31001 (calls b later)).1.
Proof.
  destruct (first_chunk_fixes_entry (addChunk 1000 "img" 0 [1] 3 ∅) "img"
              {| nodeId := "img"; chunks := {[0 := [Byte.x01]]};
                 totalChunks := 3; receivedChunks := 1; createdAt := 1000 |}
              [AddChunk 30900 "img" 1 [2] 99; AddChunk 30950 "img" 0 [7] 3])
    as (buffer' & Hlk & Hcr & Ht & Hsub & Hsweep).
  - reflexivity.
  - repeat constructor.
  - exists buffer'. split; [exact Hlk|]. split; [exact Hcr|].
    split; [exact Ht|]. split.
    + eapply lookup_weaken; [|exact Hsub]. reflexivity.
    + apply (Hsweep 31001). simpl. lia.
Defined.

Lemma assemble_state id (b : Buffers) :
  (assemble id b).2 = b ∨ (assemble id b).2 = delete id b.
Proof.
  unfold assemble. destruct (b !! id); [|by left].
  destruct (negb (isComplete id b)); [by left|].
  destruct (assemble_loop _ _ _ _) as [[bytes|]|err]; simpl; auto.
Qed.

Lemma wellCounted_call (b : Buffers) c : wellCounted b → wellCounted (call b c).
Proof.
  intros Hwc id buffer. destruct c as [now id' k d total'|id'|now]; simpl.
  - destruct (decide (id' = id)) as [->|Hne].
    + destruct (b !! id) as [old|] eqn:Hb.
      * rewrite (addChunk_present _ _ _ _ _ _ _ Hb).
        destruct (Hwc _ _ Hb) as (Hn & Hr & Hpos).
        destruct (chunks old !! k) eqn:Hlk.
        -- rewrite Hb. by intros [= <-].
        -- rewrite lookup_insert_eq. intros [= <-]. simpl.
           rewrite map_size_insert_None by done. repeat split; [done|lia|lia].
      * rewrite addChunk_absent by done. rewrite lookup_insert_eq.
        intros [= <-]. simpl. rewrite map_size_singleton. done.
    + rewrite addChunk_other by done. apply Hwc.
  - destruct (assemble_state id' b) as [->| ->]; [apply Hwc|].
    destruct (decide (id' = id)) as [->|Hne].
    + by rewrite lookup_delete_eq.
    + rewrite lookup_delete_ne by done. apply Hwc.
  - rewrite cleanupTimedOut_lookup. case_decide; [done|]. apply Hwc.
Qed.

Lemma wellCounted_calls (cs : list Call) : ∀ b,
  wellCounted b → wellCounted (calls b cs).
Proof.
  induction cs as [|c cs IH]; intros b Hwc; simpl; [done|].
  apply IH. by apply wellCounted_call.
Qed.

(** X4. In an assembler that is driven through [addChunk], [assemble] and
    [cleanupTimedOut] only, every entry is filed under its own id, its
    counter [receivedChunks] is the number of distinct chunk indices it
    stores, and no entry is empty. *)
Theorem received_counts_stored_chunks (cs : list Call) :
  wellCounted (calls empty cs).
Proof. apply wellCounted_calls. intros id buffer. unfold empty. by rewrite lookup_empty. Qed.

(** X5. [addChunk] stores a chunk under any index and counts it. Once an entry
    holds a chunk whose index is not in the range 0 to [totalChunks - 1], no
    further chunks make [assemble] succeed: either the counter differs from
    the total, or it has reached it with a chunk of the range missing. The
    call returns null and leaves the entry in place. *)
Theorem out_of_range_chunk_blocks_assembly (b : Buffers) (id : string)
    (buffer : ChunkBuffer) (k : Z) (later : list Call) :
  wellCounted b →
  b !! id = Some buffer →
  is_Some (chunks buffer !! k) →
  ¬ (0 ≤ k < totalChunks buffer) →
  Forall isAddChunk later →
  assemble id (calls b later) = (Return None, calls b later)
  ∧ is_Some (calls b later !! id).
Proof.
  intros Hwc Hb [v Hk] Hout Hall.
  destruct (calls_keep_entry id later b buffer Hb Hall)
    as (buffer' & Hlk & _ & _ & Ht & Hsub).
  split; [|by eexists].
  destruct (wellCounted_calls later b Hwc _ _ Hlk) as (_ & Hcount & Hpos).
  unfold assemble, isComplete. rewrite Hlk.
  case_bool_decide as Hfull; simpl; [|done].
  set (n := Z.to_nat (totalChunks buffer')).
  destruct (decide (Forall (λ i, is_Some (chunks buffer' !! i))
                      (seqZ 0 (totalChunks buffer')))) as [Hallin|Hmiss].
  - exfalso.
    set (m := <[k := v]> (chunksUpTo (λ i, default [] (chunks buffer' !! i)) n)).
    assert (m ⊆ chunks buffer') as Hm.
    { apply map_subseteq_spec. intros i x. unfold m.
      destruct (decide (i = k)) as [->|Hne].
      - rewrite lookup_insert_eq. intros [= <-].
        eapply lookup_weaken; [exact Hk|exact Hsub].
      - rewrite lookup_insert_ne by done. rewrite chunksUpTo_lookup.
        case_decide as Hi; [|done]. intros [= <-].
        rewrite Forall_forall in Hallin.
        destruct (Hallin i) as [y Hy]; [apply elem_of_seqZ; lia|].
        by rewrite Hy. }
    apply map_subseteq_size in Hm. unfold m in Hm.
    rewrite map_size_insert_None, size_chunksUpTo in Hm.
    + unfold n in Hm. lia.
    + rewrite chunksUpTo_lookup, decide_False; [done|]. unfold n. lia.
  - apply not_Forall_Exists in Hmiss; [|apply _].
    apply Exists_exists in Hmiss as (i & Hin & Hnone).
    rewrite (assemble_loop_missing _ _ _ _ i); [done|done| |].
    + destruct (chunks buffer' !! i) eqn:Hi; [|done].
      exfalso. apply Hnone. by eexists.
    + unfold Uint8Array_new. rewrite length_replicate. simpl.
      apply chunkSizes_le_totalSize, NoDup_seqZ.
Qed.

Lemma out_of_range_chunk_blocks_assembly_witness :
  let b := calls empty [AddChunk 5 "img" 2 [9] 2] in
  let later := [AddChunk 6 "img" 0 [1] 2; AddChunk 7 "img" 1 [2] 2] in
  assemble "img" (calls b later) = (Return None, calls b later)
  ∧ is_Some (calls b later !! "img").
Proof.
  apply (out_of_range_chunk_blocks_assembly
           (calls empty [AddChunk 5 "img" 2 [9] 2]) "img"
           {| nodeId := "img"; chunks := {[2 := [Byte.x09]]};
              totalChunks := 2; receivedChunks := 1; createdAt := 5 |} 2).
  - apply wellCounted_calls. intros id buffer. unfold empty. by rewrite lookup_empty.
  - reflexivity.
  - by eexists.
  - simpl. lia.
  - repeat constructor.
Defined.

(** X6. With a clock that does not go back, a sweep followed by a later sweep
    leaves the buffers that the later sweep alone would leave, an id is
    evicted by the later sweep alone exactly when one of the two evicts it,
    and a second sweep at the same instant finds nothing to evict. *)
Theorem sweeps_compose (now1 now2 : Z) (b : Buffers) :
  now1 ≤ now2 →
  (cleanupTimedOut now2 (cleanupTimedOut now1 b).2).2
  = (cleanupTimedOut now2 b).2
  ∧ (∀ id, id ∈ (cleanupTimedOut now2 b).1
           ↔ id ∈ (cleanupTimedOut now1 b).1
             ∨ id ∈ (cleanupTimedOut now2 (cleanupTimedOut now1 b).2).1)
  ∧ cleanupTimedOut now1 (cleanupTimedOut now1 b).2
    = ([], (cleanupTimedOut now1 b).2).
Proof.
  intros Hle.
  assert (∀ id, id ∈ (cleanupTimedOut now2 b).1
           ↔ id ∈ (cleanupTimedOut now1 b).1
             ∨ id ∈ (cleanupTimedOut now2 (cleanupTimedOut now1 b).2).1)
    as Hids.
  { intros id. rewrite !cleanupTimedOut_ids. split.
    - intros (buffer & Hb & Hold).
      destruct (decide (now1 - createdAt buffer > TIMEOUT_MS)) as [H1|H1].
      + left. by exists buffer.
      + right. exists buffer. split; [|done].
        rewrite cleanupTimedOut_lookup, decide_False; [done|].
        rewrite cleanupTimedOut_ids. intros (buffer' & Hb' & Hold').
        rewrite Hb in Hb'. by injection Hb' as <-.
    - intros [(buffer & Hb & Hold)|(buffer & Hb & Hold)].
      + exists buffer. split; [done|lia].
      + exists buffer. split; [|done].
        rewrite cleanupTimedOut_lookup in Hb. by case_decide. }
  split; [|split; [done|]].
  - apply map_eq. intros id. rewrite !cleanupTimedOut_lookup.
    destruct (decide (id ∈ (cleanupTimedOut now2 b).1)) as [Hin|Hout].
    + apply Hids in Hin as [Hin|Hin].
      * rewrite (decide_True (P := id ∈ (cleanupTimedOut now1 b).1)) by done.
        by case_decide.
      * by rewrite decide_True.
    + rewrite decide_False by (intros ?; apply Hout, Hids; auto).
      rewrite decide_False by (intros ?; apply Hout, Hids; auto). done.
  - unfold cleanupTimedOut at 1. rewrite cleanup_fold. simpl.
    assert (filter (timedOut now1)
              (map_to_list (cleanupTimedOut now1 b).2) = []) as ->; [|done].
    apply filter_none. apply Forall_forall.
    intros [id buffer] Hin%elem_of_map_to_list Hold.
    rewrite cleanupTimedOut_lookup in Hin. case_decide as Hev; [done|].
    apply Hev, cleanupTimedOut_ids. by exists buffer.
Qed.

Lemma sweeps_compose_witness :
  let b := calls empty [AddChunk 1000 "a" 0 [1] 2; AddChunk 20000 "b" 0 [2] 2;
                        AddChunk 40000 "c" 0 [3] 2] in
  (cleanupTimedOut 51000 (cleanupTimedOut 31001 b).2).2
  = (cleanupTimedOut 51000 b).2
  ∧ cleanupTimedOut 31001 (cleanupTimedOut 31001 b).2
    = ([], (cleanupTimedOut 31001 b).2).
Proof.
  destruct (sweeps_compose 31001 51000
              (calls empty [AddChunk 1000 "a" 0 [1] 2;
                            AddChunk 20000 "b" 0 [2] 2;
                            AddChunk 40000 "c" 0 [3] 2]))
    as (H1 & _ & H3); [lia|].
  split; [exact H1|exact H3].
Defined.

End ImageAssemblerRunFacts.

(** ** More on the envelope sequence *)

Module StreamWireFacts.
Import IR Config ImageProcessor StreamController StreamWire.
Import ImageAssemblerFacts ImageProcessorFacts RoundTripFacts.
Import StreamControllerFacts.

(** *** Two sessions side by side *)

Lemma sim_for_step {S1 S2 : Type} (Q : S1 → S2 → Prop) n step
    (body1 : nat → S1 → S1) (body2 : nat → S2 → S2) :
  (∀ i s1 s2, Q s1 s2 → Q (body1 i s1) (body2 i s2)) →
  ∀ fuel i s1 s2,
    Q s1 s2 → Q (for_step fuel i n step body1 s1)
                (for_step fuel i n step body2 s2).
Proof.
  intros Hbody. induction fuel as [|fuel IH]; intros i s1 s2 HQ; simpl; [done|].
  case_decide; [|done]. apply IH. by apply Hbody.
Qed.

Lemma sim_foldl {S1 S2 A : Type} (Q : S1 → S2 → Prop)
    (f1 : S1 → A → S1) (f2 : S2 → A → S2) (l : list A) :
  (∀ s1 s2 x, Q s1 s2 → Q (f1 s1 x) (f2 s2 x)) →
  ∀ s1 s2, Q s1 s2 → Q (foldl f1 s1 l) (foldl f2 s2 l).
Proof.
  intros Hf. induction l as [|x l IH]; intros s1 s2 HQ; simpl; [done|].
  apply IH. by apply Hf.
Qed.

Section Simulation.

Context {World : Type}.
Context (cfg : CONFIG).
Context (fetchAndConvert : string → World → ProcessingResult * World).
Context (Date_now : Z → Z).
Context (open1 open2 : Z → bool).
Context (R : State World → State World → Prop).

Context (R_core : ∀ s1 s2,
  R s1 s2 →
  sequenceNumber s1 = sequenceNumber s2
  ∧ imageProcessor s1 = imageProcessor s2
  ∧ totalNodes s1 = totalNodes s2
  ∧ world s1 = world s2).
Context (R_set : ∀ s1 s2 stats tn w,
  R s1 s2 →
  R (StreamController.mkState (sequenceNumber s1) stats tn (ws s1) w)
    (StreamController.mkState (sequenceNumber s2) stats tn (ws s2) w)).
Context (R_send : ∀ build s1 s2,
  numbered build → R s1 s2 →
  R (sendNumbered open1 build s1) (sendNumbered open2 build s2)).

Abbreviation St := (State World).
Abbreviation Rp :=
  (λ a1 a2 : list IRNode * St, a1.1 = a2.1 ∧ R a1.2 a2.2).

Lemma sim_processNodeAt (a1 a2 : list IRNode * St) p :
  Rp a1 a2 →
  Rp (processNodeAt cfg fetchAndConvert a1 p)
     (processNodeAt cfg fetchAndConvert a2 p).
Proof.
  destruct a1 as [nodes s1], a2 as [nodes2 s2]. simpl. intros [<- HR].
  destruct (R_core _ _ HR) as (Hseq & Hstats & Htn & Hw).
  unfold processNodeAt. destruct (nodes !! p) as [node|]; [|done].
  rewrite <- Hstats, <- Hw, <- Htn.
  destruct (processImageForNode _ _ _ _ _) as [[[result node1] stats'] w'].
  destruct result as [[buf shouldStream]|]; simpl; (split; [done|]);
    by apply R_set.
Qed.

Lemma sim_processAllImages nodes (s1 s2 : St) :
  R s1 s2 →
  Rp (processAllImages cfg fetchAndConvert open1 nodes s1)
     (processAllImages cfg fetchAndConvert open2 nodes s2).
Proof.
  intros HR. unfold processAllImages. case_decide; [done|].
  apply (sim_for_step Rp); [|done].
  intros i a1 a2 Ha.
  pose proof (sim_foldl Rp _ _
    (take (Z.to_nat (Z.max 1 (MAX_CONCURRENT_IMAGES cfg)))
       (drop i (positions isImageWithSource nodes)))
    (λ a1 a2 p, sim_processNodeAt a1 a2 p) a1 a2 Ha) as Hfold.
  destruct (foldl _ a1 _) as [n1 t1], (foldl _ a2 _) as [n2 t2].
  simpl in *. destruct Hfold as [-> Ht]. split; [done|].
  by apply R_send.
Qed.

Lemma sim_streamNodes nodes (s1 s2 : St) :
  R s1 s2 → R (streamNodes open1 nodes s1) (streamNodes open2 nodes s2).
Proof.
  intros HR. unfold streamNodes. apply (sim_for_step R); [|done].
  intros i t1 t2 Ht. by apply R_send.
Qed.

Lemma chunkMessage_numbered node buf total chunkIndex :
  numbered (chunkMessage cfg Date_now node buf total chunkIndex).
Proof. by intros n. Qed.

Lemma sim_streamNodeAt streamed (a1 a2 : list IRNode * St) jp :
  Rp a1 a2 →
  Rp (streamNodeAt cfg open1 Date_now streamed a1 jp)
     (streamNodeAt cfg open2 Date_now streamed a2 jp).
Proof.
  destruct a1 as [nodes s1], a2 as [nodes2 s2], jp as [j p]. simpl.
  intros [<- HR]. destruct (nodes !! p) as [node|]; [|done].
  destruct (_imageBuffer node) as [buf|]; [|done]. simpl. split; [done|].
  apply R_send; [done|].
  apply (sim_foldl R); [|done].
  intros t1 t2 i Ht. apply R_send; [|done]. apply chunkMessage_numbered.
Qed.

Lemma sim_streamImageChunks nodes (s1 s2 : St) :
  R s1 s2 →
  Rp (streamImageChunks cfg open1 Date_now nodes s1)
     (streamImageChunks cfg open2 Date_now nodes s2).
Proof.
  intros HR. unfold streamImageChunks. case_decide; [done|].
  apply (sim_foldl Rp); [|done].
  intros a1 a2 jp. apply sim_streamNodeAt.
Qed.

Lemma sim_streamExtractedPage payload (s1 s2 : St) :
  R s1 s2 →
  Rp (streamExtractedPage cfg fetchAndConvert open1 Date_now payload s1)
     (streamExtractedPage cfg fetchAndConvert open2 Date_now payload s2).
Proof.
  intros HR. unfold streamExtractedPage.
  destruct (R_core _ _ HR) as (Hseq & Hstats & Htn & Hw).
  assert (Rp (processAllImages cfg fetchAndConvert open1
                (attachImageSources (nodes payload))
                (StreamController.mkState (sequenceNumber s1)
                   (imageProcessor s1) (Z.of_nat (length (nodes payload)))
                   (ws s1) (world s1)))
             (processAllImages cfg fetchAndConvert open2
                (attachImageSources (nodes payload))
                (StreamController.mkState (sequenceNumber s2)
                   (imageProcessor s2) (Z.of_nat (length (nodes payload)))
                   (ws s2) (world s2)))) as Hp.
  { replace (imageProcessor s2) with (imageProcessor s1) by done.
    replace (world s2) with (world s1) by done.
    apply sim_processAllImages. by apply R_set. }
  destruct (processAllImages _ _ open1 _ _) as [n1 t1],
           (processAllImages _ _ open2 _ _) as [n2 t2].
  simpl in Hp. destruct Hp as [-> Ht].
  assert (R (match tokens payload with
             | Some t => sendNumbered open1 (TOKENS t) t1
             | None => t1
             end)
            (match tokens payload with
             | Some t => sendNumbered open2 (TOKENS t) t2
             | None => t2
             end)) as Ht2.
  { destruct (tokens payload); [|done]. by apply R_send. }
  match type of Ht2 with R ?x ?y => set (u1 := x) in *; set (u2 := y) in * end.
  assert (R (if decide (0 < length (fonts payload))%nat
             then sendNumbered open1 (FONTS (fonts payload)) u1 else u1)
            (if decide (0 < length (fonts payload))%nat
             then sendNumbered open2 (FONTS (fonts payload)) u2 else u2))
    as Ht3.
  { case_decide; [|done]. by apply R_send. }
  match type of Ht3 with R ?x ?y => set (v1 := x) in *; set (v2 := y) in * end.
  pose proof (sim_streamImageChunks n2 _ _ (sim_streamNodes n2 _ _ Ht3)) as Hc.
  destruct (streamImageChunks _ open1 _ _ _) as [n3 t3],
           (streamImageChunks _ open2 _ _ _) as [n4 t4].
  simpl in Hc. destruct Hc as [-> Ht4]. simpl. split; [done|].
  unfold sendComplete.
  destruct (R_core _ _ Ht4) as (_ & Hstats4 & Htn4 & _).
  rewrite Hstats4, Htn4. by apply R_send.
Qed.

End Simulation.

Lemma ascending_sublist (l1 l2 : list Z) :
  l1 `sublist_of` l2 → ascending l2 → ascending l1.
Proof.
  induction 1 as [|x l1 l2 Hsub IH|x l1 l2 Hsub IH]; simpl; [done| |].
  - intros [Hx Hl2]. split; [|by apply IH].
    eapply Forall_forall. intros y Hy.
    rewrite Forall_forall in Hx. apply Hx.
    by eapply elem_of_sublist.
  - intros [_ Hl2]. by apply IH.
Qed.

Lemma ascending_seqZ (n : nat) : ∀ m, ascending (seqZ m (Z.of_nat n)).
Proof.
  induction n as [|n IH]; intros m; [done|].
  rewrite seqZ_cons by lia. simpl.
  replace (Z.pred (Z.of_nat (S n))) with (Z.of_nat n) by lia.
  split; [|apply IH].
  apply Forall_forall. intros y Hy%elem_of_seqZ. lia.
Qed.

Section Wire.

Context {World : Type}.
Context (cfg : CONFIG).
Context (fetchAndConvert : string → World → ProcessingResult * World).
Context (wsOpen : Z → bool) (Date_now : Z → Z).

Abbreviation St := (State World).

Lemma session_drops (payload : StreamPayload) (st : St) :
  (streamExtractedPage cfg fetchAndConvert alwaysOpen Date_now payload st).1
  = (streamExtractedPage cfg fetchAndConvert wsOpen Date_now payload st).1
  ∧ dropsOnly wsOpen (ws st)
      (streamExtractedPage cfg fetchAndConvert alwaysOpen Date_now payload st).2
      (streamExtractedPage cfg fetchAndConvert wsOpen Date_now payload st).2.
Proof.
  apply (sim_streamExtractedPage cfg fetchAndConvert Date_now alwaysOpen
           wsOpen (dropsOnly wsOpen (ws st))).
  - intros s1 s2 (? & ? & ? & ? & _). done.
  - intros s1 s2 stats tn w (Hseq & _ & _ & _ & Hsent). by repeat split.
  - intros build s1 s2 _ (Hseq & Hstats & Htn & Hw & sent & Hs1 & Hs2).
    unfold sendNumbered, send, alwaysOpen. simpl. rewrite Hseq.
    destruct (wsOpen (IR.sequenceNumber (build (sequenceNumber s2))))
      eqn:Hopen; simpl.
    + repeat (split; [done|]). exists (sent ++ [build (sequenceNumber s2)]).
      rewrite Hs1, Hs2, filter_app, <- !app_assoc.
      by rewrite filter_cons_True.
    + repeat (split; [done|]). exists (sent ++ [build (sequenceNumber s2)]).
      rewrite Hs1, Hs2, filter_app, <- !app_assoc.
      rewrite filter_cons_False; [by rewrite app_nil_r|].
      unfold passes. by rewrite Hopen.
  - repeat (split; [done|]). exists []. by rewrite !app_nil_r.
Qed.

Lemma session_consecutive (payload : StreamPayload) (st : St) :
  consecutive (ws st) (sequenceNumber st)
    (streamExtractedPage cfg fetchAndConvert alwaysOpen Date_now payload st).2.
Proof.
  set (r := streamExtractedPage cfg fetchAndConvert alwaysOpen Date_now
              payload st).
  enough (r.1 = r.1
          ∧ r.2 = r.2 ∧ consecutive (ws st) (sequenceNumber st) r.2)
    as (_ & _ & H) by exact H.
  apply (sim_streamExtractedPage cfg fetchAndConvert Date_now alwaysOpen
           alwaysOpen
           (λ s1 s2, s1 = s2 ∧ consecutive (ws st) (sequenceNumber st) s2)).
  - by intros s1 s2 [-> _].
  - intros s1 s2 stats tn w [-> Hc]. split; [done|]. exact Hc.
  - intros build s1 s2 Hnum [-> (sent & Hws & Hnums & Hseq)]. split; [done|].
    exists (sent ++ [build (sequenceNumber s2)]).
    unfold sendNumbered, send, alwaysOpen. simpl.
    rewrite Hws, <- app_assoc. split; [done|].
    rewrite map_app, length_app, Hnums. simpl.
    rewrite Hnum, Hseq. split; [|lia].
    replace (length sent + 1)%nat with (S (length sent)) by lia.
    by rewrite seqZ_S.
  - split; [done|]. exists []. rewrite app_nil_r. simpl.
    split; [done|]. split; [done|lia].
Qed.

(** X7. [send] drops a message when the socket is not open and does nothing
    else. A session on any socket takes the same steps as on a socket that
    stays open: the nodes, the counters, the sequence counter and the calls
    to the outside are the same, and what reaches the socket is what would
    have reached it, less the messages at whose turn the socket was not
    open. *)
Theorem closed_socket_only_drops (payload : StreamPayload) (st : St) :
  let r :=
    streamExtractedPage cfg fetchAndConvert wsOpen Date_now payload st in
  let r1 :=
    streamExtractedPage cfg fetchAndConvert alwaysOpen Date_now payload st in
  r.1 = r1.1
  ∧ sequenceNumber r.2 = sequenceNumber r1.2
  ∧ imageProcessor r.2 = imageProcessor r1.2
  ∧ totalNodes r.2 = totalNodes r1.2
  ∧ world r.2 = world r1.2
  ∧ ∃ sent,
      ws r1.2 = ws st ++ sent
      ∧ ws r.2
        = ws st ++ filter (λ m, wsOpen (IR.sequenceNumber m) = true) sent.
Proof.
  intros r r1. subst r r1.
  destruct (session_drops payload st)
    as (Hnodes & Hseq & Hstats & Htn & Hw & sent & Hs1 & Hs2).
  repeat (split; [done|]). exists sent. split; [done|]. exact Hs2.
Qed.

(** X8. Every message is built with [this.sequenceNumber++]. On a socket that
    stays open the messages of a session carry consecutive numbers, from the
    value of the counter at the start. On any socket the numbers that reach
    it are strictly increasing, and the counter ends at the start value plus
    the number of messages handed to [send], sent or not. *)
Theorem sequence_numbers_count_every_send (payload : StreamPayload) (st : St) :
  let r :=
    streamExtractedPage cfg fetchAndConvert wsOpen Date_now payload st in
  let r1 :=
    streamExtractedPage cfg fetchAndConvert alwaysOpen Date_now payload st in
  ∃ sent1 sent,
    ws r1.2 = ws st ++ sent1
    ∧ ws r.2 = ws st ++ sent
    ∧ map IR.sequenceNumber sent1
      = seqZ (sequenceNumber st) (Z.of_nat (length sent1))
    ∧ sequenceNumber r.2 = sequenceNumber st + Z.of_nat (length sent1)
    ∧ ascending (map IR.sequenceNumber sent)
    ∧ Forall (λ m, sequenceNumber st ≤ IR.sequenceNumber m
                   < sequenceNumber r.2) sent.
Proof.
  intros r r1. subst r r1.
  destruct (session_drops payload st)
    as (_ & Hseq & _ & _ & _ & sent1 & Hs1 & Hs2).
  destruct (session_consecutive payload st) as (sent1' & Hs1' & Hnums & Hend).
  rewrite Hs1 in Hs1'. apply app_inv_head in Hs1' as <-.
  exists sent1, (filter (passes wsOpen) sent1).
  split; [done|]. split; [done|]. split; [done|].
  split; [by rewrite <- Hseq|].
  assert (map IR.sequenceNumber (filter (passes wsOpen) sent1)
          `sublist_of` seqZ (sequenceNumber st) (Z.of_nat (length sent1)))
    as Hsub.
  { rewrite <- Hnums. apply fmap_sublist, sublist_filter. }
  split.
  - eapply ascending_sublist; [exact Hsub|]. apply ascending_seqZ.
  - apply Forall_forall. intros m Hm.
    assert (IR.sequenceNumber m
            ∈ seqZ (sequenceNumber st) (Z.of_nat (length sent1))) as Hin.
    { eapply elem_of_sublist; [|exact Hsub].
      apply list_elem_of_fmap. by exists m. }
    apply elem_of_seqZ in Hin. rewrite <- Hseq, Hend. lia.
Qed.

Lemma alwaysOpen_open n : alwaysOpen n = true.
Proof. done. Qed.

Lemma concat_groups {A} (l : list A) (c k : nat) :
  concat (map (λ j : nat, take c (drop (c * j) l)) (seq 0 k)) = take (c * k) l.
Proof.
  induction k as [|k IH].
  - by rewrite Nat.mul_0_r, take_0.
  - rewrite seq_S, map_app, concat_app, IH. simpl. rewrite app_nil_r.
    rewrite take_take_drop. f_equal. lia.
Qed.

(** X9. [streamNodes] cuts the node array into consecutive slices of 50, the
    last one shorter when the length is no multiple of 50, and sends one
    NODES envelope per slice, in order: [ceil(n / 50)] envelopes, none of
    them empty, none for an empty array. Put end to end the batches are the
    array. *)
Theorem nodes_go_out_in_batches_of_50 (nodes : list IRNode) (st : St) :
  let st' := streamNodes alwaysOpen nodes st in
  let count := ((length nodes + 49) / 50)%nat in
  let batch := λ j : nat, take 50 (drop (50 * j) nodes) in
  ws st'
  = ws st
    ++ map (λ j : nat, NODES (batch j) (sequenceNumber st + Z.of_nat j))
           (seq 0 count)
  ∧ sequenceNumber st' = sequenceNumber st + Z.of_nat count
  ∧ (∀ j, (j < count)%nat → (1 ≤ length (batch j) ≤ 50)%nat)
  ∧ concat (map batch (seq 0 count)) = nodes.
Proof.
  intros st' count batch. subst st'. unfold streamNodes.
  match goal with |- context [for_step _ _ _ _ ?f _] => set (body := f) end.
  destruct (for_step_inv
    (λ i (st1 : St),
       ∃ k : nat,
         i = (50 * k)%nat
         ∧ (k = 0%nat ∨ (50 * (k - 1) < length nodes)%nat)
         ∧ ws st1
           = ws st
             ++ map (λ j : nat, NODES (batch j) (sequenceNumber st + Z.of_nat j))
                    (seq 0 k)
         ∧ sequenceNumber st1 = sequenceNumber st + Z.of_nat k)
    (length nodes) BATCH_SIZE body) with
    (fuel := length nodes) (i := 0%nat) (s := st)
    as (i & Hi & k & -> & Hk & Hws & Hseq).
  - unfold BATCH_SIZE. lia.
  - intros i st1 Hi (k & -> & Hk & Hws & Hseq).
    exists (S k). unfold BATCH_SIZE. split; [lia|]. split; [right; lia|].
    subst body. cbn beta.
    rewrite (sendNumbered_open alwaysOpen alwaysOpen_open).
    cbn [ws sequenceNumber].
    rewrite Hws, <- app_assoc, seq_S, map_app. cbn [map app Nat.add].
    rewrite cloneForTransport_all, Hseq. unfold batch, BATCH_SIZE.
    split; [done|]. lia.
  - lia.
  - exists 0%nat. simpl. rewrite app_nil_r. repeat split; (done || lia || auto).
  - assert (k = count) as ->.
    { subst count.
      assert (50 * ((length nodes + 49) / 50) ≤ length nodes + 49
              < 50 * ((length nodes + 49) / 50) + 50)%nat.
      { pose proof (Nat.div_mod_eq (length nodes + 49) 50).
        pose proof (Nat.mod_upper_bound (length nodes + 49) 50). lia. }
      lia. }
    split; [done|]. split; [done|]. split.
    + intros j Hj. subst batch. simpl.
      rewrite length_take, length_drop. lia.
    + subst batch. cbn beta. rewrite (concat_groups nodes 50 count).
      apply take_ge. lia.
Qed.

(** X10. [processAllImages] fetches the image nodes in waves of
    [max(1, MAX_CONCURRENT_IMAGES)] and reports after each wave: with [k]
    image nodes and waves of [c] there are [ceil(k / c)] PROGRESS envelopes
    of the stage processing_images, the [j]-th with
    [current = min((j + 1) c, k)] and [total = k], so the last one reports
    [current = total]; without image nodes nothing is reported. *)
Theorem processing_progress_reaches_total (nodes : list IRNode) (st : St) :
  let k := length (positions isImageWithSource nodes) in
  let c := Z.to_nat (Z.max 1 (MAX_CONCURRENT_IMAGES cfg)) in
  let r := processAllImages cfg fetchAndConvert alwaysOpen nodes st in
  ∃ waves : nat,
    (k ≤ c * waves)%nat
    ∧ (waves = 0%nat ∨ (c * (waves - 1) < k)%nat)
    ∧ ws r.2
      = ws st
        ++ map (λ j : nat,
                  PROGRESS "processing_images"
                    (Z.of_nat (Nat.min ((j + 1) * c) k)) (Z.of_nat k)
                    (sequenceNumber st + Z.of_nat j))
               (seq 0 waves)
    ∧ (k ≠ 0%nat →
       last (ws r.2)
       = Some (PROGRESS "processing_images" (Z.of_nat k) (Z.of_nat k)
                 (sequenceNumber st + Z.of_nat waves - 1))).
Proof.
  intros k c r. subst r. unfold processAllImages. fold k.
  case_decide as Hnone.
  { exists 0%nat. simpl. rewrite app_nil_r.
    split; [lia|]. split; [by left|]. split; [done|]. done. }
  fold c.
  match goal with |- context [for_step _ _ _ _ ?f _] => set (body := f) end.
  assert (1 ≤ c)%nat as Hc by (subst c; lia).
  destruct (for_step_inv
    (λ i (acc : list IRNode * St),
       ∃ j : nat,
         i = (j * c)%nat
         ∧ (j = 0%nat ∨ (c * (j - 1) < k)%nat)
         ∧ ws acc.2
           = ws st
             ++ map (λ j : nat,
                       PROGRESS "processing_images"
                         (Z.of_nat (Nat.min ((j + 1) * c) k)) (Z.of_nat k)
                         (sequenceNumber st + Z.of_nat j))
                    (seq 0 j)
         ∧ sequenceNumber acc.2 = sequenceNumber st + Z.of_nat j)
    k c body) with
    (fuel := k) (i := 0%nat) (s := (nodes, st))
    as (i & Hi & j & -> & Hj & Hws & Hseq).
  - done.
  - intros i [nodes1 st1] Hi (j & -> & Hj & Hws & Hseq). simpl in *.
    exists (S j). split; [lia|]. split; [right; nia|].
    subst body. cbn beta.
    pose proof (foldl_processAt_sent cfg fetchAndConvert
                  (take c (drop (j * c) (positions isImageWithSource nodes)))
                  (nodes1, st1)) as (Hws2 & Hseq2 & _).
    destruct (foldl _ (nodes1, st1) _) as [nodes2 st2]. simpl in Hws2, Hseq2.
    unfold sendProgress.
    rewrite (sendNumbered_open alwaysOpen alwaysOpen_open).
    cbn [ws sequenceNumber fst snd].
    rewrite Hws2, Hws, <- app_assoc, seq_S, map_app. cbn [map app Nat.add].
    rewrite Hseq2, Hseq. split; [|lia].
    do 4 f_equal. lia.
  - lia.
  - exists 0%nat. simpl. rewrite app_nil_r. repeat split; (done || lia || auto).
  - exists j. split; [nia|]. split; [destruct Hj; [by left|right; nia]|].
    split; [done|]. intros _. rewrite Hws.
    destruct j as [|j]; [simpl in Hi; lia|].
    rewrite seq_S, map_app, app_assoc. simpl. rewrite last_snoc.
    do 2 f_equal; [|lia].
    f_equal. nia.
Qed.

Abbreviation process := (processImageForNode cfg fetchAndConvert).
Abbreviation processed := (processedNode cfg fetchAndConvert).
Abbreviation processAt := (processNodeAt cfg fetchAndConvert).

(** Every position is processed at most once. *)
Lemma foldl_processAt_once ps : ∀ (nodes : list IRNode) (st : St) p node,
  NoDup ps →
  nodes !! p = Some node →
  ∃ node',
    (foldl processAt (nodes, st) ps).1 !! p = Some node'
    ∧ (p ∉ ps → node' = node)
    ∧ (p ∈ ps → ∃ stats w, node' = processed node stats w).
Proof.
  induction ps as [|q ps IH]; intros nodes st p node Hnd Hp; cbn [foldl].
  { exists node. split; [done|]. split; [done|]. by intros ?%elem_of_nil. }
  apply NoDup_cons in Hnd as [Hq Hnd].
  destruct (nodes !! q) as [nq|] eqn:Hnq.
  - rewrite (processAt_found cfg fetchAndConvert nodes st q nq Hnq).
    destruct (decide (p = q)) as [->|Hne].
    + assert (node = nq) as <- by congruence.
      edestruct (IH (<[q := processed node (imageProcessor st) (world st)]> nodes))
        as (node' & Hlk & Hsame & _); [done| |].
      { apply list_lookup_insert_eq. by eapply lookup_lt_Some. }
      exists node'. split; [exact Hlk|]. split.
      * intros Hnot. exfalso. apply Hnot. by left.
      * intros _. rewrite (Hsame Hq). eauto.
    + edestruct (IH (<[q := processed nq (imageProcessor st) (world st)]> nodes))
        as (node' & Hlk & Hsame & Hproc); [done| |].
      { rewrite list_lookup_insert_ne by done. exact Hp. }
      exists node'. split; [exact Hlk|]. split.
      * intros Hnot. apply Hsame. intros ?. apply Hnot. by right.
      * intros [?|Hin]%elem_of_cons; [done|]. by apply Hproc.
  - rewrite (processAt_missing cfg fetchAndConvert nodes st q Hnq).
    assert (p ≠ q) as Hne by congruence.
    destruct (IH nodes st p node Hnd Hp) as (node' & Hlk & Hsame & Hproc).
    exists node'. split; [exact Hlk|]. split.
    + intros Hnot. apply Hsame. intros ?. apply Hnot. by right.
    + intros [?|Hin]%elem_of_cons; [done|]. by apply Hproc.
Qed.

Lemma processed_form node stats w :
  bare node →
  bare (processed node stats w)
  ∨ inlineForm cfg (processed node stats w)
  ∨ streamedForm cfg (processed node stats w).
Proof.
  intros (Hdata & Href & Hbuf).
  unfold processedNode, processImageForNode.
  destruct (imageSource node) as [source|]; [|by left].
  destruct (negb (truthy (resolvedUrl source))); [by left|].
  destruct (fetchAndConvert (resolvedUrl source) w) as [result w1].
  destruct (success result), (buffer result) as [buf|]; try by left.
  right. unfold attachResult. case_bool_decide as Hbig.
  - right. exists buf. done.
  - left. exists buf. simpl. repeat split; (done || lia).
Qed.

Lemma attachImageSource_bare node : bare node → bare (attachImageSource node).
Proof.
  intros (Hdata & Href & Hbuf).
  destruct (attachImageSource_keeps node) as (Hr & Hb & _ & Hd).
  unfold bare. by rewrite Hr, Hb, Hd.
Qed.

Lemma processAllImages_forms (nodes : list IRNode) (st : St) :
  Forall bare nodes →
  Forall (λ x, bare x ∨ inlineForm cfg x ∨ streamedForm cfg x)
    (foldl processAt (nodes, st) (positions isImageWithSource nodes)).1.
Proof.
  intros Hbare. apply Forall_forall. intros x [p Hp]%list_elem_of_lookup.
  assert (p < length nodes)%nat as Hlt.
  { apply lookup_lt_Some in Hp.
    by rewrite (foldl_processAt_length cfg fetchAndConvert) in Hp. }
  destruct (lookup_lt_is_Some_2 _ _ Hlt) as [node Hnode].
  destruct (foldl_processAt_once (positions isImageWithSource nodes)
              nodes st p node (NoDup_positions _ _) Hnode)
    as (node' & Hlk & Hsame & Hproc).
  rewrite Hp in Hlk. injection Hlk as <-.
  assert (bare node) as Hb.
  { rewrite Forall_forall in Hbare. apply Hbare.
    apply list_elem_of_lookup. eauto. }
  destruct (decide (p ∈ positions isImageWithSource nodes)) as [Hin|Hout].
  - destruct (Hproc Hin) as (stats & w & ->). by apply processed_form.
  - rewrite (Hsame Hout). by left.
Qed.

Lemma foldl_streamNodeAt_releases (sock : Z → bool) streamed l :
  ∀ (nodes : list IRNode) (st : St) p x,
    (foldl (streamNodeAt cfg sock Date_now streamed) (nodes, st) l).1 !! p
    = Some x →
    _imageBuffer x = None ∨ ((p ∉ l.*2) ∧ nodes !! p = Some x).
Proof.
  induction l as [|[j q] l IH]; intros nodes st p x; simpl.
  { intros Hp. right. split; [by intros ?%elem_of_nil|done]. }
  destruct (nodes !! q) as [node|] eqn:Hq.
  - destruct (_imageBuffer node) as [buf|] eqn:Hbuf.
    + intros [Hnone|[Hout Hlk]]%IH; [by left|].
      destruct (decide (p = q)) as [->|Hne].
      * rewrite list_lookup_insert_eq in Hlk by (by eapply lookup_lt_Some).
        injection Hlk as <-. by left.
      * rewrite list_lookup_insert_ne in Hlk by done. right.
        split; [|done]. by intros [?|?]%elem_of_cons.
    + intros [Hnone|[Hout Hlk]]%IH; [by left|].
      destruct (decide (p = q)) as [->|Hne].
      * left. congruence.
      * right. split; [|done]. by intros [?|?]%elem_of_cons.
  - intros [Hnone|[Hout Hlk]]%IH; [by left|].
    right. split; [|done]. intros [->|?]%elem_of_cons; [congruence|done].
Qed.

Lemma streamImageChunks_releases (sock : Z → bool) (nodes : list IRNode)
    (st : St) :
  Forall (λ x, isStreamedNode x = false → _imageBuffer x = None) nodes →
  Forall (λ x, _imageBuffer x = None)
    (streamImageChunks cfg sock Date_now nodes st).1.
Proof.
  intros Hnodes. rewrite Forall_forall in Hnodes.
  apply Forall_forall. intros x [p Hp]%list_elem_of_lookup.
  assert (_imageBuffer x = None
          ∨ ((p ∉ positions isStreamedNode nodes) ∧ nodes !! p = Some x))
    as [Hnone|[Hout Hlk]]; [|done|].
  { unfold streamImageChunks in Hp. case_decide as Hn.
    - apply nil_length_inv in Hn. rewrite Hn. right.
      split; [by intros ?%elem_of_nil|done].
    - apply foldl_streamNodeAt_releases in Hp.
      rewrite snd_zip in Hp by (rewrite length_seq; lia). done. }
  apply Hnodes; [apply list_elem_of_lookup; eauto|].
  destruct (isStreamedNode x) eqn:Hs; [|done].
  exfalso. apply Hout. apply elem_of_positions. eauto.
Qed.

(** X11. The nodes are cloned for the NODES envelopes after [processAllImages]
    has written the payloads onto them and before [streamImageChunks]
    removes the untyped [_imageBuffer]. For nodes that come without payload,
    every node of the payload is sent once, in order, in one of three forms:
    without payload; with [imageData], of fewer bytes than the threshold;
    or with the descriptor [imageChunkRef] and, in [_imageBuffer], the
    whole payload of at least the threshold, which the chunk stream then
    sends once more. The three forms exclude each other. When the session
    ends no node of the array holds an [_imageBuffer]. *)
Theorem nodes_envelopes_carry_payloads (payload : StreamPayload) (st : St) :
  Forall bare (nodes payload) →
  let r :=
    streamExtractedPage cfg fetchAndConvert alwaysOpen Date_now payload st in
  ∃ sent,
    ws r.2 = ws st ++ sent
    ∧ map id (concat (map nodesOf sent)) = map id (nodes payload)
    ∧ Forall (λ x, bare x ∨ inlineForm cfg x ∨ streamedForm cfg x)
        (concat (map nodesOf sent))
    ∧ Forall (λ x, _imageBuffer x = None) r.1.
Proof.
  intros Hbare r.
  pose proof (session_shape cfg fetchAndConvert alwaysOpen Date_now
                alwaysOpen_open payload st)
    as (progress & tokensPart & fontsPart & batches & chunks & Hws & _ & _
        & Hprog & _ & Htok & Hfonts & Hbatches & Hcat & Hchunks & _).
  cbv zeta in Hws, Hcat. fold r in Hws.
  set (nodes1 := attachImageSources (nodes payload)) in *.
  set (st0 := StreamController.mkState (sequenceNumber st) (imageProcessor st)
                (Z.of_nat (length (nodes payload))) (ws st) (world st)) in *.
  assert (Forall bare nodes1) as Hbare1.
  { subst nodes1. unfold attachImageSources. apply Forall_fmap.
    eapply Forall_impl; [exact Hbare|]. intros x. apply attachImageSource_bare. }
  pose proof (processAllImages_forms nodes1 st0 Hbare1) as Hforms.
  assert (∀ l, Forall (λ m, nodesOf m = []) l → concat (map nodesOf l) = [])
    as Hnone.
  { induction 1 as [|m l Hm _ IH]; simpl; [done|]. by rewrite Hm, IH. }
  eexists. split; [exact Hws|].
  rewrite !map_app, !concat_app.
  rewrite (Hnone progress), (Hnone tokensPart), (Hnone fontsPart),
    (Hnone chunks); simpl.
  - rewrite app_nil_r, Hcat. split; [|split; [exact Hforms|]].
    + rewrite (foldl_processAt_ids cfg fetchAndConvert).
      subst nodes1. apply attachImageSources_ids.
    + subst r. unfold streamExtractedPage. fold nodes1. fold st0.
      pose proof (processAllImages_spec cfg fetchAndConvert alwaysOpen
                    alwaysOpen_open nodes1 st0) as (Hn & _).
      cbv zeta in Hn.
      destruct (processAllImages _ _ _ nodes1 st0) as [nodes2 st1].
      simpl in Hn. subst nodes2.
      match goal with
      | |- context [streamImageChunks _ _ _ ?n ?s] =>
          pose proof (streamImageChunks_releases alwaysOpen n s) as Hrel;
          destruct (streamImageChunks _ _ _ n s) as [nodes3 st5]
      end.
      simpl. apply Hrel.
      eapply Forall_impl; [exact Hforms|].
      intros x [(_ & _ & Hb)|[(buf & _ & _ & _ & Hb)|(buf & _ & _ & Href & _)]];
        [done|done|].
      unfold isStreamedNode. by rewrite Href.
  - eapply Forall_impl; [exact Hchunks|]. by intros [] [?|?].
  - eapply Forall_impl; [exact Hfonts|]. by intros [].
  - subst tokensPart. destruct (tokens payload); by repeat constructor.
  - eapply Forall_impl; [exact Hprog|]. by intros [].
Qed.

Lemma processed_hasResolvedUrl node stats w :
  hasResolvedUrl (processed node stats w) = hasResolvedUrl node.
Proof.
  destruct (processed_cases cfg fetchAndConvert node stats w)
    as [->|[[meta ->]|(meta & buf & shouldStream & ->)]]; try done.
  unfold attachResult. by destruct shouldStream.
Qed.

Lemma foldl_processAt_total ps : ∀ (nodes : list IRNode) (st : St),
  (∀ p, p ∈ ps → ∃ n, nodes !! p = Some n ∧ hasResolvedUrl n = true) →
  totalImages (imageProcessor (foldl processAt (nodes, st) ps).2)
  = totalImages (imageProcessor st) + Z.of_nat (length ps).
Proof.
  induction ps as [|q ps IH]; intros nodes st Hps; cbn [foldl].
  { simpl. lia. }
  destruct (Hps q) as (nq & Hnq & Hurl); [by left|].
  rewrite (processAt_found cfg fetchAndConvert nodes st q nq Hnq).
  rewrite IH.
  - cbn [imageProcessor length].
    pose proof (process_counted cfg fetchAndConvert nq (imageProcessor st)
                  (world st) Hurl) as Hc.
    inversion Hc; lia.
  - intros p Hp. destruct (Hps p) as (n & Hn & Hu); [by right|].
    destruct (decide (p = q)) as [->|Hne].
    + eexists. rewrite list_lookup_insert_eq by (by eapply lookup_lt_Some).
      split; [done|]. rewrite processed_hasResolvedUrl. congruence.
    + exists n. by rewrite list_lookup_insert_ne.
Qed.

Lemma attachImageSource_hasUrl node :
  imageSource node = None →
  isImageWithSource (attachImageSource node) = hasUrl node
  ∧ hasResolvedUrl (attachImageSource node) = hasUrl node.
Proof.
  intros Hsrc.
  assert (bool_decide (is_Some (None : option ImageSource)) = false) as Hno.
  { apply bool_decide_eq_false_2. by intros [? ?]. }
  unfold attachImageSource, isImageWithSource, hasResolvedUrl, hasUrl.
  destruct (bool_decide (type node = IMAGE)) eqn:Ht; cbn [negb andb].
  2: { by rewrite Ht, Hsrc. }
  destruct (image node) as [img|].
  2: { by rewrite Ht, Hsrc, Hno. }
  destruct (truthy (url img)) eqn:Hurl; cbn [negb].
  - cbn [type imageSource resolvedUrl]. rewrite Ht, Hurl. split; [|done].
    cbn [andb]. apply bool_decide_eq_true_2. eauto.
  - by rewrite Ht, Hsrc, Hno.
Qed.

Lemma length_positions {A} (keep : A → bool) (l : list A) :
  length (positions keep l) = length (filter (λ x, keep x = true) l).
Proof. eapply Forall2_length, positions_filter. Qed.

Lemma filter_attached nodes :
  Forall (λ n, imageSource n = None) nodes →
  length (filter (λ x, isImageWithSource x = true) (attachImageSources nodes))
  = length (filter (λ n, hasUrl n = true) nodes).
Proof.
  unfold attachImageSources.
  induction 1 as [|n l Hn _ IH]; [done|].
  cbn [map]. rewrite !filter_cons.
  destruct (attachImageSource_hasUrl n Hn) as [-> _].
  destruct (hasUrl n); simpl; by rewrite IH.
Qed.

(** X12. [attachImageSources] gives a source to the IMAGE nodes with a non-empty
    [image.url], and [processImageForNode] counts a node when it has a
    source with a URL. For nodes that come without a source, the counter
    [totalImages], which COMPLETE reports, goes up by the number of IMAGE
    nodes with a non-empty URL, whether their fetch fails or not and whether
    the socket is open or not; COMPLETE reports the length of the node array
    as [totalNodes]. *)
Theorem total_images_counts_image_urls (payload : StreamPayload) (st : St) :
  Forall (λ n, imageSource n = None) (nodes payload) →
  let counted :=
    totalImages (imageProcessor st)
    + Z.of_nat (length (filter (λ n, hasUrl n = true) (nodes payload))) in
  let r :=
    streamExtractedPage cfg fetchAndConvert wsOpen Date_now payload st in
  let r1 :=
    streamExtractedPage cfg fetchAndConvert alwaysOpen Date_now payload st in
  totalImages (imageProcessor r.2) = counted
  ∧ ∃ before inlineImages streamedImages n,
      ws r1.2
      = ws st ++ before
        ++ [COMPLETE (Z.of_nat (length (nodes payload))) counted
              inlineImages streamedImages n].
Proof.
  intros Hsrc counted r r1.
  destruct (session_drops payload st) as (_ & _ & Hstats & _).
  fold r r1 in Hstats. rewrite <- Hstats.
  pose proof (session_shape cfg fetchAndConvert alwaysOpen Date_now
                alwaysOpen_open payload st)
    as (progress & tokensPart & fontsPart & batches & chunks & Hws & Hst & _).
  cbv zeta in Hws, Hst. fold r1 in Hws, Hst.
  set (nodes1 := attachImageSources (nodes payload)) in *.
  set (st0 := StreamController.mkState (sequenceNumber st) (imageProcessor st)
                (Z.of_nat (length (nodes payload))) (ws st) (world st)) in *.
  assert (totalImages (imageProcessor r1.2) = counted) as Hcount.
  { rewrite Hst, foldl_processAt_total.
    - subst counted st0 nodes1. cbn [imageProcessor].
      rewrite length_positions, filter_attached by done. done.
    - intros p (x & Hx & Hkeep)%elem_of_positions. exists x. split; [done|].
      subst nodes1. unfold attachImageSources in Hx.
      apply list_lookup_fmap_Some in Hx as (n & -> & Hn).
      rewrite Forall_forall in Hsrc.
      destruct (attachImageSource_hasUrl n) as [H1 H2].
      { apply Hsrc. apply list_elem_of_lookup. eauto. }
      congruence. }
  split; [done|].
  exists (progress ++ tokensPart ++ fontsPart ++ batches ++ chunks).
  do 3 eexists. rewrite Hws, <- Hst, Hcount, <- !app_assoc. done.
Qed.

End Wire.

End StreamWireFacts.

(** ** More on the consumer *)

Module ConsumerCountFacts.
Import IR Consumer ConsumerCounts ConsumerFacts.

Section Consumer.

Context {SceneNode Figma : Type} `{!Renderer SceneNode Figma}.

Abbreviation CState := (@Consumer.State SceneNode Figma).













End Consumer.

End ConsumerCountFacts.

(** ** The controller and the consumer end to end *)

Module PipelineFacts.
Import IR Config ImageProcessor Consumer StreamWire.
Import ImageAssemblerFacts RoundTripFacts StreamControllerFacts.
Import ConsumerFacts SessionFacts ImageAssemblerRunFacts StreamWireFacts.

Section Pipeline.

Context {World SceneNode Figma : Type} `{!Renderer SceneNode Figma}.
Context (cfg : CONFIG).
Context (fetchAndConvert : string → World → ProcessingResult * World).
Context (Date_now : Z → Z).

Abbreviation CState := (@Consumer.State SceneNode Figma).

Lemma setAssembler_same (cst : CState) :
  setAssembler (imageAssembler cst) cst = cst.
Proof. by destruct cst. Qed.

Lemma createPendingImageNode_history nodeId (st : CState) :
  history (createPendingImageNode nodeId st) = history st
  ∨ ∃ fate, fate ≠ Placeholder
            ∧ history (createPendingImageNode nodeId st)
              = history st ++ [(nodeId, fate)].
Proof.
  unfold createPendingImageNode.
  destruct (pendingImageNodes st !! nodeId) as [node|]; [|by left].
  destruct (ImageAssembler.assemble nodeId (imageAssembler st))
    as [[[assembled|]|err] b]; [|by left..].
  match goal with |- context [materialize nodeId ?n ?s] =>
    destruct (materialize_effect nodeId n s) as (_ & _ & fate & Hf & Hh)
  end.
  right. exists fate. split; [done|]. simpl. by rewrite Hh.
Qed.

Lemma onmessage_no_placeholder tick fuel now m (st st' : CState) :
  ¬ isCompleteMessage m →
  onmessage tick fuel now m st = Some st' →
  Forall (λ e, e.2 ≠ Placeholder) (history st) →
  Forall (λ e, e.2 ≠ Placeholder) (history st').
Proof.
  intros Hm. destruct m; simpl in *; try done; intros [= <-] Hh; try done.
  - unfold handleStreamNodeBatch. simpl.
    revert st Hh. induction nodes as [|node nodes IH]; intros st Hh; [done|].
    simpl. apply IH.
    destruct (handleNode_effect st node)
      as [(_ & _ & ->)|(_ & _ & fate & Hf & ->)]; [done|].
    apply Forall_app. split; [done|]. by repeat constructor.
  - unfold handleImageChunk.
    destruct (ImageAssembler.isComplete _ _); [|done].
    match goal with |- context [createPendingImageNode ?i ?s] =>
      destruct (createPendingImageNode_history i s)
        as [->|(fate & Hf & ->)]; [done|]
    end.
    apply Forall_app. split; [done|]. by repeat constructor.
Qed.

Lemma run_no_placeholder tick fuel msgs : ∀ (st st' : CState),
  Forall (λ tm, ¬ isCompleteMessage tm.2) msgs →
  run tick fuel msgs st = Some st' →
  Forall (λ e, e.2 ≠ Placeholder) (history st) →
  Forall (λ e, e.2 ≠ Placeholder) (history st').
Proof.
  induction msgs as [|[now m] msgs IH]; intros st st' Hall; simpl.
  - by intros [= <-].
  - apply Forall_cons in Hall as [Hm Hall].
    destruct (onmessage tick fuel now m st) as [st1|] eqn:Hst1; [|done].
    intros Hrun Hh. eapply IH; [done|exact Hrun|].
    by eapply onmessage_no_placeholder.
Qed.

(** The envelopes before the first NODES leave the consumer idle. *)
Lemma run_prelude tick fuel msgs : ∀ (st : CState),
  Forall (λ tm, isProcessingProgress tm.2 ∨ isTokens tm.2 ∨ isFonts tm.2)
         msgs →
  pendingImageNodes st = ∅ → imageAssembler st = ∅ → history st = [] →
  ∃ st', run tick fuel msgs st = Some st'
         ∧ pendingImageNodes st' = ∅ ∧ imageAssembler st' = ∅
         ∧ history st' = [].
Proof.
  induction msgs as [|[now m] msgs IH]; intros st Hall Hp Ha Hh; simpl.
  { by exists st. }
  apply Forall_cons in Hall as [Hm Hall]. simpl in Hm.
  destruct m; simpl in *; try (exfalso; tauto); by apply IH.
Qed.

Lemma foldl_handleNode_pending nodes : ∀ (st : CState),
  imageAssembler (foldl handleNode st nodes) = imageAssembler st
  ∧ ∀ i, is_Some (pendingImageNodes (foldl handleNode st nodes) !! i)
         ↔ is_Some (pendingImageNodes st !! i)
           ∨ ∃ x, x ∈ nodes ∧ isStreamedNode x = true ∧ id x = i.
Proof.
  induction nodes as [|node nodes IH]; intros st; simpl.
  { split; [done|]. intros i. split; [by left|].
    intros [?|(x & Hx & _)]; [done|]. by apply elem_of_nil in Hx. }
  destruct (IH (handleNode st node)) as [Ha Hp].
  assert (imageAssembler (handleNode st node) = imageAssembler st) as Ha1.
  { unfold handleNode. destruct (isStreamedNode node); [done|].
    match goal with |- context [materialize ?k ?n ?s] =>
      by destruct (materialize_effect k n s) as (_ & -> & _)
    end. }
  split; [by rewrite Ha|]. intros i. rewrite Hp.
  destruct (handleNode_effect st node)
    as [(Hs & -> & _)|(Hs & -> & _)].
  - rewrite lookup_insert_is_Some. split.
    + intros [[<-|[_ ?]]|(x & Hx & Hsx & Hid)].
      * right. exists node. split; [by left|done].
      * by left.
      * right. exists x. split; [by right|done].
    + intros [?|(x & [->|Hx]%elem_of_cons & Hsx & Hid)].
      * destruct (decide (id node = i)); [left; by left|].
        left. by right.
      * left. by left.
      * right. eauto.
  - split.
    + intros [?|(x & Hx & Hsx & Hid)]; [by left|].
      right. exists x. split; [by right|done].
    + intros [?|(x & [->|Hx]%elem_of_cons & Hsx & Hid)]; [by left| |].
      * congruence.
      * right. eauto.
Qed.

Lemma run_batches tick fuel msgs : ∀ (st : CState),
  Forall (λ tm, isNodes tm.2) msgs →
  ∃ st', run tick fuel msgs st = Some st'
         ∧ imageAssembler st' = imageAssembler st
         ∧ ∀ i, is_Some (pendingImageNodes st' !! i)
                ↔ is_Some (pendingImageNodes st !! i)
                  ∨ ∃ x, x ∈ concat (map (λ tm, nodesOf tm.2) msgs)
                         ∧ isStreamedNode x = true ∧ id x = i.
Proof.
  induction msgs as [|[now m] msgs IH]; intros st Hall; simpl.
  { exists st. split; [done|]. split; [done|]. intros i. split; [by left|].
    intros [?|(x & Hx & _)]; [done|]. by apply elem_of_nil in Hx. }
  apply Forall_cons in Hall as [Hm Hall].
  destruct m; simpl in Hm; try done. simpl.
  destruct (IH (handleStreamNodeBatch nodes st) Hall) as (st' & Hrun & Ha & Hp).
  exists st'. split; [done|].
  destruct (foldl_handleNode_pending nodes st) as [Ha1 Hp1].
  split; [by rewrite Ha|]. intros i. rewrite Hp.
  unfold handleStreamNodeBatch. simpl. rewrite Hp1.
  setoid_rewrite elem_of_app. split.
  - intros [[?|(x & ? & ? & ?)]|(x & ? & ? & ?)]; eauto 10.
  - intros [?|(x & [?|?] & ? & ?)]; eauto 10.
Qed.

Abbreviation chunksOf := (StreamController.specChunk cfg Date_now).
Abbreviation received :=
  (λ (arrival : Z → Z) b m,
     Consumer.addChunkMessage (arrival (IR.sequenceNumber m)) b m).

Lemma onmessage_chunk tick fuel now node buf n i (st : CState) :
  onmessage tick fuel now (chunksOf node buf n i) st
  = Some (if ImageAssembler.isComplete (id node)
               (addChunkMessage now (imageAssembler st) (chunksOf node buf n i))
          then createPendingImageNode (id node)
                 (setAssembler
                    (addChunkMessage now (imageAssembler st)
                       (chunksOf node buf n i)) st)
          else setAssembler
                 (addChunkMessage now (imageAssembler st)
                    (chunksOf node buf n i)) st).
Proof. reflexivity. Qed.

Lemma received_snoc arrival node buf n (b : ImageAssembler.Buffers) (j : nat) :
  addChunkMessage (arrival (IR.sequenceNumber (chunksOf node buf n (Z.of_nat j))))
    (foldl (received arrival) b (map (chunksOf node buf n) (seqZ 0 (Z.of_nat j))))
    (chunksOf node buf n (Z.of_nat j))
  = foldl (received arrival) b
      (map (chunksOf node buf n) (seqZ 0 (Z.of_nat (S j)))).
Proof. by rewrite seqZ_S, Z.add_0_l, map_app, foldl_app. Qed.

Lemma setAssembler_twice b1 b2 (cst : CState) :
  setAssembler b1 (setAssembler b2 cst) = setAssembler b1 cst.
Proof. reflexivity. Qed.

Lemma imageAssembler_setAssembler b (cst : CState) :
  imageAssembler (setAssembler b cst) = b.
Proof. reflexivity. Qed.

(** The chunks of an item but the last are buffered and nothing else. *)
Lemma run_chunks_buffered tick fuel arrival node buf n (cst : CState) :
  imageAssembler cst !! id node = None →
  ∀ j : nat,
    Z.of_nat j
    < StreamController.ceil_div (Z.of_nat (length buf)) (IMAGE_CHUNK_SIZE cfg) →
    run tick fuel (timed arrival (map (chunksOf node buf n)
                                    (seqZ 0 (Z.of_nat j)))) cst
    = Some (setAssembler
              (foldl (received arrival) (imageAssembler cst)
                 (map (chunksOf node buf n) (seqZ 0 (Z.of_nat j))))
              cst).
Proof.
  intros Hb. induction j as [|j IH]; intros Hj.
  { simpl. by rewrite setAssembler_same. }
  rewrite <- received_snoc.
  rewrite seqZ_S, Z.add_0_l, map_app, timed_app, run_app, IH by lia.
  cbn [map timed run]. rewrite onmessage_chunk.
  rewrite imageAssembler_setAssembler, setAssembler_twice, received_snoc.
  rewrite (deliver_chunks cfg Date_now arrival) by (done || lia).
  unfold ImageAssembler.isComplete. rewrite lookup_insert_eq.
  cbn [ImageAssembler.receivedChunks ImageAssembler.totalChunks].
  rewrite bool_decide_eq_false_2 by lia. done.
Qed.

(** The last chunk of an item completes it: the bytes are assembled, the
    node is created and the item leaves the pending table. *)
Lemma run_item_chunks tick fuel arrival node buf n (cst : CState) :
  0 < IMAGE_CHUNK_SIZE cfg →
  (1 ≤ length buf)%nat →
  imageAssembler cst !! id node = None →
  is_Some (pendingImageNodes cst !! id node) →
  ∃ cst',
    run tick fuel
      (timed arrival
         (map (chunksOf node buf n)
            (seqZ 0 (StreamController.ceil_div (Z.of_nat (length buf))
                       (IMAGE_CHUNK_SIZE cfg))))) cst
    = Some cst'
    ∧ imageAssembler cst' = imageAssembler cst
    ∧ pendingImageNodes cst' = delete (id node) (pendingImageNodes cst)
    ∧ ∃ fate, fate ≠ Placeholder
              ∧ history cst' = history cst ++ [(id node, fate)].
Proof.
  intros Hsize Hlen Hb [pnode Hpending].
  set (count := StreamController.ceil_div (Z.of_nat (length buf))
                  (IMAGE_CHUNK_SIZE cfg)).
  assert (1 ≤ count) as Hcount.
  { pose proof (ceil_div_pos (Z.of_nat (length buf)) (IMAGE_CHUNK_SIZE cfg)).
    subst count. lia. }
  destruct (Z.to_nat count) as [|k] eqn:Hk; [lia|].
  assert (count = Z.of_nat (S k)) as Hcount' by lia.
  rewrite Hcount', seqZ_S, Z.add_0_l, map_app, timed_app, run_app.
  rewrite run_chunks_buffered by (done || (fold count; lia)).
  cbn [map timed run]. rewrite onmessage_chunk.
  rewrite imageAssembler_setAssembler, setAssembler_twice, received_snoc.
  rewrite (deliver_chunks cfg Date_now arrival) by (done || lia).
  fold count.
  set (f := λ i : Z, take (Z.to_nat (IMAGE_CHUNK_SIZE cfg))
              (drop (Z.to_nat i * Z.to_nat (IMAGE_CHUNK_SIZE cfg)) buf)).
  set (entry := ImageAssembler.mkChunkBuffer _ _ _ _ _).
  assert (ImageAssembler.isComplete (id node)
            (<[id node := entry]> (imageAssembler cst)) = true) as ->.
  { unfold ImageAssembler.isComplete. rewrite lookup_insert_eq. simpl.
    apply bool_decide_eq_true_2. lia. }
  unfold createPendingImageNode.
  cbn [pendingImageNodes imageAssembler setAssembler]. rewrite Hpending.
  assert (ImageAssembler.assemble (id node)
            (<[id node := entry]> (imageAssembler cst))
          = (Return (Some buf), imageAssembler cst)) as ->.
  { erewrite (assemble_full (id node) _ _ f);
      [|apply lookup_insert_eq|simpl; lia|simpl; lia
       |simpl; by rewrite Hcount', Nat2Z.id].
    simpl. rewrite delete_insert_id by done. do 3 f_equal.
    rewrite Hcount'. unfold f. rewrite concat_slices. apply take_ge.
    pose proof (ceil_div_covers (Z.of_nat (length buf)) (IMAGE_CHUNK_SIZE cfg))
      as Hcover.
    fold count in Hcover. nia. }
  eexists. split; [done|].
  match goal with |- context [materialize ?key ?nd ?s] =>
    destruct (materialize_effect key nd s) as (Hp & Ha & fate & Hf & Hh)
  end.
  cbn [imageAssembler pendingImageNodes history postMessage deletePending].
  rewrite Ha, Hp, Hh.
  split; [done|]. split; [done|]. by exists fate.
Qed.

Lemma run_chunk_stream tick fuel arrival items :
  ∀ j streamed n (cst : CState),
    0 < IMAGE_CHUNK_SIZE cfg →
    0 < IMAGE_SIZE_THRESHOLD cfg →
    Forall (streamedForm cfg) items →
    NoDup (map id items) →
    imageAssembler cst = ∅ →
    (∀ x, x ∈ items → is_Some (pendingImageNodes cst !! id x)) →
    ∃ cst',
      run tick fuel
        (timed arrival
           (StreamController.specChunkStream cfg Date_now items j streamed n))
        cst
      = Some cst'
      ∧ imageAssembler cst' = ∅
      ∧ ∀ i, pendingImageNodes cst' !! i
             = if decide (i ∈ map id items) then None
               else pendingImageNodes cst !! i.
Proof.
  induction items as [|x items IH];
    intros j streamed n cst Hsize Hthr Hforms Hnd Ha Hpending.
  { exists cst. split; [done|]. split; [done|]. intros i.
    cbn [map]. case_decide as Hin; [by apply elem_of_nil in Hin|done]. }
  apply Forall_cons in Hforms as [(buf & Hbuf & Hbig & _) Hforms].
  cbn [map] in Hnd. apply NoDup_cons in Hnd as [Hx Hnd].
  cbn [StreamController.specChunkStream]. rewrite Hbuf.
  rewrite timed_app, run_app.
  destruct (run_item_chunks tick fuel arrival x buf n cst)
    as (cst1 & -> & Ha1 & Hp1 & _); [done|lia| |apply Hpending; by left|].
  { by rewrite Ha, lookup_empty. }
  cbn [timed map run onmessage].
  edestruct (IH (S j) streamed
               (n + StreamController.ceil_div (Z.of_nat (length buf))
                      (IMAGE_CHUNK_SIZE cfg) + 1))
    as (cst' & Hrun & Ha' & Hp'); [done|done|done|done| | |].
  3: { exists cst'. split; [exact Hrun|]. split; [done|]. intros i.
       rewrite Hp'. cbn [pendingImageNodes postMessage]. rewrite Hp1.
       cbn [map]. destruct (decide (i = id x)) as [->|Hne].
       - rewrite lookup_delete_eq.
         rewrite (decide_True (P := id x ∈ id x :: map id items))
           by (by left).
         by case_decide.
       - rewrite lookup_delete_ne by done.
         destruct (decide (i ∈ map id items)) as [Hin|Hout].
         + by rewrite decide_True by (by right).
         + rewrite decide_False; [done|].
           by intros [?|?]%elem_of_cons. }
  - cbn [imageAssembler postMessage]. by rewrite Ha1.
  - intros y Hy. cbn [pendingImageNodes postMessage]. rewrite Hp1.
    rewrite lookup_delete_ne; [apply Hpending; by right|].
    intros Heq. apply Hx. rewrite Heq. apply list_elem_of_fmap. by exists y.
Qed.

Lemma delivered_timed arrival l :
  delivered (timed arrival l) = map id (concat (map nodesOf l)).
Proof.
  unfold delivered, timed. induction l as [|m l IH]; [done|].
  cbn [map flat_map concat]. rewrite map_app, IH. f_equal. by destruct m.
Qed.

Lemma handleStreamComplete_idle tick fuel startTime (st : CState) :
  pendingImageNodes st = ∅ →
  handleStreamComplete tick fuel startTime st = Some st.
Proof.
  intros Hp. unfold handleStreamComplete.
  assert (poll tick fuel 0 startTime st = Some st) as ->.
  { destruct fuel; simpl; by rewrite Hp, map_size_empty. }
  by rewrite Hp, map_size_empty.
Qed.

Lemma form_wellFormed x :
  bare x ∨ inlineForm cfg x ∨ streamedForm cfg x →
  StreamController.wellFormed cfg x.
Proof.
  unfold StreamController.wellFormed.
  intros [(_ & -> & ->)|[(buf & _ & _ & -> & ->)|(buf & -> & _ & -> & _)]];
    done.
Qed.

Lemma form_streamed x :
  bare x ∨ inlineForm cfg x ∨ streamedForm cfg x →
  isStreamedNode x = true → streamedForm cfg x.
Proof.
  unfold isStreamedNode.
  intros [(_ & -> & _)|[(buf & _ & _ & -> & _)|?]]; done.
Qed.

Lemma specChunkStream_kinds items : ∀ j streamed n,
  Forall (λ m, isImageChunk m ∨ isStreamingProgress m)
    (StreamController.specChunkStream cfg Date_now items j streamed n).
Proof.
  induction items as [|x l IH]; intros j streamed n; [constructor|].
  cbn [StreamController.specChunkStream].
  destruct (_imageBuffer x); [|apply IH].
  apply Forall_app. split.
  - apply Forall_forall. intros m (i & -> & _)%list_elem_of_fmap. by left.
  - constructor; [by right|apply IH].
Qed.

(** X14. When the envelopes of a session reach the consumer in the order in
    which the controller sent them, on a socket that stays open, nothing is
    left to the finalisation: the last chunk of every streamed image
    completes its entry, the bytes are assembled and the node is created at
    once. For a payload of nodes with distinct ids and no payload attached
    yet, and a positive chunk size and threshold, the consumer ends with an
    empty pending table and an empty assembler, every node of the payload
    was handed to [createEnhancedNode] exactly once and no placeholder was
    made; the handler of COMPLETE returns without sleeping, whatever the
    clock. *)
Theorem in_order_session_creates_every_node
    (payload : StreamController.StreamPayload) (w0 : World) (f : Figma)
    (arrival : Z → Z) (tick : nat → Tick) (fuel : nat) :
  Forall bare (StreamController.nodes payload) →
  NoDup (map id (StreamController.nodes payload)) →
  0 < IMAGE_CHUNK_SIZE cfg →
  0 < IMAGE_SIZE_THRESHOLD cfg →
  let r :=
    StreamController.streamExtractedPage cfg fetchAndConvert alwaysOpen
      Date_now payload (StreamController.init w0) in
  ∃ cst',
    run tick fuel (timed arrival (StreamController.ws r.2)) (Consumer.init f)
    = Some cst'
    ∧ pendingImageNodes cst' = ∅
    ∧ imageAssembler cst' = ∅
    ∧ (history cst').*1 ≡ₚ map id (StreamController.nodes payload)
    ∧ Forall (λ e, e.2 ≠ Placeholder) (history cst').
Proof.
  intros Hbare Hids Hsize Hthr r.
  pose proof (session_shape cfg fetchAndConvert alwaysOpen Date_now
                alwaysOpen_open payload (StreamController.init w0))
    as (progress & tokensPart & fontsPart & batches & chunks & Hws & _ & _
        & Hprog & _ & Htok & Hfonts & Hbatches & Hcat & Hchunks & Hspec).
  cbv zeta in Hws, Hcat, Hspec. fold r in Hws.
  set (nodes1 := StreamController.attachImageSources
                   (StreamController.nodes payload)) in *.
  set (st0 := StreamController.mkState _ _ _ _ _) in *.
  set (nodes2 := (foldl (StreamController.processNodeAt cfg fetchAndConvert)
                    (nodes1, st0)
                    (StreamController.positions
                       StreamController.isImageWithSource nodes1)).1) in *.
  assert (Forall (λ x, bare x ∨ inlineForm cfg x ∨ streamedForm cfg x) nodes2)
    as Hforms.
  { apply processAllImages_forms. subst nodes1.
    unfold StreamController.attachImageSources. apply Forall_fmap.
    eapply Forall_impl; [exact Hbare|]. intros x. apply attachImageSource_bare. }
  assert (map id nodes2 = map id (StreamController.nodes payload)) as Hids2.
  { subst nodes2. rewrite (foldl_processAt_ids cfg fetchAndConvert).
    apply attachImageSources_ids. }
  set (items := filter (λ x, isStreamedNode x = true) nodes2) in *.
  specialize (Hspec Hsize).
  rewrite Hspec in Hws
    by (eapply Forall_impl; [exact Hforms|]; apply form_wellFormed).
  clear Hspec Hchunks. simpl in Hws.
  match type of Hws with
  | context [StreamController.specChunkStream _ _ _ _ _ ?n0] =>
      set (n := n0) in *
  end.
  match type of Hws with
  | context [COMPLETE ?a ?b ?c ?d ?e] => set (complete := COMPLETE a b c d e) in *
  end.
  set (stream := StreamController.specChunkStream cfg Date_now items 0
                   (length items) n) in *.
  assert (StreamController.ws r.2
          = (progress ++ tokensPart ++ fontsPart) ++ batches ++ stream
            ++ [complete]) as Hwire.
  { rewrite Hws. by rewrite <- !app_assoc. }
  rewrite Hwire, timed_app, run_app.
  (* the envelopes before the first NODES *)
  destruct (run_prelude tick fuel
              (timed arrival (progress ++ tokensPart ++ fontsPart))
              (Consumer.init f))
    as (st1 & -> & Hp1 & Ha1 & Hh1); [|done|done|done|].
  { apply (timed_Forall (λ m, isProcessingProgress m ∨ isTokens m ∨ isFonts m)).
    repeat (apply Forall_app; split).
    - eapply Forall_impl; [exact Hprog|]. auto.
    - rewrite Htok. destruct (StreamController.tokens payload); [|constructor].
      constructor; [simpl; auto|constructor].
    - eapply Forall_impl; [exact Hfonts|]. auto. }
  rewrite timed_app, run_app.
  (* the NODES batches *)
  destruct (run_batches tick fuel (timed arrival batches) st1)
    as (st2 & Hrun2 & Ha2 & Hp2).
  { by apply (timed_Forall isNodes). }
  rewrite Hrun2. rewrite timed_nodes, Hcat in Hp2.
  rewrite timed_app, run_app.
  (* the chunk stream *)
  destruct (run_chunk_stream tick fuel arrival items 0 (length items) n st2)
    as (st3 & Hrun3 & Ha3 & Hp3); [done|done| | | | |].
  { apply Forall_forall. intros x [Hs Hx]%list_elem_of_filter.
    apply form_streamed; [|done].
    rewrite Forall_forall in Hforms. by apply Hforms. }
  { apply (sublist_NoDup (map id items) (map id nodes2)).
    - by rewrite Hids2.
    - apply fmap_sublist, sublist_filter. }
  { by rewrite Ha2. }
  { intros x [Hs Hx]%list_elem_of_filter. apply Hp2. right. by exists x. }
  fold stream in Hrun3. rewrite Hrun3.
  assert (pendingImageNodes st3 = ∅) as Hempty.
  { apply map_eq. intros i. rewrite Hp3, lookup_empty.
    case_decide as Hin; [done|].
    destruct (pendingImageNodes st2 !! i) as [y|] eqn:Hy; [|done].
    exfalso. apply Hin.
    destruct (proj1 (Hp2 i)) as [Hold|(x & Hx & Hs & Hid)]; [by eexists| |].
    - rewrite Hp1, lookup_empty in Hold. by destruct Hold.
    - rewrite <- Hid. apply list_elem_of_fmap. exists x. split; [done|].
      by apply list_elem_of_filter. }
  (* COMPLETE *)
  exists st3. cbn [timed map run onmessage]. unfold complete.
  cbn [onmessage]. rewrite handleStreamComplete_idle by done.
  split; [done|]. split; [done|]. split; [by rewrite Ha3|].
  assert (run tick fuel (timed arrival (batches ++ stream)) st1 = Some st3)
    as Hrun.
  { by rewrite timed_app, run_app, Hrun2. }
  split.
  - destruct (run_beforeComplete tick fuel (timed arrival (batches ++ stream))
                [] st1) as (st' & Hrun' & Htracks).
    { apply (timed_Forall (λ m, ¬ isTokens m ∧ ¬ isCompleteMessage m)).
      apply Forall_app. split.
      - eapply Forall_impl; [exact Hbatches|].
        intros m Hm. destruct m; simpl in *; tauto.
      - eapply Forall_impl; [apply specChunkStream_kinds|].
        intros m Hm. destruct m; simpl in *; tauto. }
    rewrite Hrun in Hrun'. injection Hrun' as <-.
    destruct Htracks as [Hall Hnd].
    { split.
      - intros i. rewrite Hp1, lookup_empty, Hh1. split.
        + by intros ?%elem_of_nil.
        + intros [[? ?]|?%elem_of_nil]; done.
      - intros _. rewrite Hh1. split; [constructor|].
        intros i. rewrite Hp1, lookup_empty. by intros [? ?]. }
    assert ([] ++ delivered (timed arrival (batches ++ stream))
            = map id (StreamController.nodes payload)) as Hdel.
    { rewrite app_nil_l, delivered_timed, map_app, concat_app, Hcat.
      assert (concat (map nodesOf stream) = []) as ->; [|by rewrite app_nil_r].
      pose proof (specChunkStream_kinds items 0 (length items) n) as Hk.
      fold stream in Hk. clear -Hk.
      induction Hk as [|m l Hm _ IH]; [done|].
      cbn [map concat]. rewrite IH, app_nil_r.
      destruct m; simpl in *; tauto. }
    rewrite Hdel in Hall, Hnd.
    apply NoDup_Permutation.
    + by apply Hnd.
    + done.
    + intros i. rewrite Hall, Hempty, lookup_empty. split; [auto|].
      intros [[? ?]|?]; done.
  - eapply (run_no_placeholder tick fuel
              (timed arrival (batches ++ stream)) st1 st3); [|done|].
    + apply (timed_Forall (λ m, ¬ isCompleteMessage m)).
      apply Forall_app. split.
      * eapply Forall_impl; [exact Hbatches|].
        intros m Hm. destruct m; simpl in *; tauto.
      * eapply Forall_impl; [apply specChunkStream_kinds|].
        intros m Hm. destruct m; simpl in *; tauto.
    + rewrite Hh1. constructor.
Qed.

End Pipeline.

End PipelineFacts.

(** ** Fetching and converting one image *)

Module ImageFetchFacts.
Import IR Config ImageProcessor JsString ImageFetch.
Import ImageProcessorFacts.
Import Stdlib.Strings.Ascii.

Lemma toLowerCase_nonempty s : s ≠ "" → toLowerCase s ≠ "".
Proof. by destruct s. Qed.

Lemma matchImageType_nonempty s group :
  matchImageType s = Some group → group ≠ "".
Proof.
  induction s as [|c s IH]; cbn [matchImageType].
  - destruct (matchLiteral "data:image/" ""); [|done].
    destruct (takeWhile notSeparator s); [done|by intros [= <-]].
  - destruct (matchLiteral "data:image/" (String c s)) as [rest|]; [|exact IH].
    destruct (takeWhile notSeparator rest); [exact IH|by intros [= <-]].
Qed.

Lemma detectFormatFromDataUrl_format header format :
  detectFormatFromDataUrl header = Some format →
  format ≠ "" ∧ format ≠ "jpg".
Proof.
  unfold detectFormatFromDataUrl.
  destruct (matchImageType header) as [group|] eqn:Hm; [|done].
  apply matchImageType_nonempty, toLowerCase_nonempty in Hm.
  case_bool_decide; intros [= <-]; done.
Qed.

Lemma detectFormat_known bytes mime :
  detectFormat bytes mime ∈ ["png"; "jpeg"; "gif"; "webp"; "svg"; "unknown"].
Proof.
  unfold detectFormat.
  repeat match goal with
         | |- context [if ?b then _ else _] => destruct b
         end; set_solver.
Qed.

(** *** Strings put together *)

Lemma substring_all s : String.substring 0 (String.length s) s = s.
Proof. induction s as [|c s IH]; [done|]. simpl. by rewrite IH. Qed.

Lemma substring_head a rest :
  substring (a +:+ rest) 0 (String.length a) = a.
Proof.
  unfold substring. rewrite Nat.sub_0_r.
  induction a as [|c a IH]; simpl; [by destruct rest|]. by rewrite IH.
Qed.

Lemma length_append a b :
  String.length (a +:+ b) = (String.length a + String.length b)%nat.
Proof. induction a as [|c a IH]; simpl; [done|]. by rewrite IH. Qed.

Lemma substringFrom_tail a b :
  substringFrom (a +:+ "," +:+ b) (String.length a + 1) = b.
Proof.
  unfold substringFrom. change ("," +:+ b) with (String "," b).
  rewrite length_append. cbn [String.length].
  replace (String.length a + S (String.length b) - (String.length a + 1))%nat
    with (String.length b) by lia.
  induction a as [|c a IH]; [|exact IH].
  cbn. apply substring_all.
Qed.

Lemma indexOf_first_comma a b :
  allChars notComma a = true →
  indexOf (a +:+ "," +:+ b) "," = Some (String.length a).
Proof.
  unfold indexOf. change ("," +:+ b) with (String "," b).
  induction a as [|c a IH]; intros Ha.
  - cbn. by destruct b.
  - cbn [allChars] in Ha. apply andb_true_iff in Ha as [Hc Ha].
    unfold notComma in Hc. apply negb_true_iff in Hc.
    specialize (IH Ha).
    change (String c a +:+ String "," b) with (String c (a +:+ String "," b)).
    cbn [String.index String.prefix].
    destruct (ascii_dec "," c) as [<-|_]; [by rewrite Ascii.eqb_refl in Hc|].
    by rewrite IH.
Qed.

Lemma allChars_append test a b :
  allChars test (a +:+ b) = allChars test a && allChars test b.
Proof. induction a as [|c a IH]; simpl; [done|]. by rewrite IH, andb_assoc. Qed.

Lemma allChars_weaken (test1 test2 : Ascii.ascii → bool) s :
  (∀ c, test1 c = true → test2 c = true) →
  allChars test1 s = true → allChars test2 s = true.
Proof.
  intros Himp. induction s as [|c s IH]; simpl; [done|].
  intros [Hc Hs]%andb_true_iff. by rewrite (Himp c Hc), IH.
Qed.

Lemma takeWhile_group t params :
  allChars notSeparator t = true →
  (params = "" ∨ ∃ rest, params = String ";" rest) →
  takeWhile notSeparator (t +:+ params) = t.
Proof.
  intros Ht Hparams. induction t as [|c t IH]; simpl in *.
  - by destruct Hparams as [->|(rest & ->)].
  - apply andb_true_iff in Ht as [-> Ht]. by rewrite IH.
Qed.

Lemma matchLiteral_prefix p s : matchLiteral p (p +:+ s) = Some s.
Proof.
  induction p as [|c p IH]; [by destruct s|].
  change (String c p +:+ s) with (String c (p +:+ s)).
  cbn [matchLiteral]. by rewrite Ascii.eqb_refl.
Qed.

Lemma matchImageType_here s rest :
  matchLiteral "data:image/" s = Some rest →
  takeWhile notSeparator rest ≠ "" →
  matchImageType s = Some (takeWhile notSeparator rest).
Proof.
  intros Hlit Hgroup.
  destruct s; cbn [matchImageType]; rewrite Hlit;
    by destruct (takeWhile notSeparator rest).
Qed.

Lemma detectFormatFromDataUrl_header t params :
  t ≠ "" →
  allChars notSeparator t = true →
  (params = "" ∨ ∃ rest, params = String ";" rest) →
  detectFormatFromDataUrl ("data:image/" +:+ t +:+ params)
  = Some (if bool_decide (toLowerCase t = "jpg") then "jpeg"
          else toLowerCase t).
Proof.
  intros Hne Ht Hparams. unfold detectFormatFromDataUrl.
  rewrite (matchImageType_here _ (t +:+ params));
    rewrite ?takeWhile_group by done;
    [by case_bool_decide|apply matchLiteral_prefix|done].
Qed.

Lemma detectFormat_named bytes mime :
  detectFormat bytes mime ≠ "" ∧ detectFormat bytes mime ≠ "jpg".
Proof.
  unfold detectFormat.
  repeat match goal with
         | |- context [if ?b then _ else _] => destruct b
         end; done.
Qed.

Section Fetch.

Context {World : Type}.
Context (fetch : string → World → outcome (@Response World) * World).
Context (metadata : Bytes → World → outcome Metadata * World).
Context (toBuffer : Bytes → bool → World → outcome Bytes * World).
Context (Buffer_from : string → bool → outcome Bytes).

Abbreviation convert := (convertIfNeeded metadata toBuffer).
Abbreviation fetched := (fetchAndConvert fetch metadata toBuffer Buffer_from).

(** X15. [convertIfNeeded] catches whatever sharp throws and then hands back the
    bytes it was given, unconverted; it also hands them back, without
    calling the encoder, when the format is none of webp, avif and unknown
    and neither dimension exceeds 4096. When it reports a conversion, the
    bytes are what the PNG encoder returned, and the format called for it
    or a dimension was too large. *)
Theorem transcoder_failures_pass_the_bytes_through (bytes : Bytes)
    (format : string) (w : World) :
  let r := convert bytes format w in
  (r.1.2 = false → r.1.1 = bytes)
  ∧ (∀ message w1,
       metadata bytes w = (Throw message, w1) → r = ((bytes, false), w1))
  ∧ (∀ meta w1 message w2,
       metadata bytes w = (Return meta, w1) →
       toBuffer bytes (tooLarge (width meta) || tooLarge (height meta)) w1
       = (Throw message, w2) →
       r.1 = (bytes, false))
  ∧ (∀ meta w1,
       metadata bytes w = (Return meta, w1) →
       format ∉ ["webp"; "avif"; "unknown"] →
       tooLarge (width meta) = false → tooLarge (height meta) = false →
       r = ((bytes, false), w1))
  ∧ (r.1.2 = true →
     ∃ meta w1,
       metadata bytes w = (Return meta, w1)
       ∧ toBuffer bytes (tooLarge (width meta) || tooLarge (height meta)) w1
         = (Return r.1.1, r.2)
       ∧ (format ∈ ["webp"; "avif"; "unknown"]
          ∨ tooLarge (width meta) = true ∨ tooLarge (height meta) = true)).
Proof.
  intros r. subst r. unfold convertIfNeeded.
  destruct (metadata bytes w) as [[meta|message] w1] eqn:Hmeta.
  2: { cbn [fst snd]. split; [done|]. split; [by intros ? ? [= <- <-]|].
       split; [by intros ? ? ? ? [=]|]. split; [by intros ? ? [=]|]. done. }
  set (resize := tooLarge (width meta) || tooLarge (height meta)).
  case_bool_decide as Hformat; cbn [orb].
  - destruct (toBuffer bytes resize w1) as [[png|message] w2] eqn:Hpng;
      cbn [fst snd].
    + split; [done|]. split; [done|]. split.
      { intros ? ? ? ? [= <- <-]. fold resize. by rewrite Hpng. }
      split.
      { intros ? ? [= <- <-] Hnot. done. }
      intros _. exists meta, w1. fold resize. auto.
    + split; [done|]. split; [done|]. split; [done|]. split; [|done].
      intros ? ? [= <- <-] Hnot. done.
  - destruct resize eqn:Hresize; cbn [orb].
    + destruct (toBuffer bytes true w1) as [[png|message] w2] eqn:Hpng;
        cbn [fst snd].
      * split; [done|]. split; [done|]. split.
        { intros ? ? ? ? [= <- <-]. fold resize. by rewrite Hresize, Hpng. }
        split.
        { intros ? ? [= <- <-] _ Hw Hh. subst resize.
          by rewrite Hw, Hh in Hresize. }
        intros _. exists meta, w1. fold resize. rewrite Hresize.
        split; [done|]. split; [done|]. right.
        subst resize. by apply orb_true_iff in Hresize.
      * split; [done|]. split; [done|]. split; [done|]. split; [|done].
        intros ? ? [= <- <-] _ Hw Hh. subst resize.
        by rewrite Hw, Hh in Hresize.
    + split; [done|]. split; [done|]. split; [done|]. split; [|done].
      by intros ? ? [= <- <-].
Qed.

Lemma convert_format bytes format w :
  (convert bytes format w).1.2 = false
  ∨ (convert bytes format w).1.2 = true.
Proof. destruct ((convert bytes format w).1.2); auto. Qed.

Lemma fromDataUrl_shape dataUrl w :
  let res := (fromDataUrl metadata toBuffer Buffer_from dataUrl w).1 in
  (success res = true
   ∧ ∃ bytes format,
       buffer res = Some bytes
       ∧ res_originalFormat res = Some format
       ∧ format ≠ "" ∧ format ≠ "jpg"
       ∧ (res_convertedFormat res = Some "png"
          ∨ res_convertedFormat res = Some format)
       ∧ error res = None)
  ∨ (success res = false ∧ buffer res = None
     ∧ res_originalFormat res = None ∧ res_convertedFormat res = None
     ∧ ∃ message, error res = Some message).
Proof.
  unfold fromDataUrl.
  destruct (indexOf dataUrl ",") as [commaIndex|]; [|right; simpl; eauto 10].
  destruct (Buffer_from _ _) as [bytes|message]; [|right; simpl; eauto 10].
  set (format := orUnknown _).
  destruct (convertIfNeeded _ _ bytes format w) as [[processed converted] w1].
  left. simpl. split; [done|]. exists processed, format.
  split; [done|]. split; [done|].
  assert (format ≠ "" ∧ format ≠ "jpg") as [? ?].
  { subst format. unfold orUnknown.
    destruct (detectFormatFromDataUrl _) as [v|] eqn:Hv; [|done].
    apply detectFormatFromDataUrl_format in Hv as [Hne Hjpg].
    unfold truthy. by rewrite bool_decide_eq_false_2. }
  split; [done|]. split; [done|]. split; [|done].
  destruct converted; auto.
Qed.

Lemma fetchAndConvert_shape (imageUrl : string) (w : World) :
  let res := (fetched imageUrl w).1 in
  (success res = true
   ∧ ∃ bytes format,
       buffer res = Some bytes
       ∧ res_originalFormat res = Some format
       ∧ format ≠ "" ∧ format ≠ "jpg"
       ∧ (res_convertedFormat res = Some "png"
          ∨ res_convertedFormat res = Some format)
       ∧ error res = None)
  ∨ (success res = false ∧ buffer res = None
     ∧ res_originalFormat res = None ∧ res_convertedFormat res = None
     ∧ ∃ message, error res = Some message).
Proof.
  unfold fetchAndConvert.
  destruct (startsWith imageUrl "data:"); [apply fromDataUrl_shape|].
  destruct (fetch imageUrl w) as [[response|message] w1];
    [|right; simpl; eauto 10].
  destruct (ok response); cbn [negb]; [|right; simpl; eauto 10].
  destruct (arrayBuffer response w1) as [[bytes|message] w2];
    [|right; simpl; eauto 10].
  set (format := detectFormat bytes _).
  pose proof (detectFormat_named bytes
                match contentType response with Some s => s | None => "" end)
    as [Hne Hjpg].
  fold format in Hne, Hjpg.
  destruct (convertIfNeeded _ _ bytes format w2) as [[processed converted] w3].
  left. simpl. split; [done|]. exists processed, format.
  split; [done|]. split; [done|].
  split; [done|]. split; [done|]. split; [|done].
  destruct converted; auto.
Qed.

(** X16. [fetchAndConvert] catches every failure. Its result is either a
    success with bytes, with the name of the original format, which is
    never empty and never jpg, and with a converted format that is png or
    the original format, and without error; or a failure without bytes and
    without formats, with an error message. So the test [!result.buffer]
    of the caller never decides. *)
Theorem fetch_result_is_bytes_or_error (imageUrl : string) (w : World) :
  let res :=
    (fetchAndConvert fetch metadata toBuffer Buffer_from imageUrl w).1 in
  (success res = true
   ∧ ∃ bytes format,
       buffer res = Some bytes
       ∧ res_originalFormat res = Some format
       ∧ format ≠ "" ∧ format ≠ "jpg"
       ∧ (res_convertedFormat res = Some "png"
          ∨ res_convertedFormat res = Some format)
       ∧ error res = None)
  ∨ (success res = false ∧ buffer res = None
     ∧ res_originalFormat res = None ∧ res_convertedFormat res = None
     ∧ ∃ message, error res = Some message).
Proof. apply fetchAndConvert_shape. Qed.

Lemma orUnknown_named format : format ≠ "" → orUnknown (Some format) = format.
Proof.
  intros Hne. unfold orUnknown, truthy. by rewrite bool_decide_eq_false_2.
Qed.

(** X17. On a processed image the metadata that [processImageForNode] writes
    names a non-empty original format and a converted format that is png or
    the original one, and carries no error. The flag [wasConverted]
    compares the two names: it is set exactly when the image was re-encoded
    to PNG from another format. A PNG that was re-encoded because it was
    too large is reported as not converted. *)
Theorem wasConverted_tells_a_change_of_format (cfg : CONFIG) (node : IRNode)
    (stats : ProcessingStats) (w : World) (bytes : Bytes)
    (shouldStream : bool) (node' : IRNode) (stats' : ProcessingStats)
    (w' : World) :
  processImageForNode cfg fetched node stats w
  = (Some (bytes, shouldStream), node', stats', w') →
  ∃ meta,
    imageProcessing node' = Some meta
    ∧ originalFormat meta ≠ ""
    ∧ (convertedFormat meta = Some "png"
       ∨ convertedFormat meta = Some (originalFormat meta))
    ∧ (wasConverted meta = true
       ↔ convertedFormat meta = Some "png" ∧ originalFormat meta ≠ "png")
    ∧ processingError meta = None.
Proof.
  unfold processImageForNode.
  destruct (imageSource node) as [source|]; [|done].
  destruct (negb (truthy (resolvedUrl source))); [done|].
  pose proof (fetchAndConvert_shape (resolvedUrl source) w) as Hshape.
  cbv zeta in Hshape.
  destruct (fetched (resolvedUrl source) w) as [result w1]. simpl in Hshape.
  cbv beta iota.
  destruct Hshape
    as [(Hok & buf & format & Hbuf & Horig & Hne & _ & Hconv & _)
       |(Hok & _)]; rewrite Hok; [|done].
  rewrite Hbuf.
  intros [= <- <- <- <- <-]. eexists. split; [done|]. simpl.
  rewrite Horig, orUnknown_named by done.
  split; [done|]. split; [done|]. split; [|done].
  destruct Hconv as [-> | ->].
  - split.
    + intros Hw. split; [done|]. intros ->.
      by rewrite bool_decide_eq_true_2 in Hw.
    + intros [_ Hpng]. apply negb_true_iff, bool_decide_eq_false_2.
      by intros [= ->].
  - rewrite bool_decide_eq_true_2 by done. split; [done|].
    by intros [[= ->] ?].
Qed.

(** X18. Whatever makes [fetchAndConvert] fail, [processImageForNode] returns
    null, counts the image as failed and writes the message on the node,
    with the original format unknown. A data URL without comma fails with
    "Invalid data URL" and nothing outside is called; a response that is not
    ok fails with its status line; what the fetch or the reading of the body
    throws fails with its message. *)
Theorem failed_fetch_is_recorded_on_the_node (cfg : CONFIG) (node : IRNode)
    (source : ImageSource) (stats : ProcessingStats) (w : World) :
  let imageUrl := resolvedUrl source in
  (imageSource node = Some source → truthy imageUrl = true →
   success (fetched imageUrl w).1 = false →
   ∃ message,
     error (fetched imageUrl w).1 = Some message
     ∧ processImageForNode cfg fetched node stats w
       = (None,
          setProcessing node
            {| originalFormat := "unknown"; convertedFormat := None;
               wasConverted := false; processingError := Some message |},
          {| totalImages := totalImages stats + 1;
             inlineImages := inlineImages stats;
             streamedImages := streamedImages stats;
             failedImages := failedImages stats + 1;
             totalBytesProcessed := totalBytesProcessed stats |},
          (fetched imageUrl w).2))
  ∧ (startsWith imageUrl "data:" = true → indexOf imageUrl "," = None →
     fetched imageUrl w = (failure "Invalid data URL", w))
  ∧ (startsWith imageUrl "data:" = false →
     (∀ message w1,
        fetch imageUrl w = (Throw message, w1) →
        fetched imageUrl w = (failure message, w1))
     ∧ (∀ response w1,
          fetch imageUrl w = (Return response, w1) → ok response = false →
          fetched imageUrl w
          = (failure ("HTTP " +:+ pretty (status response) +:+ ": "
                      +:+ statusText response), w1))
     ∧ (∀ response w1 message w2,
          fetch imageUrl w = (Return response, w1) → ok response = true →
          arrayBuffer response w1 = (Throw message, w2) →
          fetched imageUrl w = (failure message, w2))).
Proof.
  intros imageUrl. split; [|split].
  - intros Hsrc Hurl Hfail.
    pose proof (fetchAndConvert_shape imageUrl w) as Hshape.
    cbv zeta in Hshape.
    destruct Hshape as [(Hok & _)|(_ & Hbuf & Horig & _ & message & Herr)];
      [congruence|].
    exists message. split; [done|].
    unfold processImageForNode. rewrite Hsrc. fold imageUrl. rewrite Hurl.
    cbn [negb].
    destruct (fetched imageUrl w) as [result w1]. simpl in *.
    by rewrite Hfail, Horig, Herr.
  - intros Hdata Hcomma. unfold fetchAndConvert, fromDataUrl.
    by rewrite Hdata, Hcomma.
  - intros Hdata. unfold fetchAndConvert. rewrite Hdata.
    split; [|split].
    + by intros message w1 ->.
    + by intros response w1 -> ->.
    + by intros response w1 message w2 -> -> ->.
Qed.

(** X19. A URL that starts with "data:" is never fetched: [fetchAndConvert]
    hands it to [fromDataUrl], which cuts it at the first comma. For a URL
    ["data:image/" + t + params + "," + data], with a media subtype [t] and
    parameters that start with a semicolon, the data are decoded as base64
    when the header contains ";base64" and as text otherwise; the original
    format is [t] in lower case, with jpg renamed to jpeg; and the result is
    what [convertIfNeeded] makes of the decoded bytes. *)
Theorem data_url_is_decoded_not_fetched (t params data : string) (w : World) :
  t ≠ "" →
  allChars notSeparator t = true →
  allChars notComma params = true →
  (params = "" ∨ ∃ rest, params = String ";" rest) →
  let header := "data:image/" +:+ t +:+ params in
  let format :=
    if bool_decide (toLowerCase t = "jpg") then "jpeg" else toLowerCase t in
  fetched (header +:+ "," +:+ data) w
  = match Buffer_from data (includes header ";base64") with
    | Throw message => (failure message, w)
    | Return bytes =>
        let '((processed, converted), w1) := convert bytes format w in
        ({| success := true; buffer := Some processed;
            res_originalFormat := Some format;
            res_convertedFormat := Some (if converted then "png" else format);
            error := None |}, w1)
    end.
Proof.
  intros Hne Ht Hparams Hhead header format.
  assert (allChars notComma header = true) as Hheader.
  { subst header. rewrite !allChars_append, Hparams, andb_true_r.
    change (allChars notComma "data:image/") with true. cbn [andb].
    eapply allChars_weaken; [|exact Ht].
    intros c. unfold notSeparator, notComma.
    destruct (Ascii.eqb c ";"), (Ascii.eqb c ","); done. }
  unfold fetchAndConvert.
  assert (startsWith (header +:+ "," +:+ data) "data:" = true) as ->
    by reflexivity.
  unfold fromDataUrl.
  rewrite indexOf_first_comma by done.
  rewrite substring_head, substringFrom_tail.
  destruct (Buffer_from data (includes header ";base64")) as [bytes|message];
    [|done].
  subst header. rewrite detectFormatFromDataUrl_header by done.
  fold format. rewrite orUnknown_named; [done|].
  subst format. case_bool_decide; [done|]. by apply toLowerCase_nonempty.
Qed.

End Fetch.

(** X20. [detectFormat] answers with one of six names, never avif and never
    jpg. When the content type contains png, jpeg, jpg, gif, webp or svg it
    decides alone and the bytes are not looked at; a content type that
    contains png gives png, whatever else it contains. svg is only ever
    answered on the word of the content type. Without such a content type
    the first bytes decide, and fewer than two bytes are unknown. *)
Theorem detectFormat_trusts_the_content_type (bytes : Bytes) (mime : string) :
  detectFormat bytes mime ∈ ["png"; "jpeg"; "gif"; "webp"; "svg"; "unknown"]
  ∧ (includes mime "png" = true → detectFormat bytes mime = "png")
  ∧ (includes mime "png" || includes mime "jpeg" || includes mime "jpg"
     || includes mime "gif" || includes mime "webp" || includes mime "svg"
     = true →
     ∀ bytes', detectFormat bytes' mime = detectFormat bytes mime)
  ∧ (detectFormat bytes mime = "svg" → includes mime "svg" = true)
  ∧ (includes mime "png" || includes mime "jpeg" || includes mime "jpg"
     || includes mime "gif" || includes mime "webp" || includes mime "svg"
     = false →
     (length bytes < 2)%nat → detectFormat bytes mime = "unknown").
Proof.
  split; [apply detectFormat_known|]. unfold detectFormat.
  destruct (includes mime "png"); [done|].
  destruct (includes mime "jpeg"); [done|].
  destruct (includes mime "jpg"); [done|].
  destruct (includes mime "gif"); [done|].
  destruct (includes mime "webp"); [done|].
  destruct (includes mime "svg"); [done|].
  cbn [orb]. split; [done|]. split; [done|]. split.
  - repeat match goal with
           | |- context [if ?b then _ else _] => destruct b
           end; done.
  - intros _ Hlen. unfold byteIs, byteAt.
    assert (bytes !! 1%nat = None) as Hone.
    { apply lookup_ge_None. lia. }
    rewrite Hone. cbn [fmap option_fmap option_map].
    rewrite !(bool_decide_eq_false_2 (None = Some _)) by done.
    by rewrite !andb_false_r.
Qed.

End ImageFetchFacts.

(** ** The further statements on concrete sessions *)

Module MoreExampleFacts.
Import IR Config ImageProcessor Consumer Example.
Import StreamWire JsString ImageFetch.
Import StreamWireFacts ConsumerCountFacts PipelineFacts ImageFetchFacts.

Lemma two_images_bare :
  Forall bare [imageNode "small" "abc"; imageNode "large" "abcdefg"].
Proof. repeat constructor. Qed.

Lemma two_images_distinct :
  NoDup (map id [imageNode "small" "abc"; imageNode "large" "abcdefg"]).
Proof.
  simpl. apply NoDup_cons. split; [|apply NoDup_singleton].
  by intros ?%list_elem_of_singleton.
Qed.

Lemma nodes_envelopes_carry_payloads_witness :
  let payload :=
    StreamController.mkStreamPayload
      [imageNode "small" "abc"; imageNode "large" "abcdefg"] [] None in
  let r :=
    StreamController.streamExtractedPage config fetch alwaysOpen (λ n, n)
      payload (StreamController.init tt) in
  ∃ sent,
    StreamController.ws r.2 = [] ++ sent
    ∧ map id (concat (map nodesOf sent)) = ["small"; "large"]
    ∧ Forall (λ x, bare x ∨ inlineForm config x ∨ streamedForm config x)
        (concat (map nodesOf sent))
    ∧ Forall (λ x, _imageBuffer x = None) r.1.
Proof.
  intros payload.
  exact (nodes_envelopes_carry_payloads config fetch (λ n, n) payload
           (StreamController.init tt) two_images_bare).
Defined.

Lemma total_images_counts_image_urls_witness :
  let payload :=
    StreamController.mkStreamPayload
      [imageNode "small" "abc"; imageNode "broken" "bad";
       imageNode "empty" ""] [] None in
  let r :=
    StreamController.streamExtractedPage config fetch (λ _, false) (λ n, n)
      payload (StreamController.init tt) in
  let r1 :=
    StreamController.streamExtractedPage config fetch alwaysOpen (λ n, n)
      payload (StreamController.init tt) in
  totalImages (StreamController.imageProcessor r.2) = 0 + 2
  ∧ ∃ before inlineImages streamedImages n,
      StreamController.ws r1.2
      = [] ++ before ++ [COMPLETE 3 (0 + 2) inlineImages streamedImages n].
Proof.
  intros payload.
  refine (total_images_counts_image_urls config fetch (λ _, false) (λ n, n)
            payload (StreamController.init tt) _).
  repeat constructor.
Defined.


Lemma in_order_session_creates_every_node_witness :
  let payload :=
    StreamController.mkStreamPayload
      [imageNode "small" "abc"; imageNode "large" "abcdefg"] [] None in
  let r :=
    StreamController.streamExtractedPage config fetch alwaysOpen (λ n, n)
      payload (StreamController.init tt) in
  ∃ cst',
    run (tick 2) 100 (timed (λ n, n) (StreamController.ws r.2))
      (Consumer.init [])
    = Some cst'
    ∧ pendingImageNodes cst' = ∅
    ∧ imageAssembler cst' = ∅
    ∧ (history cst').*1 ≡ₚ ["small"; "large"]
    ∧ Forall (λ e, e.2 ≠ Placeholder) (history cst').
Proof.
  intros payload.
  refine (in_order_session_creates_every_node config fetch (λ n, n) payload
            tt [] (λ n, n) (tick 2) 100 two_images_bare two_images_distinct
            _ _); reflexivity.
Defined.

Lemma wasConverted_tells_a_change_of_format_witness :
  let r :=
    processImageForNode config ExampleFetch.fetchAndConvert
      (sourcedNode "hero" "https://example.com/hero") initialStats tt in
  ∃ meta,
    imageProcessing r.1.1.2 = Some meta
    ∧ originalFormat meta ≠ ""
    ∧ (convertedFormat meta = Some "png"
       ∨ convertedFormat meta = Some (originalFormat meta))
    ∧ (wasConverted meta = true
       ↔ convertedFormat meta = Some "png" ∧ originalFormat meta ≠ "png")
    ∧ processingError meta = None.
Proof.
  intros r.
  refine (wasConverted_tells_a_change_of_format ExampleFetch.fetch
            ExampleFetch.metadata ExampleFetch.toBuffer
            ExampleFetch.Buffer_from config
            (sourcedNode "hero" "https://example.com/hero")
            initialStats tt _ _ r.1.1.2 _ _ _).
  vm_compute. reflexivity.
Defined.

Lemma data_url_is_decoded_not_fetched_witness :
  ExampleFetch.fetchAndConvert "data:image/JPG;base64,AAAA" tt
  = ({| success := true; buffer := Some (replicate 4 Byte.x01);
        res_originalFormat := Some "jpeg";
        res_convertedFormat := Some "jpeg"; error := None |}, tt).
Proof.
  refine (data_url_is_decoded_not_fetched ExampleFetch.fetch
            ExampleFetch.metadata ExampleFetch.toBuffer
            ExampleFetch.Buffer_from "JPG" ";base64" "AAAA" tt _ _ _ _).
  - discriminate.
  - reflexivity.
  - reflexivity.
  - right. by eexists.
Defined.

End MoreExampleFacts.

(** ** Facts on the plugin on the event loop *)

Module EventLoopFacts.
Import IR Consumer EventLoop Example ExampleSchedules.

Section EventLoop.

Context {SceneNode Figma : Type} `{!Renderer SceneNode Figma}.

Abbreviation CState := (@Consumer.State SceneNode Figma).

Lemma turns_app helper (s1 : list Event) : ∀ (s2 : list Event) (l : Loop),
  turns helper (s1 ++ s2) l
  = match turns helper s1 l with
    | Some l1 => turns helper s2 l1
    | None => None
    end.
Proof.
  induction s1 as [|e s1 IH]; intros s2 l; simpl; [done|].
  destruct (step helper l e); [apply IH|done].
Qed.

(** Without the helper the placeholder loop changes nothing, and it throws
    as soon as it meets a pending id. *)
Lemma placeholders_unbound (ids : list string) (st : CState) :
  (placeholders None ids st).2 = st
  ∧ ((placeholders None ids st).1 = Done
     ↔ Forall (λ i, pendingImageNodes st !! i = None) ids).
Proof.
  induction ids as [|i ids [IHst IHdone]]; simpl.
  - split; [done|]. split; [constructor|done].
  - destruct (pendingImageNodes st !! i) eqn:Hi; simpl.
    + split; [done|]. split; [done|].
      intros Hall. apply Forall_cons in Hall as [Hnone _]. congruence.
    + split; [done|]. rewrite IHdone. split.
      * intros Hall. by constructor.
      * intros Hall. by apply Forall_cons in Hall as [_ Hall].
Qed.

Lemma completeFrom_unbound (now startTime : Z) (st : CState) :
  (completeFrom None now startTime st).1.1.2 = st.
Proof.
  unfold completeFrom.
  destruct (bool_decide (0 < size (pendingImageNodes st))%nat
            && bool_decide (now - startTime < STREAM_ASSEMBLY_TIMEOUT_MS));
    [done|].
  destruct (bool_decide (0 < size (pendingImageNodes st))%nat); [|done].
  pose proof (placeholders_unbound (map_to_list (pendingImageNodes st)).*1 st)
    as [Hst _].
  destruct (placeholders None (map_to_list (pendingImageNodes st)).*1 st)
    as [[|err] st1]; simpl in *; by subst.
Qed.

(** Whenever the finalisation leaves its loop with an item pending, the
    handler ends in the [catch] and the notice of completion is not shown. *)
Lemma completeFrom_throws (now startTime : Z) (st : CState) :
  pendingImageNodes st ≠ ∅ →
  ¬ (now - startTime < STREAM_ASSEMBLY_TIMEOUT_MS) →
  completeFrom None now startTime st
  = (Threw "createPlaceholderForFailedImage is not defined", st, None, []).
Proof.
  intros Hpending Hlate. unfold completeFrom.
  rewrite (bool_decide_eq_false_2 _ Hlate), andb_false_r.
  assert (0 < size (pendingImageNodes st))%nat as Hsize.
  { destruct (decide (size (pendingImageNodes st) = 0%nat)) as [Hz|]; [|lia].
    by apply map_size_empty_iff in Hz. }
  rewrite (bool_decide_eq_true_2 _ Hsize).
  destruct (map_to_list (pendingImageNodes st)) as [|[i node] rest] eqn:Hlist.
  { by apply map_to_list_empty_iff in Hlist. }
  assert (pendingImageNodes st !! i = Some node) as Hi.
  { apply elem_of_map_to_list. rewrite Hlist. by left. }
  simpl. by rewrite Hi.
Qed.

Lemma afterTimer_unbound (now startTime : Z) (st : CState) :
  let st' := (afterTimer None now startTime st).1.1.2 in
  pendingImageNodes st' = pendingImageNodes st
  ∧ streamCreatedNodes st' = streamCreatedNodes st
  ∧ totalStreamNodesProcessed st' = totalStreamNodesProcessed st
  ∧ figma st' = figma st.
Proof.
  unfold afterTimer.
  destruct (ImageAssembler.cleanupTimedOut now (imageAssembler st))
    as [timedOut b].
  pose proof (placeholders_unbound timedOut (setAssembler b st)) as [Hst _].
  destruct (placeholders None timedOut (setAssembler b st)) as [[|err] st1];
    simpl in Hst; subst st1; [|done].
  by rewrite completeFrom_unbound.
Qed.

(** C1, the code against the claim. In code.ts as it stands the finalisation
    settles nothing: [handleStreamComplete] calls
    [createPlaceholderForFailedImage], which the file neither defines nor
    imports, so wherever the claim has a placeholder made, the handler ends
    in the [catch] of [figma.ui.onmessage] and the item stays in the pending
    table.

    - Whatever the state, a round of the finalisation loop and the end of
      the finalisation leave the pending table, the created nodes, their
      count and the document as they were, and when the loop is left with
      an item pending the handler throws.
    - When the second of the two chunks of the item late never arrives,
      the handler of COMPLETE sleeps a hundred times, then throws: the
      item is still pending, nothing was created, the document is
      untouched, and the only notice is that of the error.
    - And with the helper supplied or not: the handlers are not serialised.
      When the messages of a session of the controller are dispatched while
      the batch of NODES is still awaiting [createEnhancedNode] for its
      first node, the last chunk of the image finds no pending node,
      COMPLETE finds an empty table and notifies the end of the import with
      no node created, and the batch then defers the image: it stays
      pending with all its chunks in the assembler, and no function is left
      suspended that could settle it. *)
Theorem finalisation_leaves_items_pending
    (helper : option (IRNode → Figma → SceneNode * Figma)) (f : Figma) :
  (∀ (now startTime : Z) (st : CState),
     (let st' := (afterTimer None now startTime st).1.1.2 in
      pendingImageNodes st' = pendingImageNodes st
      ∧ streamCreatedNodes st' = streamCreatedNodes st
      ∧ totalStreamNodesProcessed st' = totalStreamNodesProcessed st
      ∧ figma st' = figma st)
     ∧ (completeFrom None now startTime st).1.1.2 = st
     ∧ (pendingImageNodes st ≠ ∅ →
        ¬ (now - startTime < STREAM_ASSEMBLY_TIMEOUT_MS) →
        ∃ err, (completeFrom None now startTime st).1.1.1 = Threw err))
  ∧ (∃ l,
       turns None lostChunk (EventLoop.init f) = Some l
       ∧ tasks l = []
       ∧ notices l = [ErrorProcessingData]
       ∧ pendingImageNodes (plugin l) = {["late" := deferredNode "late" 2]}
       ∧ streamCreatedNodes (plugin l) = ∅
       ∧ totalStreamNodesProcessed (plugin l) = 0
       ∧ figma (plugin l) = f)
  ∧ (∃ l node,
       turns helper overtaken (EventLoop.init f) = Some l
       ∧ tasks l = []
       ∧ notices l = [ImportComplete 0]
       ∧ pendingImageNodes (plugin l) = {["large" := node]}
       ∧ isStreamedNode node = true
       ∧ streamCreatedNodes (plugin l) !! "large" = None
       ∧ ImageAssembler.isComplete "large" (imageAssembler (plugin l)) = true).
Proof.
  split; [|split].
  - intros now startTime st. split; [apply afterTimer_unbound|].
    split; [apply completeFrom_unbound|].
    intros Hpending Hlate. eexists.
    by rewrite completeFrom_throws.
  - eexists. split; [vm_compute; reflexivity|].
    repeat split; vm_compute; reflexivity.
  - unfold overtaken. rewrite turns_app.
    destruct (turns helper (map (λ m, Post (IR.sequenceNumber m) m) wire)
                (EventLoop.init f)) as [l|] eqn:Hposts;
      vm_compute in Hposts; [|discriminate Hposts].
    injection Hposts as <-.
    cbn [turns step tasks lookup list_lookup plugin notices delete list_delete
         resume resumed fst snd option_list app].
    unfold materialize.
    destruct (createEnhancedNode _ _ _ _ _) as [[fn|] f'];
      eexists; eexists; (split; [reflexivity|]);
      repeat split; vm_compute; reflexivity.
Qed.

End EventLoop.

End EventLoopFacts.
